(** * asyncssh/config.py: the OpenSSH configuration parser

    A shallow embedding of [SSHConfig], [SSHClientConfig] and
    [SSHServerConfig] (src/myenve/Lib/site-packages/asyncssh/config.py)
    and the properties of the directive engine, the first-wins policy,
    list accumulation, Match/Host gating, Include and percent expansion.

    Python strings are modelled as [string] (sequences of bytes; the
    case folding and the white space of the model are the ASCII ones),
    the options dictionary as a [gmap string value], the token
    dictionary as a [gmap ascii string], exceptions as an error monad. *)

From Stdlib Require Import ZArith String Ascii List Lia.
From stdpp Require Import base option list gmap strings pretty.

Open Scope string_scope.

(** ** Python strings *)

Module PyStr.

Definition lower_char (c : ascii) : ascii :=
  let n := nat_of_ascii c in
  if (65 <=? n)%nat && (n <=? 90)%nat then ascii_of_nat (n + 32) else c.

(** [str.lower()] *)
Fixpoint lower (s : string) : string :=
  match s with
  | "" => ""
  | String c s' => String (lower_char c) (lower s')
  end.

(** The characters [str.strip()] removes (ASCII range of [str.isspace]). *)
Definition isspace (c : ascii) : bool :=
  let n := nat_of_ascii c in
  ((9 <=? n)%nat && (n <=? 13)%nat) || ((28 <=? n)%nat && (n <=? 32)%nat).

(** [str.lstrip()] *)
Fixpoint lstrip (s : string) : string :=
  match s with
  | "" => ""
  | String c s' => if isspace c then lstrip s' else s
  end.

(** [str.rstrip()] *)
Fixpoint rstrip (s : string) : string :=
  match s with
  | "" => ""
  | String c s' =>
      match rstrip s' with
      | "" => if isspace c then "" else String c ""
      | r => String c r
      end
  end.

(** [str.strip()] *)
Definition strip (s : string) : string := rstrip (lstrip s).

(** [s[n:]] *)
Fixpoint drop (n : nat) (s : string) : string :=
  match n, s with
  | O, _ => s
  | S _, "" => ""
  | S n', String _ s' => drop n' s'
  end.

(** [s[:n]] *)
Fixpoint take (n : nat) (s : string) : string :=
  match n, s with
  | O, _ => ""
  | S _, "" => ""
  | S n', String c s' => String c (take n' s')
  end.

(** [s[a:b]] for [0 <= a], [0 <= b] *)
Definition slice (a b : nat) (s : string) : string := take (b - a) (drop a s).

(** [s[i]]: [None] stands for [IndexError] *)
Fixpoint get (i : nat) (s : string) : option ascii :=
  match s, i with
  | "", _ => None
  | String c _, O => Some c
  | String _ s', S i' => get i' s'
  end.

(** [s.endswith(c)] for a one-character [c] *)
Fixpoint endswith (c : ascii) (s : string) : bool :=
  match s with
  | "" => false
  | String a "" => Ascii.eqb a c
  | String _ s' => endswith c s'
  end.

(** [s.startswith(c)] for a one-character [c] *)
Definition startswith (c : ascii) (s : string) : bool :=
  match s with
  | String a _ => Ascii.eqb a c
  | "" => false
  end.

(** [s[:-1]] *)
Fixpoint drop_last (s : string) : string :=
  match s with
  | "" => ""
  | String _ "" => ""
  | String a s' => String a (drop_last s')
  end.

(** [c in s] for a one-character [c] *)
Fixpoint contains (c : ascii) (s : string) : bool :=
  match s with
  | "" => false
  | String a s' => Ascii.eqb a c || contains c s'
  end.

(** [s.split(c, 1)] when [c in s]: the text before and after the first [c] *)
Fixpoint split1 (c : ascii) (s : string) : string * string :=
  match s with
  | "" => ("", "")
  | String a s' =>
      if Ascii.eqb a c then ("", s')
      else let '(l, r) := split1 c s' in (String a l, r)
  end.

(** [sep.join(l)] *)
Fixpoint join (sep : string) (l : list string) : string :=
  match l with
  | [] => ""
  | [x] => x
  | x :: l' => x +:+ sep +:+ join sep l'
  end.

(** [s.find(c)] for a one-character [c]; [None] stands for [-1] *)
Fixpoint find (c : ascii) (s : string) : option nat :=
  match s with
  | "" => None
  | String a s' => if Ascii.eqb a c then Some O else S <$> find c s'
  end.

Fixpoint int_digits (acc : Z) (prev_digit : bool) (s : string) : option Z :=
  match s with
  | "" => if prev_digit then Some acc else None
  | String c s' =>
      if Ascii.eqb c "_" then
        if prev_digit then int_digits acc false s' else None
      else
        match Ascii.is_nat c with
        | Some d => int_digits (10 * acc + Z.of_nat d) true s'
        | None => None
        end
  end.

(** [int(s)]: optional surrounding white space, an optional sign, decimal
    digits with single underscores between them; [None] stands for
    [ValueError]. *)
Definition int (s : string) : option Z :=
  match strip s with
  | String "+" s' => int_digits 0 false s'
  | String "-" s' => Z.opp <$> int_digits 0 false s'
  | s' => int_digits 0 false s'
  end.

End PyStr.

(** ** Option values *)

(** [socket.AF_UNSPEC], [socket.AF_INET], [socket.AF_INET6] *)
Inductive address_family := AF_UNSPEC | AF_INET | AF_INET6.

(** A component of the [RekeyLimit] pair: a string, [None], or the empty
    tuple [()] that stands for "not specified". *)
Inductive limit :=
  | LimitUnspecified
  | LimitNone
  | LimitStr (s : string).

(** The Python objects stored in the options dictionary. *)
Inductive value :=
  | VNone
  | VBool (b : bool)
  | VInt (n : Z)
  | VStr (s : string)
  | VList (l : list string)
  | VFamily (f : address_family)
  | VRekey (byte_limit time_limit : limit).

Global Instance address_family_eq_dec : EqDecision address_family.
Proof. solve_decision. Defined.
Global Instance limit_eq_dec : EqDecision limit.
Proof. solve_decision. Defined.
Global Instance value_eq_dec : EqDecision value.
Proof. solve_decision. Defined.

(** Python truthiness, as used by [x or y]. *)
Definition truthy (v : value) : bool :=
  match v with
  | VNone => false
  | VBool b => b
  | VInt n => negb (n =? 0)%Z
  | VStr s => negb (String.eqb s "")
  | VList l => match l with [] => false | _ => true end
  | VFamily f => match f with AF_UNSPEC => false | _ => true end
  | VRekey _ _ => true
  end.

(** ** Exceptions *)

Inductive exn :=
  | ConfigParseError (msg : string)
  (** any exception this module does not raise itself and does not catch:
      [IndexError], [KeyError], [TypeError], [AttributeError], [OSError] *)
  | PyException (name : string).

(** The outcome of a call: a value, an exception, or a recursion that the
    given depth bound cut off. *)
Inductive outcome (A : Type) :=
  | Ok (a : A)
  | Raise (e : exn)
  | OutOfFuel.
Global Arguments Ok {A} a.
Global Arguments Raise {A} e.
Global Arguments OutOfFuel {A}.

Global Instance outcome_ret : MRet outcome := λ A a, Ok a.
Global Instance outcome_bind : MBind outcome := λ A B f m,
  match m with
  | Ok a => f a
  | Raise e => Raise e
  | OutOfFuel => OutOfFuel
  end.

(** A [for] loop whose body may raise. *)
Fixpoint for_each {A S : Type} (body : S → A → outcome S) (l : list A) (s : S)
  : outcome S :=
  match l with
  | [] => Ok s
  | x :: l' => s' ← body s x; for_each body l' s'
  end.

(** [args.pop(0)] *)
Definition pop0 (args : list string) : outcome (string * list string) :=
  match args with
  | [] => Raise (PyException "IndexError")
  | a :: args' => Ok (a, args')
  end.

(** ** The collaborators of the parser

    Everything the module takes from outside: the file system, [shlex],
    [pathlib] globbing, the pattern matchers of [asyncssh.pattern],
    [subprocess], [socket], [os] and [hashlib]. *)

Record World := {
  (** [open(path)] and the iteration over its lines; [None] is [OSError] *)
  read_lines : string → option (list string);
  (** [shlex.split(line)]: the words, or the message of its [ValueError] *)
  shlex_split : string → string + list string;
  (** the paths an [Include] pattern stands for: the pattern is anchored at
      its own root or at [~/.ssh] and expanded by [Path.glob] *)
  include_glob : string → list string;
  (** [_exec(cmd)]: the command exits with status 0 *)
  exec_ok : string → bool;
  (** [WildcardPatternList(pattern).matches(value)] *)
  wildcard_matches : string → string → bool;
  (** [HostPatternList(pattern).matches(None, value, ip_address(value))] *)
  host_matches : string → string → bool;
  (** [socket.gethostname()] *)
  gethostname : string;
  (** [os.path.expanduser('~')] *)
  expanduser_home : string;
  (** [os.getuid()], [None] where [os] has no [getuid] *)
  getuid : option Z;
  (** [sha1(s.encode('utf-8')).hexdigest()] *)
  sha1_hexdigest : string → string;
  (** [DEFAULT_PORT] of [asyncssh.constants] *)
  DEFAULT_PORT : Z;
  (** [str(v)] for the values that are neither [None], a bool, an int nor
      a string *)
  str_other : value → string
}.

(** ** The configuration object *)

(** The two subclasses with the attributes their constructors store. *)
Inductive config_class :=
  | SSHClientConfig (_local_user _orig_host : string)
  | SSHServerConfig (_local_addr : string) (_local_port : Z)
      (_user _host _addr : string).

(** The attributes of [SSHConfig] that the parser reads and writes. *)
Record SSHConfig := mkConfig {
  _last_options : gmap string value;
  _path : string;
  _line_no : nat;
  _matching : bool;
  _options : gmap string value;
  _tokens : gmap ascii string;
  loaded : bool
}.

Definition set_path (p : string) (self : SSHConfig) : SSHConfig :=
  mkConfig (_last_options self) p (_line_no self) (_matching self)
    (_options self) (_tokens self) (loaded self).
Definition set_line_no (n : nat) (self : SSHConfig) : SSHConfig :=
  mkConfig (_last_options self) (_path self) n (_matching self)
    (_options self) (_tokens self) (loaded self).
Definition set_matching (b : bool) (self : SSHConfig) : SSHConfig :=
  mkConfig (_last_options self) (_path self) (_line_no self) b
    (_options self) (_tokens self) (loaded self).
Definition set_options (o : gmap string value) (self : SSHConfig) : SSHConfig :=
  mkConfig (_last_options self) (_path self) (_line_no self) (_matching self)
    o (_tokens self) (loaded self).
Definition set_tokens (t : gmap ascii string) (self : SSHConfig) : SSHConfig :=
  mkConfig (_last_options self) (_path self) (_line_no self) (_matching self)
    (_options self) t (loaded self).
Definition set_loaded (b : bool) (self : SSHConfig) : SSHConfig :=
  mkConfig (_last_options self) (_path self) (_line_no self) (_matching self)
    (_options self) (_tokens self) b.

(** [self._options[option] = v] *)
Definition store (option : string) (v : value) (self : SSHConfig) : SSHConfig :=
  set_options (<[option := v]> (_options self)) self.

(** [if option not in self._options: self._options[option] = v] *)
Definition store_if_unset (option : string) (v : value) (self : SSHConfig)
  : SSHConfig :=
  match _options self !! option with
  | None => store option v self
  | Some _ => self
  end.

(** [SSHConfig.get_options] *)
Definition get_options (self : SSHConfig) (reload : bool) : gmap string value :=
  if reload then _last_options self else _options self.

(** [SSHConfig.__init__]; [Path()] prints as ["."]. [dict.copy()] is
    shallow, so in Python a list taken over from [last_config] is one object
    seen from both configurations; here every configuration holds its own
    values, and nothing below reads [last_config] or [_last_options] again
    once the new object has parsed a file. *)
Definition SSHConfig_init (last_config : option SSHConfig) (reload : bool)
  : SSHConfig :=
  let last_options :=
    match last_config with
    | Some c => get_options c reload
    | None => ∅
    end in
  mkConfig last_options "." 0 true last_options ∅ false.

(** [SSHClientConfig.__init__]; [None] for [user] or [port] is the empty
    tuple [()] that the callers pass for "not given". *)
Definition SSHClientConfig_init (last_config : option SSHConfig) (reload : bool)
    (user : option string) (port : option Z) : SSHConfig :=
  let self := SSHConfig_init last_config reload in
  let self := match user with Some u => store "User" (VStr u) self | None => self end in
  match port with Some p => store "Port" (VInt p) self | None => self end.

(** [SSHServerConfig.__init__] *)
Definition SSHServerConfig_init (last_config : option SSHConfig) (reload : bool)
  : SSHConfig :=
  SSHConfig_init last_config reload.

(** [SSHConfig.get] *)
Definition get (self : SSHConfig) (option : string) (default : value) : value :=
  from_option id default (_options self !! option).

(** [cast(str, v)] where the string is then used as one: a value that is
    not a string makes the later string operation raise [TypeError]. *)
Definition as_str (v : value) : outcome string :=
  match v with
  | VStr s => Ok s
  | _ => Raise (PyException "TypeError")
  end.

Definition is_none (v : value) : bool :=
  match v with VNone => true | _ => false end.

(** [x in (a, b, ...)] on strings *)
Definition str_in (x : string) (l : list string) : bool :=
  existsb (String.eqb x) l.

(** A list comprehension whose element expression may raise. *)
Fixpoint map_outcome {A B : Type} (f : A → outcome B) (l : list A)
  : outcome (list B) :=
  match l with
  | [] => Ok []
  | x :: l' => y ← f x; ys ← map_outcome f l'; Ok (y :: ys)
  end.

(** ** Percent expansion: [SSHConfig._expand_val] *)

(** The start indices of the matches of [re.finditer(r'%', value)]. *)
Fixpoint percent_matches (idx : nat) (value : string) : list nat :=
  match value with
  | "" => []
  | String c value' =>
      if Ascii.eqb c "%" then idx :: percent_matches (S idx) value'
      else percent_matches (S idx) value'
  end.

(** The exception raised for a token that [self._tokens] does not hold. *)
Definition missing_token (token : ascii) : exn :=
  if Ascii.eqb token "d" then ConfigParseError "Home directory is not available"
  else if Ascii.eqb token "i" then ConfigParseError "User id not available"
  else ConfigParseError ("Invalid token substitution: " +:+ String token "").

(** The [for match in re.finditer(...)] loop with its two local variables,
    followed by the final [append] and [join]. *)
Fixpoint expand_loop (tokens : gmap ascii string) (value : string)
    (matches : list nat) (last_idx : nat) (result : list string)
  : outcome string :=
  match matches with
  | [] => Ok (PyStr.join "" (result ++ [PyStr.drop last_idx value]))
  | idx :: matches' =>
      if (idx <? last_idx)%nat then
        expand_loop tokens value matches' last_idx result
      else
        match PyStr.get (idx + 1) value with
        | None => Raise (ConfigParseError "Invalid token substitution")
        | Some token =>
            match tokens !! token with
            | None => Raise (missing_token token)
            | Some sub =>
                expand_loop tokens value matches' (idx + 2)
                  (result ++ [PyStr.slice last_idx idx value; sub])
            end
        end
  end.

Definition expand_val (tokens : gmap ascii string) (value : string)
  : outcome string :=
  expand_loop tokens value (percent_matches 0 value) 0 [].

(** The same expansion read off the characters from left to right; shown
    equal to [expand_val] below. *)
Fixpoint expand_chars (tokens : gmap ascii string) (value : string)
  : outcome string :=
  match value with
  | "" => Ok ""
  | String c rest =>
      if Ascii.eqb c "%" then
        match rest with
        | "" => Raise (ConfigParseError "Invalid token substitution")
        | String token rest' =>
            match tokens !! token with
            | None => Raise (missing_token token)
            | Some sub => r ← expand_chars tokens rest'; Ok (sub +:+ r)
            end
        end
      else r ← expand_chars tokens rest; Ok (String c r)
  end.

(** [str(v)] *)
Definition py_str (w : World) (v : value) : string :=
  match v with
  | VNone => "None"
  | VBool true => "True"
  | VBool false => "False"
  | VInt n => pretty n
  | VStr s => s
  | _ => str_other w v
  end.

(** ** The handlers *)

(** The methods that the [_handlers] tables bind to option names. *)
Inductive handler :=
  | H_match_host
  | H_match
  | H_include
  | H_set_bool
  | H_set_int
  | H_set_string
  | H_append_string
  | H_set_string_list
  | H_append_string_list
  | H_set_address_family
  | H_set_rekey_limits
  | H_set_hostname
  | H_set_request_tty.

Global Instance handler_eq_dec : EqDecision handler.
Proof. solve_decision. Defined.

(** The option names and methods of [SSHClientConfig._handlers]. *)
Definition client_handler_table : list (string * handler) :=
  [ ("Host", H_match_host);
    ("Match", H_match);
    ("Include", H_include);
    ("AddressFamily", H_set_address_family);
    ("BindAddress", H_set_string);
    ("CASignatureAlgorithms", H_set_string);
    ("CertificateFile", H_append_string);
    ("ChallengeResponseAuthentication", H_set_bool);
    ("Ciphers", H_set_string);
    ("Compression", H_set_bool);
    ("ConnectTimeout", H_set_int);
    ("EnableSSHKeySign", H_set_bool);
    ("ForwardAgent", H_set_bool);
    ("ForwardX11Trusted", H_set_bool);
    ("GlobalKnownHostsFile", H_set_string_list);
    ("GSSAPIAuthentication", H_set_bool);
    ("GSSAPIDelegateCredentials", H_set_bool);
    ("GSSAPIKeyExchange", H_set_bool);
    ("HostbasedAuthentication", H_set_bool);
    ("HostKeyAlgorithms", H_set_string);
    ("Hostname", H_set_hostname);
    ("HostKeyAlias", H_set_string);
    ("IdentitiesOnly", H_set_bool);
    ("IdentityAgent", H_set_string);
    ("IdentityFile", H_append_string);
    ("KbdInteractiveAuthentication", H_set_bool);
    ("KexAlgorithms", H_set_string);
    ("MACs", H_set_string);
    ("PasswordAuthentication", H_set_bool);
    ("PKCS11Provider", H_set_string);
    ("PreferredAuthentications", H_set_string);
    ("Port", H_set_int);
    ("ProxyCommand", H_set_string_list);
    ("ProxyJump", H_set_string);
    ("PubkeyAuthentication", H_set_bool);
    ("RekeyLimit", H_set_rekey_limits);
    ("RemoteCommand", H_set_string);
    ("RequestTTY", H_set_request_tty);
    ("SendEnv", H_append_string_list);
    ("ServerAliveCountMax", H_set_int);
    ("ServerAliveInterval", H_set_int);
    ("SetEnv", H_append_string_list);
    ("TCPKeepAlive", H_set_bool);
    ("User", H_set_string);
    ("UserKnownHostsFile", H_set_string_list) ].

(** The option names and methods of [SSHServerConfig._handlers]. *)
Definition server_handler_table : list (string * handler) :=
  [ ("Match", H_match);
    ("Include", H_include);
    ("AddressFamily", H_set_address_family);
    ("AuthorizedKeysFile", H_set_string_list);
    ("AllowAgentForwarding", H_set_bool);
    ("BindAddress", H_set_string);
    ("CASignatureAlgorithms", H_set_string);
    ("ChallengeResponseAuthentication", H_set_bool);
    ("Ciphers", H_set_string);
    ("ClientAliveCountMax", H_set_int);
    ("ClientAliveInterval", H_set_int);
    ("Compression", H_set_bool);
    ("GSSAPIAuthentication", H_set_bool);
    ("GSSAPIKeyExchange", H_set_bool);
    ("HostbasedAuthentication", H_set_bool);
    ("HostCertificate", H_append_string);
    ("HostKey", H_append_string);
    ("KbdInteractiveAuthentication", H_set_bool);
    ("KexAlgorithms", H_set_string);
    ("LoginGraceTime", H_set_int);
    ("MACs", H_set_string);
    ("PasswordAuthentication", H_set_bool);
    ("PermitTTY", H_set_bool);
    ("Port", H_set_int);
    ("PubkeyAuthentication", H_set_bool);
    ("RekeyLimit", H_set_rekey_limits);
    ("TCPKeepAlive", H_set_bool);
    ("UseDNS", H_set_bool) ].

(** [{option.lower(): (option, handler) for option, handler in table}] *)
Definition handlers_dict (table : list (string * handler))
  : gmap string (string * handler) :=
  foldl (λ d entry, <[PyStr.lower entry.1 := entry]> d) ∅ table.

(** ** The parser, for a given world and subclass *)

Section Parser.

Context (w : World) (cls : config_class).

(** The class attributes. Python holds the first three as sets; the loop
    over [_percent_expand] visits them in the order written here. *)
Definition _conditionals : list string :=
  match cls with
  | SSHClientConfig _ _ => ["host"; "match"]
  | SSHServerConfig _ _ _ _ _ => ["match"]
  end.

Definition _no_split : list string :=
  match cls with
  | SSHClientConfig _ _ => ["remotecommand"]
  | SSHServerConfig _ _ _ _ _ => []
  end.

Definition _percent_expand : list string :=
  match cls with
  | SSHClientConfig _ _ =>
      ["CertificateFile"; "IdentityAgent"; "IdentityFile"; "ProxyCommand";
       "RemoteCommand"]
  | SSHServerConfig _ _ _ _ _ => ["AuthorizedKeysFile"]
  end.

Definition _handlers : gmap string (string * handler) :=
  match cls with
  | SSHClientConfig _ _ => handlers_dict client_handler_table
  | SSHServerConfig _ _ _ _ _ => handlers_dict server_handler_table
  end.

(** [SSHConfig._error] *)
Definition _error {A : Type} (self : SSHConfig) (reason : string) : outcome A :=
  Raise (ConfigParseError
           (_path self +:+ " line " +:+ pretty (_line_no self) +:+ ": " +:+ reason)).

(** [_match_val] of the two subclasses; [VNone] is Python's [None]. *)
Definition _match_val (self : SSHConfig) (match_ : string) : value :=
  match cls with
  | SSHClientConfig local_user orig_host =>
      if String.eqb match_ "host" then get self "Hostname" (VStr orig_host)
      else if String.eqb match_ "originalhost" then VStr orig_host
      else if String.eqb match_ "localuser" then VStr local_user
      else if String.eqb match_ "user" then get self "User" (VStr local_user)
      else VNone
  | SSHServerConfig local_addr local_port user host addr =>
      if String.eqb match_ "localaddress" then VStr local_addr
      else if String.eqb match_ "localport" then VStr (pretty local_port)
      else if String.eqb match_ "user" then VStr user
      else if String.eqb match_ "host" then VStr host
      else if String.eqb match_ "address" then VStr addr
      else VNone
  end.

(** [SSHConfig._expand_val] *)
Definition _expand_val (self : SSHConfig) (value : string) : outcome string :=
  expand_val (_tokens self) value.

(** [SSHConfig._match]: the [while args] loop. *)
Fixpoint _match (option : string) (args : list string) (self : SSHConfig)
  : outcome (SSHConfig * list string) :=
  match args with
  | [] => Ok (self, [])
  | m :: args1 =>
      let match_ := PyStr.lower m in
      if String.eqb match_ "all" then _match option args1 (set_matching true self)
      else
        let match_val := _match_val self match_ in
        if negb (String.eqb match_ "exec") && is_none match_val then
          _error self "Invalid match condition"
        else
          match args1 with
          | [] => _error self ("Missing " +:+ match_ +:+ " match pattern")
          | pattern :: args2 =>
              matching ←
                (if String.eqb match_ "exec" then Ok (exec_ok w pattern)
                 else if str_in match_ ["address"; "localaddress"] then
                   v ← as_str match_val; Ok (host_matches w pattern v)
                 else
                   v ← as_str match_val; Ok (wildcard_matches w pattern v));
              let self := set_matching matching self in
              if matching then _match option args2 self else Ok (self, [])
          end
  end.

(** [SSHConfig._set_bool] *)
Definition _set_bool (option : string) (args : list string) (self : SSHConfig)
  : outcome (SSHConfig * list string) :=
  '(value_str, args) ← pop0 args;
  let value_str := PyStr.lower value_str in
  value ←
    (if str_in value_str ["yes"; "true"] then Ok true
     else if str_in value_str ["no"; "false"] then Ok false
     else _error self ("Invalid " +:+ option +:+ " boolean value: " +:+ value_str));
  Ok (store_if_unset option (VBool value) self, args).

(** [SSHConfig._set_int] *)
Definition _set_int (option : string) (args : list string) (self : SSHConfig)
  : outcome (SSHConfig * list string) :=
  '(value_str, args) ← pop0 args;
  value ←
    match PyStr.int value_str with
    | Some n => Ok n
    | None =>
        _error self ("Invalid " +:+ option +:+ " integer value: " +:+ value_str)
    end;
  Ok (store_if_unset option (VInt value) self, args).

(** [SSHConfig._set_string] *)
Definition _set_string (option : string) (args : list string) (self : SSHConfig)
  : outcome (SSHConfig * list string) :=
  '(value_str, args) ← pop0 args;
  let value :=
    if String.eqb (PyStr.lower value_str) "none" then VNone else VStr value_str in
  Ok (store_if_unset option value self, args).

(** [SSHConfig._append_string]; [append] on a stored value that is not a
    list raises [AttributeError]. *)
Definition _append_string (option : string) (args : list string)
    (self : SSHConfig) : outcome (SSHConfig * list string) :=
  '(value_str, args) ← pop0 args;
  if negb (String.eqb (PyStr.lower value_str) "none") then
    match _options self !! option with
    | Some (VList l) => Ok (store option (VList (l ++ [value_str])) self, args)
    | Some _ => Raise (PyException "AttributeError")
    | None => Ok (store option (VList [value_str]) self, args)
    end
  else
    Ok (store_if_unset option (VList []) self, args).

(** [SSHConfig._set_string_list] *)
Definition _set_string_list (option : string) (args : list string)
    (self : SSHConfig) : outcome (SSHConfig * list string) :=
  Ok (store_if_unset option (VList args) self, []).

(** [SSHConfig._append_string_list] *)
Definition _append_string_list (option : string) (args : list string)
    (self : SSHConfig) : outcome (SSHConfig * list string) :=
  match _options self !! option with
  | Some (VList l) => Ok (store option (VList (l ++ args)) self, [])
  | Some _ => Raise (PyException "AttributeError")
  | None => Ok (store option (VList args) self, [])
  end.

(** [SSHConfig._set_address_family] *)
Definition _set_address_family (option : string) (args : list string)
    (self : SSHConfig) : outcome (SSHConfig * list string) :=
  '(value_str, args) ← pop0 args;
  let value_str := PyStr.lower value_str in
  value ←
    (if String.eqb value_str "any" then Ok AF_UNSPEC
     else if String.eqb value_str "inet" then Ok AF_INET
     else if String.eqb value_str "inet6" then Ok AF_INET6
     else _error self ("Invalid " +:+ option +:+ " value: " +:+ value_str));
  Ok (store_if_unset option (VFamily value) self, args).

(** [SSHConfig._set_rekey_limits] *)
Definition _set_rekey_limits (option : string) (args : list string)
    (self : SSHConfig) : outcome (SSHConfig * list string) :=
  '(byte_limit, args) ← pop0 args;
  let byte_limit := PyStr.lower byte_limit in
  let byte_limit :=
    if String.eqb byte_limit "default" then LimitUnspecified
    else LimitStr byte_limit in
  let '(time_limit, args) :=
    match args with
    | t :: args' =>
        let t := PyStr.lower t in
        (if String.eqb t "none" then LimitNone else LimitStr t, args')
    | [] => (LimitUnspecified, [])
    end in
  Ok (store_if_unset option (VRekey byte_limit time_limit) self, args).

(** [SSHClientConfig._match_host] *)
Definition _match_host (option : string) (args : list string) (self : SSHConfig)
  : outcome (SSHConfig * list string) :=
  match cls with
  | SSHClientConfig _ orig_host =>
      let pattern := PyStr.join "," args in
      Ok (set_matching (wildcard_matches w pattern orig_host) self, [])
  | SSHServerConfig _ _ _ _ _ => Raise (PyException "AttributeError")
  end.

(** [SSHClientConfig._set_hostname] *)
Definition _set_hostname (option : string) (args : list string)
    (self : SSHConfig) : outcome (SSHConfig * list string) :=
  match cls with
  | SSHClientConfig _ orig_host =>
      '(value, args) ← pop0 args;
      match _options self !! option with
      | None =>
          h ← as_str (get self option (VStr orig_host));
          let self := set_tokens (<["h"%char := h]> (_tokens self)) self in
          expanded ← _expand_val self value;
          Ok (store option (VStr expanded) self, args)
      | Some _ => Ok (self, args)
      end
  | SSHServerConfig _ _ _ _ _ => Raise (PyException "AttributeError")
  end.

(** [SSHClientConfig._set_request_tty] *)
Definition _set_request_tty (option : string) (args : list string)
    (self : SSHConfig) : outcome (SSHConfig * list string) :=
  '(value_str, args) ← pop0 args;
  let value_str := PyStr.lower value_str in
  value ←
    (if str_in value_str ["yes"; "true"] then Ok (VBool true)
     else if str_in value_str ["no"; "false"] then Ok (VBool false)
     else if negb (str_in value_str ["force"; "auto"]) then
       _error self ("Invalid " +:+ option +:+ " value: " +:+ value_str)
     else Ok (VStr value_str));
  Ok (store_if_unset option value self, args).

(** [SSHConfig._include], over the [parse] it calls for every path. *)
Definition _include (parse : string → SSHConfig → outcome SSHConfig)
    (option : string) (args : list string) (self : SSHConfig)
  : outcome (SSHConfig * list string) :=
  let old_path := _path self in
  self ←
    for_each
      (λ self pattern,
         for_each (λ self path, parse path self) (include_glob w pattern) self)
      args self;
  Ok (set_path old_path self, []).

(** [handler(self, option, args)] *)
Definition call_handler (parse : string → SSHConfig → outcome SSHConfig)
    (h : handler) (option : string) (args : list string) (self : SSHConfig)
  : outcome (SSHConfig * list string) :=
  match h with
  | H_match_host => _match_host option args self
  | H_match => _match option args self
  | H_include => _include parse option args self
  | H_set_bool => _set_bool option args self
  | H_set_int => _set_int option args self
  | H_set_string => _set_string option args self
  | H_append_string => _append_string option args self
  | H_set_string_list => _set_string_list option args self
  | H_append_string_list => _append_string_list option args self
  | H_set_address_family => _set_address_family option args self
  | H_set_rekey_limits => _set_rekey_limits option args self
  | H_set_hostname => _set_hostname option args self
  | H_set_request_tty => _set_request_tty option args self
  end.

(** The [if option.endswith('=') ... elif ...] chain of [parse], which
    accepts [Option=value], [Option = value] and [Option =value]. *)
Definition split_option (option : string) (args : list string)
  : string * list string :=
  if PyStr.endswith "=" option then (PyStr.drop_last option, args)
  else if PyStr.contains "=" option then
    let '(option, arg) := PyStr.split1 "=" option in (option, arg :: args)
  else
    match args with
    | a :: args' =>
        if String.eqb a "=" then (option, args')
        else if PyStr.startswith "=" a then (option, PyStr.drop 1 a :: args')
        else (option, args)
    | [] => (option, args)
    end.

(** From the stripped line to [loption] and [args], up to the test of
    [self._matching]. *)
Definition read_directive (self : SSHConfig) (line : string)
  : outcome (string * list string) :=
  args ←
    match shlex_split w line with
    | inr args => Ok args
    | inl exc => _error self exc
    end;
  '(option, args) ← pop0 args;
  let '(option, args) := split_option option args in
  let loption := PyStr.lower option in
  let args :=
    if str_in loption _no_split then
      [PyStr.strip (PyStr.drop (String.length loption) (PyStr.lstrip line))]
    else args in
  Ok (loption, args).

(** The body of the [for line in file] loop of [parse]. *)
Definition parse_line (parse : string → SSHConfig → outcome SSHConfig)
    (self : SSHConfig) (line : string) : outcome SSHConfig :=
  let self := set_line_no (S (_line_no self)) self in
  let line := PyStr.strip line in
  if String.eqb line "" || PyStr.startswith "#" line then Ok self
  else
    '(loption, args) ← read_directive self line;
    if negb (_matching self) && negb (str_in loption _conditionals) then Ok self
    else
      match _handlers !! loption with
      | None => Ok self
      | Some (option, handler) =>
          match args with
          | [] => _error self ("Missing " +:+ option +:+ " value")
          | _ :: _ =>
              '(self, args) ← call_handler parse handler option args self;
              match args with
              | [] => Ok self
              | _ :: _ =>
                  _error self ("Extra data at end: " +:+ PyStr.join " " args)
              end
          end
      end.

(** [_set_tokens] of the two subclasses; [''.join] raises [TypeError] on a
    component that is not a string. *)
Definition _set_tokens (self : SSHConfig) : outcome SSHConfig :=
  match cls with
  | SSHClientConfig local_user orig_host =>
      let local_host := gethostname w in
      let short_local_host :=
        match PyStr.find "." local_host with
        | None => local_host
        | Some idx => PyStr.take idx local_host
        end in
      let host := get self "Hostname" (VStr orig_host) in
      let port := py_str w (get self "Port" (VInt (DEFAULT_PORT w))) in
      let user :=
        let u := get self "User" VNone in
        if truthy u then u else VStr local_user in
      let home := expanduser_home w in
      host ← as_str host;
      user ← as_str user;
      let conn_info := PyStr.join "" [local_host; host; port; user] in
      let conn_hash := sha1_hexdigest w conn_info in
      let tokens :=
        <["u"%char := local_user]>
          (<["r"%char := user]>
             (<["p"%char := port]>
                (<["n"%char := orig_host]>
                   (<["l"%char := local_host]>
                      (<["L"%char := short_local_host]>
                         (<["h"%char := host]>
                            (<["C"%char := conn_hash]> (_tokens self)))))))) in
      let tokens :=
        if negb (String.eqb home "~") then <["d"%char := home]> tokens
        else tokens in
      let tokens :=
        match getuid w with
        | Some uid => <["i"%char := pretty uid]> tokens
        | None => tokens
        end in
      Ok (set_tokens tokens self)
  | SSHServerConfig _ _ user _ _ =>
      Ok (set_tokens (<["u"%char := user]> (_tokens self)) self)
  end.

(** The body of the [for option in self._percent_expand] loop. *)
Definition expand_option (self : SSHConfig) (option : string)
  : outcome SSHConfig :=
  match _options self !! option with
  | None => Ok self
  | Some value =>
      value ←
        match value with
        | VList l => l' ← map_outcome (_expand_val self) l; Ok (VList l')
        | VStr s => s' ← _expand_val self s; Ok (VStr s')
        | _ => Ok value
        end;
      Ok (store option value self)
  end.

(** [SSHConfig.parse]. [fuel] bounds the nesting depth of [Include]. *)
Fixpoint parse (fuel : nat) (path : string) (self : SSHConfig)
  : outcome SSHConfig :=
  match fuel with
  | O => OutOfFuel
  | S fuel' =>
      let self := set_path path self in
      let self := set_line_no 0 self in
      let self := set_matching true self in
      let self := set_tokens {["%"%char := "%"]} self in
      match read_lines w path with
      | None => Raise (PyException "OSError")
      | Some file =>
          self ← for_each (parse_line (parse fuel')) file self;
          self ← _set_tokens self;
          for_each expand_option _percent_expand self
      end
  end.

(** The part of [SSHConfig.load] after the construction of [config];
    [config_paths] is the sequence of paths, empty for [None]. *)
Definition load_paths (fuel : nat) (config : SSHConfig)
    (config_paths : list string) : outcome SSHConfig :=
  match config_paths with
  | [] => Ok config
  | _ :: _ =>
      config ← for_each (λ config path, parse fuel path config) config_paths config;
      Ok (set_loaded true config)
  end.

End Parser.

(** [SSHClientConfig.load(last_config, config_paths, reload, local_user,
    user, host, port)] *)
Definition SSHClientConfig_load (w : World) (fuel : nat)
    (last_config : option SSHConfig) (config_paths : list string)
    (reload : bool) (local_user : string) (user : option string)
    (host : string) (port : option Z) : outcome SSHConfig :=
  load_paths w (SSHClientConfig local_user host) fuel
    (SSHClientConfig_init last_config reload user port) config_paths.

(** [SSHServerConfig.load(last_config, config_paths, reload, local_addr,
    local_port, user, host, addr)]; the constructor stores [host or addr]. *)
Definition SSHServerConfig_load (w : World) (fuel : nat)
    (last_config : option SSHConfig) (config_paths : list string)
    (reload : bool) (local_addr : string) (local_port : Z)
    (user host addr : string) : outcome SSHConfig :=
  load_paths w
    (SSHServerConfig local_addr local_port user
       (if String.eqb host "" then addr else host) addr)
    fuel (SSHServerConfig_init last_config reload) config_paths.

(** [SSHConfig.get_compression_algs]; [None] stands for the empty tuple. *)
Definition get_compression_algs (self : SSHConfig) : option string :=
  let compression := get self "Compression" VNone in
  if is_none compression then None
  else if truthy compression then Some "zlib@openssh.com,zlib,none"
  else Some "none,zlib@openssh.com,zlib".

(** ** Notions used in the statements *)

(** A text without a percent sign. *)
Definition percent_free (s : string) : Prop := PyStr.contains "%" s = false.

(** The setters of the scalar options: each ends in
    [if option not in self._options: self._options[option] = value]. *)
Definition scalar_setter (h : handler) : bool :=
  match h with
  | H_set_bool | H_set_int | H_set_string | H_set_string_list
  | H_set_address_family | H_set_rekey_limits => true
  | _ => false
  end.

(** The handlers that never overwrite a value: the scalar setters and the
    two client setters [_set_hostname] and [_set_request_tty]. *)
Definition first_wins (h : handler) : bool :=
  scalar_setter h ||
  match h with H_set_hostname | H_set_request_tty => true | _ => false end.

(** The two handlers that append to a list. *)
Definition appender (h : handler) : bool :=
  match h with H_append_string | H_append_string_list => true | _ => false end.

(** The object a scalar setter computes from its arguments, [None] where
    it raises instead. *)
Definition directive_value (h : handler) (args : list string) : option value :=
  match h, args with
  | H_set_bool, a :: _ =>
      if str_in (PyStr.lower a) ["yes"; "true"] then Some (VBool true)
      else if str_in (PyStr.lower a) ["no"; "false"] then Some (VBool false)
      else None
  | H_set_int, a :: _ => VInt <$> PyStr.int a
  | H_set_string, a :: _ =>
      Some (if String.eqb (PyStr.lower a) "none" then VNone else VStr a)
  | H_set_string_list, _ => Some (VList args)
  | H_set_address_family, a :: _ =>
      if String.eqb (PyStr.lower a) "any" then Some (VFamily AF_UNSPEC)
      else if String.eqb (PyStr.lower a) "inet" then Some (VFamily AF_INET)
      else if String.eqb (PyStr.lower a) "inet6" then Some (VFamily AF_INET6)
      else None
  | H_set_rekey_limits, b :: rest =>
      Some (VRekey
              (if String.eqb (PyStr.lower b) "default" then LimitUnspecified
               else LimitStr (PyStr.lower b))
              (match rest with
               | t :: _ =>
                   if String.eqb (PyStr.lower t) "none" then LimitNone
                   else LimitStr (PyStr.lower t)
               | [] => LimitUnspecified
               end))
  | _, _ => None
  end.

(** The lines [parse] passes over: empty after [strip], or a comment. *)
Definition is_blank (line : string) : bool :=
  String.eqb (PyStr.strip line) "" || PyStr.startswith "#" (PyStr.strip line).

(** The state in which the body of the loop reads a line: the line counter
    has been advanced. *)
Definition next_line (self : SSHConfig) : SSHConfig :=
  set_line_no (S (_line_no self)) self.

(** The object in the state in which [parse] enters its loop. *)
Definition at_start (path : string) (self : SSHConfig) : SSHConfig :=
  set_tokens {["%"%char := "%"]}
    (set_matching true (set_line_no 0 (set_path path self))).

(** [line] is read as the directive [loption args] in state [self]. *)
Definition directive (w : World) (cls : config_class) (self : SSHConfig)
    (line loption : string) (args : list string) : Prop :=
  is_blank line = false ∧
  read_directive w cls (next_line self) (PyStr.strip line) = Ok (loption, args).

(** The list an option holds, the empty list when it holds none. *)
Definition list_of (self : SSHConfig) (option : string) : list string :=
  match _options self !! option with
  | Some (VList l) => l
  | _ => []
  end.

(** The option holds a list, if anything. *)
Definition list_typed (option : string) (self : SSHConfig) : Prop :=
  ∀ x, _options self !! option = Some x → ∃ l, x = VList l.

(** A value that percent expansion leaves as it is. *)
Definition plain_value (v : value) : Prop :=
  match v with
  | VStr s => percent_free s
  | VList l => Forall percent_free l
  | _ => True
  end.

(** [after] is what one expansion with [tokens] makes of the entry
    [before] of the options dictionary. *)
Definition expanded_once (tokens : gmap ascii string)
    (before after : option value) : Prop :=
  match before with
  | None => after = None
  | Some (VList l) =>
      ∃ l', map_outcome (expand_val tokens) l = Ok l' ∧ after = Some (VList l')
  | Some (VStr s) => ∃ s', expand_val tokens s = Ok s' ∧ after = Some (VStr s')
  | Some v => after = Some v
  end.

(** The names of the tokens a client defines. *)
Definition client_token_names : list ascii :=
  ["%"; "C"; "h"; "L"; "l"; "n"; "p"; "r"; "u"; "d"; "i"]%char.

(** The token dictionary binds [%] to itself and no name outside those a
    client defines. *)
Definition tokens_known (tokens : gmap ascii string) : Prop :=
  tokens !! "%"%char = Some "%" ∧
  ∀ c, is_Some (tokens !! c) → c ∈ client_token_names.

(** The options from which [_set_tokens] reads are strings. *)
Definition tokens_buildable (cls : config_class) (self : SSHConfig) : Prop :=
  match cls with
  | SSHClientConfig local_user orig_host =>
      (∃ s, get self "Hostname" (VStr orig_host) = VStr s) ∧
      (∃ s, (if truthy (get self "User" VNone) then get self "User" VNone
             else VStr local_user) = VStr s)
  | SSHServerConfig _ _ _ _ _ => True
  end.

(** The end of an included file neither fails nor changes an option: the
    tokens can be built and the options of the expansion list hold text
    without percent signs. *)
Definition expansion_neutral (cls : config_class) (self : SSHConfig) : Prop :=
  tokens_buildable cls self ∧
  ∀ o v, o ∈ _percent_expand cls → _options self !! o = Some v → plain_value v.

(** ** Appending directives over several files *)

(** The concatenation of the lists [f] gives for the elements of [l], when
    it gives one for each. *)
Fixpoint collect {A : Type} (f : A → option (list string)) (l : list A)
  : option (list string) :=
  match l with
  | [] => Some []
  | x :: l' =>
      match f x, collect f l' with
      | Some a, Some b => Some (a ++ b)%list
      | _, _ => None
      end
  end.

(** The arguments that a line hands to the appending handler of [loption],
    directly or through the files it includes: the line is blank, or a
    directive [loption] with one argument that is not [none], or an
    [Include] of files that [in_file] accepts. *)
Definition appended_by_line (w : World) (cls : config_class) (loption : string)
    (in_file : list string → option (list string)) (line : string)
  : option (list string) :=
  if is_blank line then Some []
  else
    match read_directive w cls (SSHConfig_init None false) (PyStr.strip line) with
    | Ok (lo, args) =>
        if String.eqb lo loption then
          match args with
          | [v] => if String.eqb (PyStr.lower v) "none" then None else Some [v]
          | _ => None
          end
        else if String.eqb lo "include" then
          match args with
          | [] => None
          | _ :: _ =>
              collect
                (λ path,
                   match read_lines w path with
                   | Some file => in_file file
                   | None => None
                   end)
                (concat (map (include_glob w) args))
          end
        else None
    | _ => None
    end.

(** The arguments that the lines of a file hand to the appending handler of
    [loption], in the order in which [parse] meets them, the files of an
    [Include] at the place of the [Include]; [None] when a line is of
    another kind or when [fuel] does not cover the nesting of the files. *)
Fixpoint appended_by (w : World) (cls : config_class) (loption : string)
    (fuel : nat) (lines : list string) : option (list string) :=
  match fuel with
  | O => None
  | S fuel' =>
      collect (appended_by_line w cls loption (appended_by w cls loption fuel'))
        lines
  end.

(** [self'] differs from [self] in the options by the values [vs] at the
    end of the list of [option], and is in a matching scope. *)
Definition appended (option : string) (self : SSHConfig) (vs : list string)
    (self' : SSHConfig) : Prop :=
  _matching self' = true ∧
  list_of self' option = (list_of self option ++ vs)%list ∧
  list_typed option self' ∧
  ∀ k, k ≠ option → _options self' !! k = _options self !! k.

(** The state in which a run of appending directives over several files
    starts. *)
Definition ready (cls : config_class) (option : string) (self : SSHConfig)
  : Prop :=
  _matching self = true ∧ list_typed option self ∧ expansion_neutral cls self.

(** ** The resolver of the specification

    Section 4.4 of the specification has the percent expansion run once for
    a resolver invocation, after the directive pass over all files. These
    two definitions word that design, to be compared with [parse] and
    [load_paths]: a pass over a file and the files it includes that expands
    nothing, and a resolver that builds the tokens and expands the listed
    options once, after the pass over the last path. *)

Fixpoint spec_directive_pass (w : World) (cls : config_class) (fuel : nat)
    (path : string) (self : SSHConfig) : outcome SSHConfig :=
  match fuel with
  | O => OutOfFuel
  | S fuel' =>
      match read_lines w path with
      | None => Raise (PyException "OSError")
      | Some file =>
          for_each (parse_line w cls (spec_directive_pass w cls fuel')) file
            (at_start path self)
      end
  end.

Definition spec_resolve (w : World) (cls : config_class) (fuel : nat)
    (config : SSHConfig) (config_paths : list string) : outcome SSHConfig :=
  match config_paths with
  | [] => Ok config
  | _ :: _ =>
      config ← for_each (λ config path, spec_directive_pass w cls fuel path config)
                 config_paths config;
      config ← _set_tokens w cls config;
      config ← for_each expand_option (_percent_expand cls) config;
      Ok (set_loaded true config)
  end.

(** ** Worlds to run the parser in

    A world given by a table of files and a table of glob results. The
    tokenizer splits at white space, which is what [shlex.split] does on a
    line without quotes and backslashes; a pattern list matches when it is
    ["*"] or the value itself. *)

Definition lookup_table {A : Type} (table : list (string * A)) (key : string)
  : option A :=
  snd <$> List.find (λ entry, String.eqb entry.1 key) table.

Definition table_world (files globs : list (string * list string)) : World := {|
  read_lines := lookup_table files;
  shlex_split := λ line, inr (String.words line);
  include_glob := λ pattern, default [] (lookup_table globs pattern);
  exec_ok := λ _, false;
  wildcard_matches := λ pattern v, String.eqb pattern "*" || String.eqb pattern v;
  host_matches := λ pattern v, String.eqb pattern "*" || String.eqb pattern v;
  gethostname := "laptop";
  expanduser_home := "/home/alice";
  getuid := Some 1000%Z;
  sha1_hexdigest := λ _, "da39a3ee5e6b4b0d3255bfef95601890afd80709";
  DEFAULT_PORT := 22%Z;
  str_other := λ _, ""
|}.

(** A client that connects to [example.com] as local user [alice]. *)
Definition alice_client : config_class := SSHClientConfig "alice" "example.com".

(** The object at the start of the first [parse] of such a client. *)
Definition fresh_config : SSHConfig := SSHClientConfig_init None false None None.

(** One file with a port given twice. *)
Definition two_ports_world : World :=
  table_world [("config", ["Port 22"; "Compression yes"; "Port 23"])] [].

(** Two files with one identity each, and a file that sends variables. *)
Definition identities_world : World :=
  table_world
    [("first", ["IdentityFile a"]);
     ("second", ["IdentityFile b"]);
     ("both", ["IdentityFile a"; "IdentityFile b"]);
     ("env", ["SendEnv LANG"; "SendEnv none"]);
     ("none", ["IdentityFile NONE"])]
    [].

(** Files of identities that include one another. *)
Definition nested_world : World :=
  table_world
    [("config", ["IdentityFile a"; "Include keys.d/*"; "IdentityFile d"]);
     ("/home/alice/.ssh/keys.d/one", ["IdentityFile b"]);
     ("/home/alice/.ssh/keys.d/two", ["# work"; "IdentityFile c"])]
    [("keys.d/*", ["/home/alice/.ssh/keys.d/one"; "/home/alice/.ssh/keys.d/two"])].

(** A block that does not match, between two [Host] lines. *)
Definition host_block_world : World :=
  table_world
    [("config", ["Host other.example"; "Port 2222"; "Compression maybe"; "Host *"])]
    [].

(** Files that include other files of [~/.ssh]. *)
Definition include_world : World :=
  table_world
    [("config", ["Include notes.conf"; "Compression maybe"]);
     ("/home/alice/.ssh/notes.conf", ["# one"; "# two"; "# three"]);
     ("gateway", ["Include block.conf"; "Port 2222"]);
     ("/home/alice/.ssh/block.conf", ["Host other.example"; "User bob"]);
     ("keys", ["IdentityFile %%h"; "Include empty.conf"]);
     ("/home/alice/.ssh/empty.conf", [])]
    [("notes.conf", ["/home/alice/.ssh/notes.conf"]);
     ("block.conf", ["/home/alice/.ssh/block.conf"]);
     ("empty.conf", ["/home/alice/.ssh/empty.conf"])].

(** One file with host names. *)
Definition hostname_world : World :=
  table_world
    [("config", ["Hostname gw.%h"; "Hostname %p.example.com"]);
     ("port", ["Hostname %p.example.com"])]
    [].

(** Files with values their handlers refuse. *)
Definition malformed_world : World :=
  table_world
    [("compression", ["# settings"; "Port 22"; "Compression maybe"; "Port 23"]);
     ("port", ["Port 22"; "Port abc"]);
     ("twice", ["Compression no"; "Compression yes"])]
    [].

(** ** Notions used in the further statements *)

(** The text with every percent sign written twice. *)
Fixpoint escape_percent (s : string) : string :=
  match s with
  | "" => ""
  | String c s' =>
      if Ascii.eqb c "%" then String "%" (String "%" (escape_percent s'))
      else String c (escape_percent s')
  end.

(** A text of decimal digits. *)
Fixpoint all_digits (s : string) : bool :=
  match s with
  | "" => true
  | String c s' => bool_decide (is_Some (Ascii.is_nat c)) && all_digits s'
  end.

(** One criterion of a [Match] line: the word [all], or a keyword with
    its pattern. *)
Inductive criterion :=
  | All (word : string)
  | Test (keyword pattern : string).

(** The words of a criterion as they stand on the line. *)
Definition criterion_words (c : criterion) : list string :=
  match c with
  | All word => [word]
  | Test keyword pattern => [keyword; pattern]
  end.

(** [all] is written in any letter case and is not the keyword of a test. *)
Definition criterion_formed (c : criterion) : Prop :=
  match c with
  | All word => PyStr.lower word = "all"
  | Test keyword _ => PyStr.lower keyword ≠ "all"
  end.

(** The verdict of a criterion in a state: that of the command for
    [exec], that of the pattern on the string [_match_val] gives for any
    other keyword; [None] where [_match_val] gives no string. *)
Definition criterion_verdict (w : World) (cls : config_class) (self : SSHConfig)
    (c : criterion) : option bool :=
  match c with
  | All _ => Some true
  | Test keyword pattern =>
      let match_ := PyStr.lower keyword in
      if String.eqb match_ "exec" then Some (exec_ok w pattern)
      else
        match _match_val cls self match_ with
        | VStr v =>
            Some (if str_in match_ ["address"; "localaddress"]
                  then host_matches w pattern v
                  else wildcard_matches w pattern v)
        | _ => None
        end
  end.

(** The handlers that take one argument from the line. *)
Definition one_argument (h : handler) : bool :=
  match h with
  | H_set_bool | H_set_int | H_set_string | H_append_string
  | H_set_address_family | H_set_hostname | H_set_request_tty => true
  | _ => false
  end.

(** The kind of value that a handler stores; the conditional directives
    and [Include] store none. *)
Definition value_fits (h : handler) (v : value) : bool :=
  match h, v with
  | H_set_bool, VBool _ => true
  | H_set_int, VInt _ => true
  | H_set_string, (VStr _ | VNone) => true
  | (H_append_string | H_set_string_list | H_append_string_list), VList _ => true
  | H_set_address_family, VFamily _ => true
  | H_set_rekey_limits, VRekey _ _ => true
  | H_set_hostname, VStr _ => true
  | H_set_request_tty, (VBool _ | VStr _) => true
  | _, _ => false
  end.

(** Every option of the handler table that has a value has one of the kind
    that its handler stores. *)
Definition well_typed (cls : config_class) (options : gmap string value) : Prop :=
  ∀ loption option h v,
    _handlers cls !! loption = Some (option, h) →
    options !! option = Some v →
    value_fits h v = true.

(** An outcome that is a result, a [ConfigParseError], the [OSError] of
    [open], or a recursion cut off: no [IndexError], [KeyError],
    [TypeError] or [AttributeError]. *)
Definition graceful {A : Type} (o : outcome A) : Prop :=
  match o with
  | Raise (PyException name) => name = "OSError"
  | _ => True
  end.

(** The token dictionary of a server: [%%] and [%u]. *)
Definition server_tokens (user : string) : gmap ascii string :=
  <["u"%char := user]> {["%"%char := "%"]}.

(** The tokenizer gives at least one word for a line that is not empty. *)
Definition splits_words (w : World) : Prop :=
  ∀ line, line ≠ "" → shlex_split w line ≠ inr [].

(** A server that user [bob] connects to. *)
Definition bob_server : config_class :=
  SSHServerConfig "10.0.0.1" 22 "bob" "client.example" "10.0.0.2".

(** A world whose tokenizer takes the line for one word, as [shlex.split]
    does for a line without white space, quotes and backslashes. *)
Definition one_word_world (files : list (string * list string)) : World := {|
  read_lines := lookup_table files;
  shlex_split := λ line, inr [line];
  include_glob := λ _, [];
  exec_ok := λ _, false;
  wildcard_matches := λ pattern v, String.eqb pattern "*" || String.eqb pattern v;
  host_matches := λ pattern v, String.eqb pattern "*" || String.eqb pattern v;
  gethostname := "laptop.example.org";
  expanduser_home := "/home/alice";
  getuid := Some 1000%Z;
  sha1_hexdigest := λ _, "da39a3ee5e6b4b0d3255bfef95601890afd80709";
  DEFAULT_PORT := 22%Z;
  str_other := λ _, ""
|}.

(** A world in which the home directory cannot be found and [os] has no
    [getuid]. *)
Definition homeless_world : World := {|
  read_lines := lookup_table [("config", ["IdentityFile %d/.ssh/id_%i"])];
  shlex_split := λ line, inr (String.words line);
  include_glob := λ _, [];
  exec_ok := λ _, false;
  wildcard_matches := λ pattern v, String.eqb pattern "*" || String.eqb pattern v;
  host_matches := λ pattern v, String.eqb pattern "*" || String.eqb pattern v;
  gethostname := "laptop";
  expanduser_home := "~";
  getuid := None;
  sha1_hexdigest := λ _, "da39a3ee5e6b4b0d3255bfef95601890afd80709";
  DEFAULT_PORT := 22%Z;
  str_other := λ _, ""
|}.

(** A file of [~/.ssh] that includes itself. *)
Definition cyclic_world : World :=
  table_world
    [("/home/alice/.ssh/config", ["Include config"; "Port 22"])]
    [("config", ["/home/alice/.ssh/config"])].

(** Files with [Match] lines, options that no table knows, a remote
    command, keys of a server and a port. *)
Definition match_world : World :=
  table_world
    [("config", ["Match originalhost example.com user alice"; "Port 2222"]);
     ("other", ["Match user bob bogus"; "Port 2222"]);
     ("unknown", ["# local"; "ColorScheme dark"; ""; "VisualHostKey"]);
     ("command", ["RemoteCommand = tmux   attach"]);
     ("keys", ["AuthorizedKeysFile .ssh/%u/keys /etc/keys/%%u"]);
     ("badkeys", ["AuthorizedKeysFile /home/%h/.ssh/keys"]);
     ("ports", ["Port 22"; "Compression yes"])]
    [].

(** A file with a quotation mark that is not closed, in a block that does
    not match; the tokenizer of this world refuses a line with such a mark
    as [shlex.split] does, and splits the other lines at white space. *)
Definition quoting_world : World := {|
  read_lines :=
    lookup_table [("quoted", ["Host other.example"; "ColorScheme 'dark"])];
  shlex_split := λ line,
    if PyStr.contains "'" line then inl "No closing quotation"
    else inr (String.words line);
  include_glob := λ _, [];
  exec_ok := λ _, false;
  wildcard_matches := λ pattern v, String.eqb pattern "*" || String.eqb pattern v;
  host_matches := λ pattern v, String.eqb pattern "*" || String.eqb pattern v;
  gethostname := "laptop";
  expanduser_home := "/home/alice";
  getuid := Some 1000%Z;
  sha1_hexdigest := λ _, "da39a3ee5e6b4b0d3255bfef95601890afd80709";
  DEFAULT_PORT := 22%Z;
  str_other := λ _, ""
|}.

(** * Properties *)

Open Scope nat_scope.
Open Scope list_scope.

(** Membership in a list that is written out. *)
Ltac in_list := apply (bool_decide_unpack _); by vm_compute.

(** ** Strings *)

Lemma str_app_nil_l (s : string) : "" +:+ s = s.
Proof. reflexivity. Qed.

Lemma str_app_cons (c : ascii) (a b : string) : String c a +:+ b = String c (a +:+ b).
Proof. reflexivity. Qed.

Lemma str_app_nil_r (s : string) : s +:+ "" = s.
Proof. induction s as [|c s IH]; [done|]. by rewrite str_app_cons, IH. Qed.

Lemma str_app_assoc (a b c : string) : (a +:+ b) +:+ c = a +:+ (b +:+ c).
Proof. induction a as [|x a IH]; [done|]. by rewrite !str_app_cons, IH. Qed.

Lemma str_length_app (a b : string) :
  String.length (a +:+ b) = String.length a + String.length b.
Proof. induction a as [|x a IH]; [done|]. rewrite str_app_cons. simpl. by rewrite IH. Qed.

Lemma str_get_app_r (a b : string) (i : nat) :
  PyStr.get (String.length a + i) (a +:+ b) = PyStr.get i b.
Proof. induction a as [|x a IH]; [done|]. rewrite str_app_cons. simpl. apply IH. Qed.

Lemma str_drop_app (a b : string) : PyStr.drop (String.length a) (a +:+ b) = b.
Proof. induction a as [|x a IH]; [by destruct b|]. rewrite str_app_cons. simpl. apply IH. Qed.

Lemma str_take_app (a b : string) : PyStr.take (String.length a) (a +:+ b) = a.
Proof. induction a as [|x a IH]; [by destruct b|]. rewrite str_app_cons. simpl. by rewrite IH. Qed.

Lemma str_slice_app (a b c : string) :
  PyStr.slice (String.length a) (String.length a + String.length b)
    (a +:+ b +:+ c) = b.
Proof.
  unfold PyStr.slice. rewrite str_drop_app.
  replace (String.length a + String.length b - String.length a)
    with (String.length b) by lia.
  apply str_take_app.
Qed.

Lemma join_empty_snoc (l : list string) (x : string) :
  PyStr.join "" (l ++ [x]) = PyStr.join "" l +:+ x.
Proof.
  induction l as [|y l IH]; [done|].
  destruct l as [|z l]; [done|].
  change (PyStr.join "" ((y :: z :: l) ++ [x]))
    with (y +:+ "" +:+ PyStr.join "" ((z :: l) ++ [x])).
  rewrite IH. change (PyStr.join "" (y :: z :: l))
    with (y +:+ "" +:+ PyStr.join "" (z :: l)).
  by rewrite !str_app_nil_l, str_app_assoc.
Qed.

(** ** The monad *)

Lemma bind_Ok {A B : Type} (m : outcome A) (f : A → outcome B) (b : B) :
  m ≫= f = Ok b ↔ ∃ a, m = Ok a ∧ f a = Ok b.
Proof.
  destruct m as [a| |]; simpl; split.
  - intros H. by exists a.
  - by intros (a' & [= <-] & H).
  - done.
  - by intros (a' & H & _).
  - done.
  - by intros (a' & H & _).
Qed.

Lemma for_each_app {A S : Type} (body : S → A → outcome S) (l1 l2 : list A)
    (s : S) :
  for_each body (l1 ++ l2) s = s' ← for_each body l1 s; for_each body l2 s'.
Proof.
  revert s. induction l1 as [|x l1 IH]; intros s; [done|].
  simpl. destruct (body s x); simpl; auto.
Qed.

(** A loop invariant is kept by a loop whose body keeps it. *)
Lemma for_each_invariant {A S : Type} (P : S → Prop) (body : S → A → outcome S)
    (l : list A) (s s' : S) :
  (∀ s x s', P s → body s x = Ok s' → P s') →
  P s → for_each body l s = Ok s' → P s'.
Proof.
  intros Hbody. revert s. induction l as [|x l IH]; intros s Hs Hrun.
  - by injection Hrun as <-.
  - simpl in Hrun. apply bind_Ok in Hrun as (s1 & H1 & H2). eauto.
Qed.

Lemma for_each_concat {A B S : Type} (f : S → B → outcome S) (g : A → list B)
    (l : list A) (s : S) :
  for_each (λ s x, for_each f (g x) s) l s = for_each f (concat (map g l)) s.
Proof.
  revert s. induction l as [|x l IH]; intros s; [done|].
  simpl. rewrite for_each_app.
  destruct (for_each f (g x) s); simpl; auto.
Qed.

(** ** Percent expansion *)

Lemma percent_free_snoc (s : string) (c : ascii) :
  percent_free s → Ascii.eqb c "%" = false → percent_free (s +:+ String c "").
Proof.
  unfold percent_free. induction s as [|x s IH]; intros Hs Hc.
  - change (PyStr.contains "%" (String c "") = false). simpl. by rewrite Hc.
  - rewrite str_app_cons. simpl in *. apply orb_false_iff in Hs as [-> Hs]. by apply IH.
Qed.

Lemma expand_loop_scan (tokens : gmap ascii string) (n : nat) :
  ∀ s pre mid result,
    (String.length s ≤ n)%nat →
    expand_loop tokens (pre +:+ mid +:+ s)
      (percent_matches (String.length pre + String.length mid) s)
      (String.length pre) result
    = r ← expand_chars tokens s; Ok (PyStr.join "" result +:+ mid +:+ r).
Proof.
  induction n as [|n IH]; intros s pre mid result Hlen.
  - destruct s; [|simpl in Hlen; lia]. simpl.
    by rewrite join_empty_snoc, str_app_nil_r, str_drop_app.
  - destruct s as [|c s].
    { simpl. by rewrite join_empty_snoc, str_app_nil_r, str_drop_app. }
    simpl in Hlen. cbn [percent_matches expand_chars].
    destruct (Ascii.eqb c "%") eqn:Hc.
    + apply Ascii.eqb_eq in Hc as ->. cbn [expand_loop].
      replace (String.length pre + String.length mid <? String.length pre)%nat
        with false by (symmetry; apply Nat.ltb_ge; lia).
      replace (pre +:+ mid +:+ String "%" s)
        with ((pre +:+ mid) +:+ String "%" s) by apply str_app_assoc.
      replace (String.length pre + String.length mid + 1)
        with (String.length (pre +:+ mid) + 1) by (by rewrite str_length_app).
      rewrite (str_get_app_r (pre +:+ mid) (String "%" s) 1).
      destruct s as [|t s]; [reflexivity|]. cbn [PyStr.get].
      destruct (tokens !! t) as [sub|]; [|reflexivity].
      rewrite str_app_assoc.
      replace (PyStr.slice (String.length pre)
                 (String.length pre + String.length mid)
                 (pre +:+ mid +:+ String "%" (String t s)))
        with mid by (symmetry; apply str_slice_app).
      set (pre' := pre +:+ mid +:+ String "%" (String t "")).
      assert (Hv : pre +:+ mid +:+ String "%" (String t s) = pre' +:+ "" +:+ s).
      { unfold pre'. by rewrite !str_app_assoc, !str_app_cons, !str_app_nil_l. }
      assert (Hl : String.length pre' = String.length pre + String.length mid + 2).
      { unfold pre'. rewrite !str_length_app. simpl. lia. }
      assert (Hskip :
        expand_loop tokens (pre' +:+ "" +:+ s)
          (percent_matches (S (String.length pre + String.length mid)) (String t s))
          (String.length pre + String.length mid + 2)
          (result ++ [mid; sub])
        = expand_loop tokens (pre' +:+ "" +:+ s)
          (percent_matches (String.length pre' + String.length "") s)
          (String.length pre')
          (result ++ [mid; sub])).
      { cbn [percent_matches].
        replace (String.length pre' + String.length "")
          with (S (S (String.length pre + String.length mid)))
          by (rewrite Hl; simpl; lia).
        replace (String.length pre')
          with (S (S (String.length pre + String.length mid)))
          by (rewrite Hl; lia).
        replace (String.length pre + String.length mid + 2)
          with (S (S (String.length pre + String.length mid))) by lia.
        destruct (Ascii.eqb t "%"); [|reflexivity].
        cbn [expand_loop].
        replace (S (String.length pre + String.length mid)
                   <? S (S (String.length pre + String.length mid)))%nat
          with true by (symmetry; apply Nat.ltb_lt; lia).
        reflexivity. }
      simpl in Hlen. rewrite Hv, Hskip, IH by lia.
      destruct (expand_chars tokens s) as [r| |]; simpl; [|done..].
      replace (result ++ [mid; sub])%list with ((result ++ [mid]) ++ [sub])%list
        by (by rewrite <- List.app_assoc).
      by rewrite !join_empty_snoc, !str_app_nil_l, !str_app_assoc.
    + replace (pre +:+ mid +:+ String c s)
        with (pre +:+ (mid +:+ String c "") +:+ s)
        by (by rewrite !str_app_assoc, str_app_cons, str_app_nil_l).
      replace (S (String.length pre + String.length mid))
        with (String.length pre + String.length (mid +:+ String c ""))
        by (rewrite str_length_app; simpl; lia).
      rewrite IH by lia.
      destruct (expand_chars tokens s) as [r| |]; simpl; [|done..].
      by rewrite !str_app_assoc, str_app_cons, str_app_nil_l.
Qed.

(** The index loop of [_expand_val] is the left-to-right expansion. *)
Lemma expand_val_chars (tokens : gmap ascii string) (value : string) :
  expand_val tokens value = expand_chars tokens value.
Proof.
  unfold expand_val.
  pose proof (expand_loop_scan tokens (String.length value) value "" "" []) as H.
  simpl in H. rewrite !str_app_nil_l in H. rewrite H by lia.
  destruct (expand_chars tokens value); simpl; [|done..].
  by rewrite str_app_nil_l.
Qed.

Lemma expand_chars_app_bounded (tokens : gmap ascii string) (n : nat) :
  ∀ pre pre' s,
    String.length pre ≤ n →
    expand_chars tokens pre = Ok pre' →
    expand_chars tokens (pre +:+ s)
    = r ← expand_chars tokens s; Ok (pre' +:+ r).
Proof.
  induction n as [|n IH]; intros pre pre' s Hn Hpre.
  - destruct pre; [|simpl in Hn; lia]. simpl in Hpre. injection Hpre as <-.
    rewrite str_app_nil_l. by destruct (expand_chars tokens s).
  - destruct pre as [|c pre].
    { simpl in Hpre. injection Hpre as <-.
      rewrite str_app_nil_l. by destruct (expand_chars tokens s). }
    simpl in Hn. rewrite str_app_cons. cbn [expand_chars] in *.
    destruct (Ascii.eqb c "%").
    + destruct pre as [|t pre]; [done|]. rewrite str_app_cons.
      destruct (tokens !! t) as [sub|]; [|done].
      apply bind_Ok in Hpre as (r' & Hr' & Hpre). injection Hpre as <-.
      simpl in Hn. rewrite (IH pre r' s) by (done || lia).
      destruct (expand_chars tokens s); simpl; [|done..].
      by rewrite str_app_assoc.
    + apply bind_Ok in Hpre as (r' & Hr' & Hpre). injection Hpre as <-.
      rewrite (IH pre r' s) by (done || lia).
      by destruct (expand_chars tokens s).
Qed.

(** A text that expands without error can be followed by any text. *)
Lemma expand_val_app (tokens : gmap ascii string) (pre pre' s : string) :
  expand_val tokens pre = Ok pre' →
  expand_val tokens (pre +:+ s) = r ← expand_val tokens s; Ok (pre' +:+ r).
Proof.
  rewrite !expand_val_chars. intros H.
  rewrite (expand_chars_app_bounded tokens (String.length pre) pre pre' s) by done.
  destruct (expand_chars tokens s) eqn:Hs; simpl; auto.
Qed.

(** A defined token is replaced by its value. *)
Lemma expand_val_token (tokens : gmap ascii string) (pre pre' post sub : string)
    (c : ascii) :
  expand_val tokens pre = Ok pre' →
  tokens !! c = Some sub →
  expand_val tokens (pre +:+ String "%" (String c post))
  = r ← expand_val tokens post; Ok (pre' +:+ sub +:+ r).
Proof.
  intros Hpre Hc. rewrite (expand_val_app _ _ _ _ Hpre).
  rewrite !expand_val_chars. cbn [expand_chars]. simpl. rewrite Hc.
  destruct (expand_chars tokens post); simpl; auto.
Qed.

(** A token that is not defined raises. *)
Lemma expand_val_missing (tokens : gmap ascii string) (pre pre' post : string)
    (c : ascii) :
  expand_val tokens pre = Ok pre' →
  tokens !! c = None →
  expand_val tokens (pre +:+ String "%" (String c post)) = Raise (missing_token c).
Proof.
  intros Hpre Hc. rewrite (expand_val_app _ _ _ _ Hpre).
  rewrite !expand_val_chars. cbn [expand_chars]. simpl. by rewrite Hc.
Qed.

(** A percent sign at the end raises. *)
Lemma expand_val_trailing (tokens : gmap ascii string) (pre pre' : string) :
  expand_val tokens pre = Ok pre' →
  expand_val tokens (pre +:+ "%")
  = Raise (ConfigParseError "Invalid token substitution").
Proof.
  intros Hpre. rewrite (expand_val_app _ _ _ _ Hpre).
  by rewrite !expand_val_chars.
Qed.

Lemma missing_token_is_parse_error (c : ascii) :
  ∃ msg, missing_token c = ConfigParseError msg.
Proof. unfold missing_token. repeat case_match; eauto. Qed.

Lemma expand_val_plain (tokens : gmap ascii string) (s : string) :
  percent_free s → expand_val tokens s = Ok s.
Proof.
  rewrite expand_val_chars. unfold percent_free.
  induction s as [|c s IH]; [done|]. simpl.
  intros [-> Hs]%orb_false_iff. by rewrite IH.
Qed.

Lemma map_outcome_plain (tokens : gmap ascii string) (l : list string) :
  Forall percent_free l → map_outcome (expand_val tokens) l = Ok l.
Proof.
  induction 1 as [|s l Hs Hl IH]; [done|]. simpl.
  by rewrite expand_val_plain, IH.
Qed.

Lemma map_outcome_length {A B : Type} (f : A → outcome B) (l : list A)
    (l' : list B) :
  map_outcome f l = Ok l' → length l' = length l.
Proof.
  revert l'. induction l as [|x l IH]; intros l' H; simpl in H.
  - by simplify_eq.
  - apply bind_Ok in H as (y & _ & H). apply bind_Ok in H as (ys & Hys & H).
    simplify_eq/=. f_equal. by apply IH.
Qed.

(** ** The handlers, one at a time *)

Lemma store_if_unset_set (option : string) (v : value) (self : SSHConfig) :
  is_Some (_options self !! option) → store_if_unset option v self = self.
Proof. intros [x Hx]. unfold store_if_unset. by rewrite Hx. Qed.

Lemma store_if_unset_unset (option : string) (v : value) (self : SSHConfig) :
  _options self !! option = None →
  store_if_unset option v self = store option v self.
Proof. intros Hx. unfold store_if_unset. by rewrite Hx. Qed.

Lemma store_if_unset_other (option k : string) (v : value) (self : SSHConfig) :
  k ≠ option →
  _options (store_if_unset option v self) !! k = _options self !! k.
Proof.
  intros Hk. unfold store_if_unset. destruct (_options self !! option); [done|].
  simpl. by rewrite lookup_insert_ne.
Qed.

Lemma set_options_same (self : SSHConfig) : set_options (_options self) self = self.
Proof. by destruct self. Qed.

Section Handlers.

Context (w : World) (cls : config_class).

Context (rec : string → SSHConfig → outcome SSHConfig).

(** A scalar setter stores the value of its directive unless the option
    has one. *)
Lemma scalar_setter_runs (h : handler) (option : string) (args rest : list string)
    (self self' : SSHConfig) :
  scalar_setter h = true →
  call_handler w cls rec h option args self = Ok (self', rest) →
  ∃ v, directive_value h args = Some v ∧ self' = store_if_unset option v self.
Proof.
  intros Hh Hrun. destruct h; try discriminate Hh; simpl in Hrun;
    [unfold _set_bool in Hrun | unfold _set_int in Hrun
    | unfold _set_string in Hrun | unfold _set_string_list in Hrun
    | unfold _set_address_family in Hrun | unfold _set_rekey_limits in Hrun];
    destruct args as [|a args]; simpl in Hrun; try discriminate Hrun;
    repeat case_match; simplify_eq/=;
    (eexists; split; [|reflexivity]);
    repeat match goal with H : _ = _ |- _ => rewrite H end; reflexivity.
Qed.

(** What the scalar setters raise does not depend on the options. *)
Lemma scalar_setter_raises (h : handler) (option : string) (args : list string)
    (self : SSHConfig) :
  scalar_setter h = true → args ≠ [] → directive_value h args = None →
  ∃ msg, call_handler w cls rec h option args self = Raise (ConfigParseError msg).
Proof.
  intros Hh Hargs Hv. destruct args as [|a args]; [done|].
  destruct h; try discriminate Hh; simpl in Hv; try discriminate Hv;
    simpl; unfold _set_bool, _set_int, _set_address_family, _error; simpl;
    repeat case_match; simplify_eq/=; eauto.
Qed.

(** A handler that obeys first-wins leaves the whole object as it is when
    the option has a value. *)
Lemma first_wins_discards (h : handler) (option : string) (args rest : list string)
    (self self' : SSHConfig) :
  first_wins h = true →
  is_Some (_options self !! option) →
  call_handler w cls rec h option args self = Ok (self', rest) →
  self' = self.
Proof.
  intros Hh Hset Hrun. destruct (scalar_setter h) eqn:Hs.
  - destruct (scalar_setter_runs _ _ _ _ _ _ Hs Hrun) as (v & _ & ->).
    by apply store_if_unset_set.
  - destruct Hset as [x Hx].
    destruct h; try discriminate; simpl in Hrun.
    + unfold _set_hostname in Hrun. destruct cls; [|done].
      destruct args; simpl in Hrun; [done|]. rewrite Hx in Hrun. by simplify_eq.
    + unfold _set_request_tty in Hrun. destruct args; simpl in Hrun; [done|].
      apply bind_Ok in Hrun as (v & _ & Hrun). simplify_eq/=.
      apply store_if_unset_set. by rewrite Hx.
Qed.

Lemma _match_frame_bounded (option : string) (n : nat) :
  ∀ (args rest : list string) (self self' : SSHConfig),
    length args ≤ n →
    _match w cls option args self = Ok (self', rest) →
    rest = [] ∧ ∃ b, self' = set_matching b self.
Proof.
  induction n as [|n IH]; intros args rest self self' Hn Hrun.
  - destruct args; [|simpl in Hn; lia]. simpl in Hrun.
    injection Hrun as <- <-.
    split; [done|]. exists (_matching self). by destruct self.
  - destruct args as [|m args1].
    { simpl in Hrun. injection Hrun as <- <-. split; [done|].
      exists (_matching self). by destruct self. }
    simpl in Hn. cbn [_match] in Hrun.
    destruct (String.eqb (PyStr.lower m) "all").
    { apply IH in Hrun as [-> [b ->]]; [|lia]. split; [done|]. by exists b. }
    destruct (negb _ && _); [done|].
    destruct args1 as [|pattern args2]; [done|].
    apply bind_Ok in Hrun as (matching & _ & Hrun).
    destruct matching.
    + simpl in Hn. apply IH in Hrun as [-> [b ->]]; [|lia].
      split; [done|]. by exists b.
    + simplify_eq. split; [done|]. by exists false.
Qed.

(** [_match] touches the matching flag only. *)
Lemma _match_frame (option : string) (args rest : list string)
    (self self' : SSHConfig) :
  _match w cls option args self = Ok (self', rest) →
  rest = [] ∧ ∃ b, self' = set_matching b self.
Proof. by apply (_match_frame_bounded option (length args)). Qed.

(** A handler other than [_include] changes no option but its own, and
    keeps the path and the line counter. *)
Lemma handler_frame (h : handler) (option : string) (args rest : list string)
    (self self' : SSHConfig) :
  h ≠ H_include →
  call_handler w cls rec h option args self = Ok (self', rest) →
  _path self' = _path self ∧ _line_no self' = _line_no self ∧
  (∀ k, k ≠ option → _options self' !! k = _options self !! k) ∧
  (∀ k, is_Some (_options self !! k) → is_Some (_options self' !! k)).
Proof.
  intros Hh Hrun.
  assert (Hstore : ∀ v,
    _path (store_if_unset option v self) = _path self ∧
    _line_no (store_if_unset option v self) = _line_no self ∧
    (∀ k, k ≠ option →
       _options (store_if_unset option v self) !! k = _options self !! k) ∧
    (∀ k, is_Some (_options self !! k) →
       is_Some (_options (store_if_unset option v self) !! k))).
  { intros v. unfold store_if_unset.
    destruct (_options self !! option) eqn:Ho; [done|]. simpl.
    split_and!; [done|done| |].
    - intros k Hk. by rewrite lookup_insert_ne.
    - intros k Hk. destruct (decide (option = k)) as [->|Hne].
      + rewrite lookup_insert_eq. eauto.
      + by rewrite lookup_insert_ne. }
  assert (Hput : ∀ v,
    _path (store option v self) = _path self ∧
    _line_no (store option v self) = _line_no self ∧
    (∀ k, k ≠ option → _options (store option v self) !! k = _options self !! k) ∧
    (∀ k, is_Some (_options self !! k) →
       is_Some (_options (store option v self) !! k))).
  { intros v. simpl. split_and!; [done|done| |].
    - intros k Hk. by rewrite lookup_insert_ne.
    - intros k Hk. destruct (decide (option = k)) as [->|Hne].
      + rewrite lookup_insert_eq. eauto.
      + by rewrite lookup_insert_ne. }
  destruct (scalar_setter h) eqn:Hs.
  { destruct (scalar_setter_runs _ _ _ _ _ _ Hs Hrun) as (v & _ & ->). apply Hstore. }
  destruct h; try discriminate Hs; try done; simpl in Hrun.
  - unfold _match_host in Hrun. destruct cls; [|done]. by simplify_eq/=.
  - apply _match_frame in Hrun as [_ [b ->]]. done.
  - unfold _append_string in Hrun. destruct args; simpl in Hrun; [done|].
    repeat case_match; simplify_eq/=; first [apply Hput | apply Hstore].
  - unfold _append_string_list in Hrun.
    repeat case_match; simplify_eq/=; apply Hput.
  - unfold _set_hostname in Hrun. destruct cls; [|done].
    destruct args; simpl in Hrun; [done|].
    destruct (_options self !! option) eqn:Ho; [by simplify_eq|].
    apply bind_Ok in Hrun as (hs & _ & Hrun).
    apply bind_Ok in Hrun as (e & _ & Hrun). simplify_eq/=.
    split_and!; [done|done| |].
    + intros k Hk. by rewrite lookup_insert_ne.
    + intros k Hk. destruct (decide (option = k)) as [->|Hne].
      * rewrite lookup_insert_eq. eauto.
      * by rewrite lookup_insert_ne.
  - unfold _set_request_tty in Hrun. destruct args; simpl in Hrun; [done|].
    apply bind_Ok in Hrun as (v & _ & Hrun). simplify_eq/=. apply Hstore.
Qed.

End Handlers.

(** ** The handler tables *)

Lemma handlers_dict_lookup (table : list (string * handler)) (loption : string)
    (entry : string * handler) :
  handlers_dict table !! loption = Some entry →
  entry ∈ table ∧ loption = PyStr.lower entry.1.
Proof.
  unfold handlers_dict.
  assert (Hgen : ∀ d : gmap string (string * handler),
    foldl (λ d e, <[PyStr.lower e.1 := e]> d) d table !! loption = Some entry →
    (entry ∈ table ∧ loption = PyStr.lower entry.1) ∨ d !! loption = Some entry).
  { induction table as [|e table IH]; intros d Hd; [by right|].
    simpl in Hd. apply IH in Hd as [[Hin Hlo]|Hd].
    - left. split; [by right|done].
    - destruct (decide (PyStr.lower e.1 = loption)) as [Heq|Hne].
      + rewrite Heq, lookup_insert_eq in Hd. simplify_eq. left. split; [by left|done].
      + rewrite lookup_insert_ne in Hd by done. by right. }
  intros H. apply Hgen in H as [H|H]; [done|]. by rewrite lookup_empty in H.
Qed.

Lemma handlers_in_table (cls : config_class) (loption option : string) (h : handler) :
  _handlers cls !! loption = Some (option, h) →
  (option, h) ∈ client_handler_table ++ server_handler_table ∧
  loption = PyStr.lower option.
Proof.
  unfold _handlers. intros H.
  destruct cls; apply handlers_dict_lookup in H as [Hin ->]; split; try done;
    apply elem_of_app; auto.
Qed.

(** An option name is bound to one handler, the same in both tables. *)
Lemma handler_of_option (cls1 cls2 : config_class) (lo1 lo2 option : string)
    (h1 h2 : handler) :
  _handlers cls1 !! lo1 = Some (option, h1) →
  _handlers cls2 !! lo2 = Some (option, h2) →
  h1 = h2.
Proof.
  intros [H1 _]%handlers_in_table [H2 _]%handlers_in_table.
  assert (Hfun : Forall (λ e1, Forall (λ e2, e1.1 = e2.1 → e1.2 = e2.2)
                                 (client_handler_table ++ server_handler_table))
                   (client_handler_table ++ server_handler_table)).
  { apply (bool_decide_unpack _). by vm_compute. }
  rewrite Forall_forall in Hfun. specialize (Hfun _ H1).
  rewrite Forall_forall in Hfun. by apply (Hfun _ H2).
Qed.

(** [Include] is the only name bound to [_include]. *)
Lemma include_handler_name (cls : config_class) (loption option : string) :
  _handlers cls !! loption = Some (option, H_include) → loption = "include".
Proof.
  intros [Hin ->]%handlers_in_table.
  assert (Hall : Forall (λ e, e.2 = H_include → PyStr.lower e.1 = "include")
                   (client_handler_table ++ server_handler_table)).
  { apply (bool_decide_unpack _). by vm_compute. }
  rewrite Forall_forall in Hall. by apply (Hall _ Hin).
Qed.

(** Neither [Hostname] nor [User] is bound to an appending handler. *)
Lemma appender_option_name (cls : config_class) (loption option : string)
    (h : handler) :
  appender h = true → _handlers cls !! loption = Some (option, h) →
  option ≠ "Hostname" ∧ option ≠ "User" ∧ loption ≠ "include".
Proof.
  intros Hh [Hin ->]%handlers_in_table.
  assert (Hall : Forall (λ e, appender e.2 = true →
                   e.1 ≠ "Hostname" ∧ e.1 ≠ "User" ∧ PyStr.lower e.1 ≠ "include")
                   (client_handler_table ++ server_handler_table)).
  { apply (bool_decide_unpack _). by vm_compute. }
  rewrite Forall_forall in Hall. by apply (Hall _ Hin).
Qed.

Lemma include_is_bound (cls : config_class) :
  _handlers cls !! "include" = Some ("Include", H_include).
Proof. destruct cls; by vm_compute. Qed.

(** ** One line of a file *)

Lemma read_directive_any_state (w : World) (cls : config_class)
    (s s' : SSHConfig) (line : string) (x : string * list string) :
  read_directive w cls s line = Ok x → read_directive w cls s' line = Ok x.
Proof.
  unfold read_directive.
  by destruct (shlex_split w line) as [exc|words].
Qed.

Section Lines.

Context (w : World) (cls : config_class).

Context (rec : string → SSHConfig → outcome SSHConfig).

Lemma parse_line_blank (self : SSHConfig) (line : string) :
  is_blank line = true → parse_line w cls rec self line = Ok (next_line self).
Proof. unfold is_blank, parse_line. by intros ->. Qed.

(** A directive that is passed over: the block does not match and the
    directive is not a conditional one. *)
Lemma parse_line_skip (self : SSHConfig) (line loption : string)
    (args : list string) :
  directive w cls self line loption args →
  _matching self = false →
  str_in loption (_conditionals cls) = false →
  parse_line w cls rec self line = Ok (next_line self).
Proof.
  unfold directive, is_blank, parse_line, next_line. intros [-> ->] Hm Hc.
  simpl. by rewrite Hm, Hc.
Qed.

Lemma parse_line_unknown (self : SSHConfig) (line loption : string)
    (args : list string) :
  directive w cls self line loption args →
  _handlers cls !! loption = None →
  parse_line w cls rec self line = Ok (next_line self).
Proof.
  unfold directive, is_blank, parse_line, next_line. intros [-> ->] Hh.
  simpl. rewrite Hh. by destruct (negb _ && _).
Qed.

(** A directive that reaches its handler. *)
Lemma parse_line_dispatch (self : SSHConfig) (line loption option : string)
    (h : handler) (args : list string) :
  directive w cls self line loption args →
  _matching self = true ∨ str_in loption (_conditionals cls) = true →
  _handlers cls !! loption = Some (option, h) →
  parse_line w cls rec self line =
    match args with
    | [] => _error (next_line self) ("Missing " +:+ option +:+ " value")
    | _ :: _ =>
        '(self', rest) ← call_handler w cls rec h option args (next_line self);
        match rest with
        | [] => Ok self'
        | _ :: _ => _error self' ("Extra data at end: " +:+ PyStr.join " " rest)
        end
    end.
Proof.
  unfold directive, is_blank, parse_line, next_line. intros [-> ->] Hm Hh.
  simpl. rewrite Hh.
  replace (negb (_matching self) && negb (str_in loption (_conditionals cls)))
    with false; [done|].
  destruct Hm as [-> | ->]; [done|]. by rewrite andb_false_r.
Qed.

(** Whatever the line, [parse_line] leaves the path as it was: [_include]
    puts the path back. *)
Lemma parse_line_path (self self' : SSHConfig) (line : string) :
  parse_line w cls rec self line = Ok self' → _path self' = _path self.
Proof.
  unfold parse_line. intros Hrun.
  destruct (_ || _); [by simplify_eq/=|].
  apply bind_Ok in Hrun as ([loption args] & _ & Hrun).
  destruct (negb _ && _); [by simplify_eq/=|].
  destruct (_handlers cls !! loption) as [[option h]|] eqn:Hh; [|by simplify_eq/=].
  destruct args as [|a args]; [done|].
  apply bind_Ok in Hrun as ([s1 rest] & Hcall & Hrun).
  destruct rest; [|done]. simplify_eq/=.
  destruct (decide (h = H_include)) as [->|Hne].
  - simpl in Hcall. unfold _include in Hcall.
    apply bind_Ok in Hcall as (s & _ & Hs). by simplify_eq/=.
  - by apply handler_frame in Hcall as (-> & _).
Qed.

(** A line that does not reach [_include] advances the line counter by
    one. *)
Lemma parse_line_counter (self self' : SSHConfig) (line : string) :
  (∀ args, ¬ directive w cls self line "include" args) →
  parse_line w cls rec self line = Ok self' →
  _line_no self' = S (_line_no self).
Proof.
  intros Hinc Hrun. destruct (is_blank line) eqn:Hb.
  { rewrite parse_line_blank in Hrun by done. by simplify_eq/=. }
  pose proof Hrun as Hrun'. unfold parse_line in Hrun.
  unfold is_blank in Hb. rewrite Hb in Hrun.
  apply bind_Ok in Hrun as ([loption args] & Hread & Hrun).
  assert (Hd : directive w cls self line loption args) by done.
  destruct (negb _ && _); [by simplify_eq/=|].
  destruct (_handlers cls !! loption) as [[option h]|] eqn:Hh; [|by simplify_eq/=].
  destruct args as [|a args]; [done|].
  apply bind_Ok in Hrun as ([s1 rest] & Hcall & Hrun).
  destruct rest; [|done]. simplify_eq/=.
  destruct (decide (h = H_include)) as [->|Hne].
  - apply include_handler_name in Hh as ->. by destruct (Hinc (a :: args)).
  - by apply handler_frame in Hcall as (_ & -> & _).
Qed.

End Lines.

(** ** The end of a file *)

Lemma _set_tokens_options (w : World) (cls : config_class)
    (self self' : SSHConfig) :
  _set_tokens w cls self = Ok self' → _options self' = _options self.
Proof.
  unfold _set_tokens. intros H. destruct cls.
  - apply bind_Ok in H as (host & _ & H). apply bind_Ok in H as (user & _ & H).
    by simplify_eq/=.
  - by simplify_eq/=.
Qed.

Lemma set_tokens_buildable (w : World) (cls : config_class) (self : SSHConfig) :
  tokens_buildable cls self →
  ∃ tok, _set_tokens w cls self = Ok tok ∧
         _options tok = _options self ∧ _matching tok = _matching self.
Proof.
  unfold tokens_buildable, _set_tokens. destruct cls.
  - intros [[host ->] [user ->]]. simpl. eauto.
  - intros _. eauto.
Qed.

Lemma expand_option_frame (self self' : SSHConfig) (option : string) :
  expand_option self option = Ok self' →
  (∀ k, k ≠ option → _options self' !! k = _options self !! k) ∧
  (∀ k, is_Some (_options self !! k) → is_Some (_options self' !! k)) ∧
  (∀ l, _options self !! option = Some (VList l) →
        ∃ l', _options self' !! option = Some (VList l') ∧ length l' = length l).
Proof.
  unfold expand_option. intros H.
  destruct (_options self !! option) as [v|] eqn:Hv.
  - apply bind_Ok in H as (v' & Hv' & H). simplify_eq/=. split_and!.
    + intros k Hk. by rewrite lookup_insert_ne.
    + intros k Hk. destruct (decide (option = k)) as [->|Hne].
      * rewrite lookup_insert_eq. eauto.
      * by rewrite lookup_insert_ne.
    + intros l [= ->]. apply bind_Ok in Hv' as (l' & Hl' & ?). simplify_eq.
      exists l'. rewrite lookup_insert_eq. split; [done|].
      by eapply map_outcome_length.
  - injection H as <-. split_and!; [done|done|]. intros l Hl. congruence.
Qed.

Lemma expand_option_tokens (self self' : SSHConfig) (option : string) :
  expand_option self option = Ok self' → _tokens self' = _tokens self.
Proof.
  unfold expand_option. intros H. destruct (_options self !! option); [|by simplify_eq].
  apply bind_Ok in H as (v' & _ & H). by simplify_eq/=.
Qed.

Lemma expand_option_once (self self' : SSHConfig) (option : string) :
  expand_option self option = Ok self' →
  expanded_once (_tokens self) (_options self !! option) (_options self' !! option).
Proof.
  unfold expand_option, expanded_once, _expand_val. intros H.
  destruct (_options self !! option) as [v|] eqn:Hv.
  - apply bind_Ok in H as (v' & Hv' & H). injection H as <-. simpl.
    rewrite lookup_insert_eq.
    destruct v; simplify_eq/=; try done.
    + apply bind_Ok in Hv' as (s' & Hs' & ?). simplify_eq. eauto.
    + apply bind_Ok in Hv' as (l' & Hl' & ?). simplify_eq. eauto.
  - injection H as <-. done.
Qed.

(** The loop over the listed options expands each of them once and leaves
    the other options alone. *)
Lemma expand_options_once (l : list string) (self self' : SSHConfig) :
  NoDup l →
  for_each expand_option l self = Ok self' →
  _tokens self' = _tokens self ∧
  ∀ option,
    (option ∈ l →
     expanded_once (_tokens self) (_options self !! option)
       (_options self' !! option)) ∧
    (option ∉ l → _options self' !! option = _options self !! option).
Proof.
  revert self. induction l as [|o l IH]; intros self Hnd Hrun.
  - injection Hrun as <-. split; [done|]. intros option. split; [|done].
    by intros ?%elem_of_nil.
  - apply NoDup_cons in Hnd as [Ho Hnd]. simpl in Hrun.
    apply bind_Ok in Hrun as (s1 & H1 & Hrun).
    destruct (IH s1 Hnd Hrun) as (Htok & Hopts).
    pose proof (expand_option_tokens _ _ _ H1) as Htok1.
    pose proof (expand_option_once _ _ _ H1) as Honce.
    apply expand_option_frame in H1 as (Hother & _).
    split; [congruence|]. intros option. split.
    + intros [->|Hin]%elem_of_cons.
      * destruct (Hopts o) as [_ Hsame]. by rewrite Hsame.
      * destruct (Hopts option) as [Hexp _]. rewrite Htok1 in Hexp.
        rewrite <- (Hother option) by (by intros ->). by apply Hexp.
    + intros Hnot. apply not_elem_of_cons in Hnot as [Hne Hnot].
      destruct (Hopts option) as [_ Hsame]. rewrite Hsame by done. by apply Hother.
Qed.

Lemma expand_option_plain (self : SSHConfig) (option : string) :
  (∀ v, _options self !! option = Some v → plain_value v) →
  expand_option self option = Ok self.
Proof.
  unfold expand_option, _expand_val. intros Hplain.
  destruct (_options self !! option) as [v|] eqn:Hv; [|done].
  specialize (Hplain v eq_refl).
  assert (Hsame : store option v self = self).
  { unfold store. by rewrite insert_id, set_options_same. }
  destruct v; simpl in *; rewrite ?expand_val_plain, ?map_outcome_plain by done;
    simpl; by rewrite Hsame.
Qed.

Lemma expand_options_plain (l : list string) (self : SSHConfig) :
  (∀ o v, o ∈ l → _options self !! o = Some v → plain_value v) →
  for_each expand_option l self = Ok self.
Proof.
  induction l as [|o l IH]; intros Hplain; [done|]. simpl.
  rewrite expand_option_plain.
  - simpl. apply IH. intros o' v Ho'. apply Hplain. by right.
  - intros v. apply Hplain. by left.
Qed.

(** ** A proof principle for the whole pass

    A preorder on options dictionaries that every handler call and every
    expansion of the final loop respects is respected by [parse], through
    any nesting of [Include]. *)

Section PassInvariant.

Context (w : World) (cls : config_class).

Context (R : gmap string value → gmap string value → Prop).

Hypothesis R_refl : ∀ o, R o o.

Hypothesis R_trans : ∀ o1 o2 o3, R o1 o2 → R o2 o3 → R o1 o3.

Hypothesis R_handler :
  ∀ rec loption option h args rest self self',
    _handlers cls !! loption = Some (option, h) →
    h ≠ H_include →
    call_handler w cls rec h option args self = Ok (self', rest) →
    R (_options self) (_options self').

Hypothesis R_expand :
  ∀ option self self',
    option ∈ _percent_expand cls →
    expand_option self option = Ok self' →
    R (_options self) (_options self').

Lemma _include_related (rec : string → SSHConfig → outcome SSHConfig)
    (option : string) (args rest : list string) (self self' : SSHConfig) :
  (∀ p s s', rec p s = Ok s' → R (_options s) (_options s')) →
  _include w rec option args self = Ok (self', rest) →
  R (_options self) (_options self').
Proof.
  intros Hrec Hrun. unfold _include in Hrun.
  apply bind_Ok in Hrun as (s1 & Hrun & Hret). simplify_eq/=.
  revert Hrun. apply (for_each_invariant (λ s, R (_options self) (_options s)));
    [|apply R_refl].
  intros s pattern s' Hs.
  apply (for_each_invariant (λ s, R (_options self) (_options s))); [|done].
  intros s2 path s2' Hs2 Hp. eapply R_trans; eauto.
Qed.

Lemma parse_line_related (rec : string → SSHConfig → outcome SSHConfig)
    (line : string) (self self' : SSHConfig) :
  (∀ p s s', rec p s = Ok s' → R (_options s) (_options s')) →
  parse_line w cls rec self line = Ok self' →
  R (_options self) (_options self').
Proof.
  intros Hrec Hrun. unfold parse_line in Hrun.
  destruct (_ || _); [by simplify_eq/=|].
  apply bind_Ok in Hrun as ([loption args] & _ & Hrun).
  destruct (negb _ && _); [by simplify_eq/=|].
  destruct (_handlers cls !! loption) as [[option h]|] eqn:Hh; [|by simplify_eq/=].
  destruct args as [|a args]; [done|].
  apply bind_Ok in Hrun as ([s1 rest] & Hcall & Hrun).
  destruct rest; [|done]. simplify_eq/=.
  destruct (decide (h = H_include)) as [->|Hne].
  - simpl in Hcall. by apply _include_related in Hcall.
  - exact (R_handler _ _ _ _ _ _ _ _ Hh Hne Hcall).
Qed.

Lemma expand_options_related (l : list string) (self self' : SSHConfig) :
  l ⊆ _percent_expand cls →
  for_each expand_option l self = Ok self' →
  R (_options self) (_options self').
Proof.
  revert self. induction l as [|o l IH]; intros self Hl Hrun.
  - simplify_eq/=. apply R_refl.
  - simpl in Hrun. apply bind_Ok in Hrun as (s1 & H1 & H2).
    eapply R_trans.
    + eapply R_expand; [|done]. apply Hl. by left.
    + apply IH; [|done]. intros x Hx. apply Hl. by right.
Qed.

Lemma parse_related (fuel : nat) :
  ∀ path self self',
    parse w cls fuel path self = Ok self' → R (_options self) (_options self').
Proof.
  induction fuel as [|fuel IH]; intros path self self' Hrun; [done|].
  simpl in Hrun. destruct (read_lines w path) as [file|]; [|done].
  apply bind_Ok in Hrun as (s1 & Hlines & Hrun).
  apply bind_Ok in Hrun as (s2 & Htok & Hexp).
  apply _set_tokens_options in Htok.
  apply expand_options_related in Hexp; [|done]. rewrite Htok in Hexp.
  eapply R_trans; [|done].
  revert Hlines.
  apply (for_each_invariant (λ s, R (_options self) (_options s))).
  - intros s line s' Hs Hline. eapply R_trans; [done|].
    by eapply parse_line_related.
  - apply R_refl.
Qed.

Lemma lines_related (fuel : nat) (lines : list string) (self self' : SSHConfig) :
  for_each (parse_line w cls (parse w cls fuel)) lines self = Ok self' →
  R (_options self) (_options self').
Proof.
  apply (for_each_invariant (λ s, R (_options self) (_options s))).
  - intros s line s' Hs Hline. eapply R_trans; [done|].
    eapply parse_line_related; [|done]. apply parse_related.
  - apply R_refl.
Qed.

End PassInvariant.

(** ** What a whole pass keeps *)

Section Pass.

Context (w : World) (cls : config_class).

(** Nothing removes an option from the dictionary. *)
Lemma option_stays_set (k : string) (fuel : nat) (lines : list string)
    (self self' : SSHConfig) :
  for_each (parse_line w cls (parse w cls fuel)) lines self = Ok self' →
  is_Some (_options self !! k) → is_Some (_options self' !! k).
Proof.
  apply (lines_related w cls (λ o o', is_Some (o !! k) → is_Some (o' !! k))).
  - auto.
  - auto.
  - intros rec lo option h args rest s s' _ Hne Hcall.
    apply handler_frame in Hcall as (_ & _ & _ & Hcall); [|done]. apply Hcall.
  - intros option s s' _ Hexp.
    apply expand_option_frame in Hexp as (_ & Hexp & _). apply Hexp.
Qed.

(** An option outside the expansion list whose handler obeys first-wins
    keeps the value it has, whatever the pass goes through. *)
Lemma first_value_kept (k : string) (fuel : nat) (lines : list string)
    (self self' : SSHConfig) (v : value) :
  k ∉ _percent_expand cls →
  (∀ lo h, _handlers cls !! lo = Some (k, h) → first_wins h = true) →
  for_each (parse_line w cls (parse w cls fuel)) lines self = Ok self' →
  _options self !! k = Some v → _options self' !! k = Some v.
Proof.
  intros Hpe Hfw Hrun.
  revert v. revert Hrun.
  apply (lines_related w cls (λ o o', ∀ v, o !! k = Some v → o' !! k = Some v)).
  - auto.
  - auto.
  - intros rec lo option h args rest s s' Hh Hne Hcall v Hv.
    destruct (decide (option = k)) as [->|Hk].
    + apply first_wins_discards in Hcall as ->; eauto.
    + apply handler_frame in Hcall as (_ & _ & Hcall & _); [|done].
      by rewrite Hcall.
  - intros option s s' Hin Hexp v Hv.
    apply expand_option_frame in Hexp as (Hexp & _).
    rewrite Hexp; [done|]. by intros ->.
Qed.

(** The values of a list stay where they are: a pass makes the list longer
    at its end; for an option outside the expansion list the old list is
    a prefix of the new one. *)
Lemma appended_values_stay (k : string) (fuel : nat) (lines : list string)
    (self self' : SSHConfig) (l : list string) :
  for_each (parse_line w cls (parse w cls fuel)) lines self = Ok self' →
  _options self !! k = Some (VList l) →
  ∃ l', _options self' !! k = Some (VList l') ∧ length l ≤ length l' ∧
        (k ∉ _percent_expand cls → l `prefix_of` l').
Proof.
  intros Hrun. revert l. revert Hrun.
  apply (lines_related w cls (λ o o', ∀ l, o !! k = Some (VList l) →
    ∃ l', o' !! k = Some (VList l') ∧ length l ≤ length l' ∧
          (k ∉ _percent_expand cls → l `prefix_of` l'))).
  - intros o l Hl. exists l. by split_and!.
  - intros o1 o2 o3 H12 H23 l Hl.
    destruct (H12 l Hl) as (l2 & Hl2 & Hlen2 & Hpre2).
    destruct (H23 l2 Hl2) as (l3 & Hl3 & Hlen3 & Hpre3).
    exists l3. split_and!; [done|lia|]. intros Hk.
    by trans l2; [apply Hpre2|apply Hpre3].
  - intros rec lo option h args rest s s' Hh Hne Hcall l Hl.
    destruct (decide (option = k)) as [->|Hk].
    + destruct (first_wins h) eqn:Hfw.
      { assert (s' = s) as -> by (eapply first_wins_discards; eauto).
        exists l. by split_and!. }
      destruct h; try discriminate Hfw; try done; simpl in Hcall.
      * unfold _match_host in Hcall. destruct cls; [|done].
        injection Hcall as <- <-. exists l. by split_and!.
      * apply _match_frame in Hcall as [_ [b ->]]. exists l. by split_and!.
      * unfold _append_string in Hcall. destruct args; simpl in Hcall; [done|].
        rewrite Hl in Hcall. destruct (negb _); simplify_eq/=.
        -- eexists. rewrite lookup_insert_eq. split_and!; [done| |].
           ++ rewrite length_app. lia.
           ++ intros _. by apply prefix_app_r.
        -- unfold store_if_unset. rewrite Hl. exists l. by split_and!.
      * unfold _append_string_list in Hcall. rewrite Hl in Hcall. simplify_eq/=.
        eexists. rewrite lookup_insert_eq. split_and!; [done| |].
        -- rewrite length_app. lia.
        -- intros _. by apply prefix_app_r.
    + apply handler_frame in Hcall as (_ & _ & Hcall & _); [|done].
      exists l. rewrite Hcall by done. by split_and!.
  - intros option s s' Hin Hexp l Hl.
    apply expand_option_frame in Hexp as (Hother & _ & Hlist).
    destruct (decide (option = k)) as [->|Hk].
    + destruct (Hlist l Hl) as (l' & Hl' & Hlen). exists l'.
      split_and!; [done|lia|]. by intros [].
    + exists l. rewrite Hother by done. by split_and!.
Qed.

End Pass.

(** ** The tokens during a pass *)

Lemma tokens_known_insert (tokens : gmap ascii string) (c : ascii) (v : string) :
  c ∈ client_token_names → c ≠ "%"%char →
  tokens_known tokens → tokens_known (<[c := v]> tokens).
Proof.
  intros Hc Hne [Hp Hnames]. split.
  - by rewrite lookup_insert_ne.
  - intros c' Hc'. destruct (decide (c = c')) as [<-|Hne']; [done|].
    rewrite lookup_insert_ne in Hc' by done. by apply Hnames.
Qed.

Lemma tokens_known_start : tokens_known {["%"%char := "%"]}.
Proof.
  split; [done|]. intros c [x Hx]. apply lookup_singleton_Some in Hx as [<- _].
  unfold client_token_names. by left.
Qed.

Section Tokens.

Context (w : World) (cls : config_class).

(** A handler other than [_include] leaves the tokens alone or binds [h]. *)
Lemma handler_tokens (rec : string → SSHConfig → outcome SSHConfig)
    (h : handler) (option : string) (args rest : list string)
    (self self' : SSHConfig) :
  h ≠ H_include →
  call_handler w cls rec h option args self = Ok (self', rest) →
  _tokens self' = _tokens self ∨
  ∃ host, _tokens self' = <["h"%char := host]> (_tokens self).
Proof.
  intros Hh Hrun. destruct (scalar_setter h) eqn:Hs.
  { destruct (scalar_setter_runs _ _ _ _ _ _ _ _ _ Hs Hrun) as (v & _ & ->).
    left. unfold store_if_unset. by destruct (_options self !! option). }
  destruct h; try discriminate Hs; try done; simpl in Hrun.
  - unfold _match_host in Hrun. destruct cls; [|done].
    injection Hrun as <- <-. by left.
  - apply _match_frame in Hrun as [_ [b ->]]. by left.
  - unfold _append_string in Hrun. destruct args; simpl in Hrun; [done|].
    left. unfold store_if_unset in Hrun. repeat case_match; by simplify_eq/=.
  - unfold _append_string_list in Hrun. left. repeat case_match; by simplify_eq/=.
  - unfold _set_hostname in Hrun. destruct cls; [|done].
    destruct args; simpl in Hrun; [done|].
    destruct (_options self !! option) eqn:Ho.
    { injection Hrun as <- <-. by left. }
    apply bind_Ok in Hrun as (hs & _ & Hrun).
    apply bind_Ok in Hrun as (e & _ & Hrun). injection Hrun as <- <-.
    right. by exists hs.
  - unfold _set_request_tty in Hrun. destruct args; simpl in Hrun; [done|].
    apply bind_Ok in Hrun as (v & _ & Hrun). injection Hrun as <- <-.
    left. unfold store_if_unset. by destruct (_options self !! option).
Qed.

Lemma _set_tokens_known (self self' : SSHConfig) :
  _set_tokens w cls self = Ok self' →
  tokens_known (_tokens self) → tokens_known (_tokens self').
Proof.
  unfold _set_tokens. intros Hrun Hk.
  assert (Hin : ∀ c, c ∈ ["C"; "h"; "L"; "l"; "n"; "p"; "r"; "u"; "d"; "i"]%char →
                     c ∈ client_token_names ∧ c ≠ "%"%char).
  { intros c Hc. split; [by right|].
    intros ->. repeat (apply elem_of_cons in Hc as [Hc|Hc]; [done|]).
    by apply elem_of_nil in Hc. }
  assert (Hadd : ∀ c v t,
    c ∈ ["C"; "h"; "L"; "l"; "n"; "p"; "r"; "u"; "d"; "i"]%char →
    tokens_known t → tokens_known (<[c := v]> t)).
  { intros c v t Hc. destruct (Hin c Hc). by apply tokens_known_insert. }
  destruct cls.
  - apply bind_Ok in Hrun as (host & _ & Hrun).
    apply bind_Ok in Hrun as (user & _ & Hrun). injection Hrun as <-. simpl.
    destruct (getuid w); destruct (negb _);
      repeat (apply Hadd; [in_list|]); done.
  - injection Hrun as <-. simpl. apply Hadd; [in_list|done].
Qed.

Lemma parse_line_tokens_known (rec : string → SSHConfig → outcome SSHConfig)
    (line : string) (self self' : SSHConfig) :
  (∀ p s s', rec p s = Ok s' → tokens_known (_tokens s')) →
  tokens_known (_tokens self) →
  parse_line w cls rec self line = Ok self' →
  tokens_known (_tokens self').
Proof.
  intros Hrec Hk Hrun. unfold parse_line in Hrun.
  destruct (_ || _); [by simplify_eq/=|].
  apply bind_Ok in Hrun as ([loption args] & _ & Hrun).
  destruct (negb _ && _); [by simplify_eq/=|].
  destruct (_handlers cls !! loption) as [[option h]|] eqn:Hh; [|by simplify_eq/=].
  destruct args as [|a args]; [done|].
  apply bind_Ok in Hrun as ([s1 rest] & Hcall & Hrun).
  destruct rest; [|done]. injection Hrun as <-.
  destruct (decide (h = H_include)) as [->|Hne].
  - simpl in Hcall. unfold _include in Hcall.
    apply bind_Ok in Hcall as (s & Hfor & Hs). injection Hs as <-. simpl.
    revert Hfor. apply (for_each_invariant (λ s, tokens_known (_tokens s))); [|done].
    intros s2 pattern s3 Hs2.
    apply (for_each_invariant (λ s, tokens_known (_tokens s))); [|done].
    intros s4 path s5 _. apply Hrec.
  - apply handler_tokens in Hcall; [|done].
    destruct Hcall as [->|[host ->]]; simpl; [done|].
    apply tokens_known_insert; [|done|done].
    unfold client_token_names. in_list.
Qed.

(** At the end of every [parse] and between the lines of a file the token
    dictionary is of the kind that [client_tokens] asks for. *)
Lemma parse_tokens_known (fuel : nat) :
  ∀ path self self',
    parse w cls fuel path self = Ok self' → tokens_known (_tokens self').
Proof.
  induction fuel as [|fuel IH]; intros path self self' Hrun; [done|].
  simpl in Hrun. destruct (read_lines w path) as [file|]; [|done].
  apply bind_Ok in Hrun as (s1 & Hlines & Hrun).
  apply bind_Ok in Hrun as (s2 & Htok & Hexp).
  assert (tokens_known (_tokens s1)) as Hs1.
  { revert Hlines.
    apply (for_each_invariant (λ s, tokens_known (_tokens s))).
    - intros s line s' Hs. by apply parse_line_tokens_known.
    - apply tokens_known_start. }
  apply _set_tokens_known in Htok; [|done].
  revert Hexp. apply (for_each_invariant (λ s, tokens_known (_tokens s))); [|done].
  intros s o s' Hs Ho. by rewrite (expand_option_tokens _ _ _ Ho).
Qed.

Lemma lines_tokens_known (fuel : nat) (lines : list string)
    (self self' : SSHConfig) :
  tokens_known (_tokens self) →
  for_each (parse_line w cls (parse w cls fuel)) lines self = Ok self' →
  tokens_known (_tokens self').
Proof.
  intros Hk. apply (for_each_invariant (λ s, tokens_known (_tokens s))); [|done].
  intros s line s' Hs. apply parse_line_tokens_known; [|done].
  apply parse_tokens_known.
Qed.

End Tokens.

(** ** C1: the first directive wins *)




(** ** C2: lists in directive order *)

(** N directives for an option bound to one of the two appending handlers,
    each with one argument that is not [none], are processed one after the
    other in a matching scope: their arguments are appended in that order
    to the list the option holds. *)
Lemma run_appended_in_order (w : World) (cls : config_class)
    (rec : string → SSHConfig → outcome SSHConfig) (h : handler)
    (option loption : string) (lines vs : list string) (self : SSHConfig) :
  appender h = true →
  _handlers cls !! loption = Some (option, h) →
  _matching self = true →
  Forall2
    (λ line v, (∀ s, directive w cls s line loption [v]) ∧
               String.eqb (PyStr.lower v) "none" = false)
    lines vs →
  list_typed option self →
  ∃ self',
    for_each (parse_line w cls rec) lines self = Ok self' ∧
    list_of self' option = list_of self option ++ vs ∧
    (vs ≠ [] →
     _options self' !! option = Some (VList (list_of self option ++ vs))) ∧
    (∀ k, k ≠ option → _options self' !! k = _options self !! k).
Proof.
  intros Hh Hlo Hm Hlines. revert self Hm.
  induction Hlines as [|line v lines vs [Hd Hv] Hrest IH]; intros self Hm Hty.
  - exists self. rewrite app_nil_r. by split_and!.
  - simpl.
    rewrite (parse_line_dispatch _ _ _ _ _ _ _ _ _ (Hd self) (or_introl Hm) Hlo).
    assert (Hcall : ∃ s1,
      call_handler w cls rec h option [v] (next_line self) = Ok (s1, []) ∧
      _matching s1 = true ∧
      _options s1 = <[option := VList (list_of self option ++ [v])]> (_options self)).
    { unfold list_of.
      destruct h; try discriminate Hh; simpl.
      - unfold _append_string. simpl. rewrite Hv. simpl.
        destruct (_options self !! option) as [x|] eqn:Hx.
        + destruct (Hty x Hx) as [l ->]. eauto.
        + eauto.
      - unfold _append_string_list. simpl.
        destruct (_options self !! option) as [x|] eqn:Hx.
        + destruct (Hty x Hx) as [l ->]. eauto.
        + eauto. }
    destruct Hcall as (s1 & -> & Hm1 & Ho1). simpl.
    assert (Hl1 : list_of s1 option = list_of self option ++ [v]).
    { unfold list_of at 1. by rewrite Ho1, lookup_insert_eq. }
    destruct (IH s1 Hm1) as (self' & Hrun & Hlist & Hsome & Hother).
    { intros x. rewrite Ho1, lookup_insert_eq. intros [= <-]. eauto. }
    exists self'. rewrite Hl1, <- app_assoc in Hlist. split_and!; [done|done| |].
    + intros _. destruct vs as [|v' vs].
      * apply Forall2_nil_inv_r in Hrest as ->. simpl in Hrun.
        injection Hrun as <-. by rewrite Ho1, lookup_insert_eq.
      * rewrite Hsome by done. by rewrite Hl1, <- app_assoc.
    + intros k Hk. rewrite Hother by done. by rewrite Ho1, lookup_insert_ne.
Qed.

Section AcrossFiles.

Context (w : World) (cls : config_class) (h : handler) (option loption : string).

Hypothesis h_appends : appender h = true.

Hypothesis h_bound : _handlers cls !! loption = Some (option, h).

Lemma appended_refl (self : SSHConfig) :
  _matching self = true → list_typed option self → appended option self [] self.
Proof. intros Hm Hty. unfold appended. by rewrite app_nil_r. Qed.

Lemma appended_trans (s s1 s2 : SSHConfig) (vs1 vs2 : list string) :
  appended option s vs1 s1 → appended option s1 vs2 s2 →
  appended option s (vs1 ++ vs2) s2.
Proof.
  intros (_ & Hl1 & _ & Ho1) (Hm2 & Hl2 & Hty2 & Ho2).
  split_and!; [done| |done|].
  - by rewrite Hl2, Hl1, app_assoc.
  - intros k Hk. by rewrite Ho2, Ho1.
Qed.

Lemma appended_same_options (s s1 s2 : SSHConfig) (vs : list string) :
  _options s2 = _options s1 → _matching s2 = true →
  appended option s vs s1 → appended option s vs s2.
Proof.
  intros Ho Hm (_ & Hl & Hty & Hother).
  unfold appended, list_typed, list_of in *. rewrite Ho. by split_and!.
Qed.

Lemma appended_from_same_options (s0 s s1 : SSHConfig) (vs : list string) :
  _options s0 = _options s →
  appended option s vs s1 → appended option s0 vs s1.
Proof.
  intros Ho (Hm & Hl & Hty & Hother).
  unfold appended, list_typed, list_of in *. rewrite Ho. by split_and!.
Qed.

Lemma ready_appended (s s' : SSHConfig) (vs : list string) :
  ready cls option s → appended option s vs s' →
  (option ∈ _percent_expand cls → Forall percent_free vs) →
  ready cls option s'.
Proof.
  intros (_ & Hty & Hbuild & Hplain) (Hm' & Hl' & Hty' & Hother) Hvs.
  destruct (appender_option_name _ _ _ _ h_appends h_bound) as (Hhost & Huser & _).
  unfold ready, expansion_neutral. split_and!; [done|done| |].
  - unfold tokens_buildable, get in *. destruct cls; [|done].
    by rewrite !Hother.
  - intros o v Ho Hv. destruct (decide (o = option)) as [->|Hne].
    + destruct (Hty' v Hv) as [l ->]. simpl.
      assert (l = list_of s option ++ vs) as ->.
      { rewrite <- Hl'. unfold list_of. by rewrite Hv. }
      apply Forall_app. split; [|by apply Hvs].
      unfold list_of. destruct (_options s !! option) as [x|] eqn:Hx; [|done].
      destruct (Hty x Hx) as [l0 ->]. by apply (Hplain option (VList l0)).
    + rewrite Hother in Hv by done. by eapply Hplain.
Qed.

(** One appending directive. *)
Lemma one_appended (rec : string → SSHConfig → outcome SSHConfig)
    (self : SSHConfig) (line v : string) :
  _matching self = true → list_typed option self →
  directive w cls self line loption [v] →
  String.eqb (PyStr.lower v) "none" = false →
  ∃ self', parse_line w cls rec self line = Ok self' ∧
           appended option self [v] self'.
Proof.
  intros Hm Hty Hd Hv.
  rewrite (parse_line_dispatch _ _ _ _ _ _ _ _ _ Hd (or_introl Hm) h_bound).
  assert (Hcall : ∃ s1,
    call_handler w cls rec h option [v] (next_line self) = Ok (s1, []) ∧
    _matching s1 = true ∧
    _options s1 = <[option := VList (list_of self option ++ [v])]> (_options self)).
  { unfold list_of.
    destruct h; try discriminate h_appends; simpl.
    - unfold _append_string. simpl. rewrite Hv. simpl.
      destruct (_options self !! option) as [x|] eqn:Hx.
      + destruct (Hty x Hx) as [l ->]. eauto.
      + eauto.
    - unfold _append_string_list. simpl.
      destruct (_options self !! option) as [x|] eqn:Hx.
      + destruct (Hty x Hx) as [l ->]. eauto.
      + eauto. }
  destruct Hcall as (s1 & -> & Hm1 & Ho1). simpl. exists s1. split; [done|].
  unfold appended, list_typed. rewrite Ho1. split_and!; [done| | |].
  - unfold list_of at 1. by rewrite Ho1, lookup_insert_eq.
  - intros x. rewrite lookup_insert_eq. intros [= <-]. eauto.
  - intros k Hk. by rewrite lookup_insert_ne.
Qed.

(** The files of an [Include], given what [parse] does on each. *)
Lemma paths_appended (fuel : nat) :
  (∀ path file vs self,
     read_lines w path = Some file →
     appended_by w cls loption fuel file = Some vs →
     (option ∈ _percent_expand cls → Forall percent_free vs) →
     ready cls option self →
     ∃ self', parse w cls fuel path self = Ok self' ∧
              appended option self vs self') →
  ∀ paths vs self,
    collect
      (λ path, match read_lines w path with
               | Some file => appended_by w cls loption fuel file
               | None => None
               end) paths = Some vs →
    (option ∈ _percent_expand cls → Forall percent_free vs) →
    ready cls option self →
    ∃ self', for_each (λ s path, parse w cls fuel path s) paths self = Ok self' ∧
             appended option self vs self'.
Proof.
  intros Hfile. induction paths as [|path paths IH]; intros vs self Hc Hvs Hready.
  - injection Hc as <-. exists self. split; [done|].
    destruct Hready as (? & ? & _). by apply appended_refl.
  - simpl in Hc.
    destruct (read_lines w path) as [file|] eqn:Hread; [|done].
    destruct (appended_by w cls loption fuel file) as [vs1|] eqn:H1; [|done].
    destruct (collect _ paths) as [vs2|] eqn:H2; [|done]. injection Hc as <-.
    assert (Hvs1 : option ∈ _percent_expand cls → Forall percent_free vs1).
    { intros Ho. by apply Hvs, Forall_app in Ho as [? _]. }
    assert (Hvs2 : option ∈ _percent_expand cls → Forall percent_free vs2).
    { intros Ho. by apply Hvs, Forall_app in Ho as [_ ?]. }
    destruct (Hfile path file vs1 self Hread H1 Hvs1 Hready) as (s1 & Hp & Ha1).
    destruct (IH vs2 s1 eq_refl Hvs2) as (s2 & Hrest & Ha2).
    { by eapply ready_appended. }
    exists s2. simpl. rewrite Hp. simpl. split; [done|]. by eapply appended_trans.
Qed.

(** The lines of a file, given what [parse] does on the included files. *)
Lemma lines_appended (fuel : nat) :
  (∀ path file vs self,
     read_lines w path = Some file →
     appended_by w cls loption fuel file = Some vs →
     (option ∈ _percent_expand cls → Forall percent_free vs) →
     ready cls option self →
     ∃ self', parse w cls fuel path self = Ok self' ∧
              appended option self vs self') →
  ∀ lines vs self,
    appended_by w cls loption (S fuel) lines = Some vs →
    (option ∈ _percent_expand cls → Forall percent_free vs) →
    ready cls option self →
    ∃ self', for_each (parse_line w cls (parse w cls fuel)) lines self = Ok self' ∧
             appended option self vs self'.
Proof.
  intros Hfile. simpl.
  induction lines as [|line lines IH]; intros vs self Hc Hvs Hready.
  - injection Hc as <-. exists self. split; [done|].
    destruct Hready as (? & ? & _). by apply appended_refl.
  - simpl in Hc.
    destruct (appended_by_line w cls loption (appended_by w cls loption fuel) line)
      as [vs1|] eqn:H1; [|done].
    destruct (collect _ lines) as [vs2|] eqn:H2; [|done]. injection Hc as <-.
    assert (Hvs1 : option ∈ _percent_expand cls → Forall percent_free vs1).
    { intros Ho. by apply Hvs, Forall_app in Ho as [? _]. }
    assert (Hvs2 : option ∈ _percent_expand cls → Forall percent_free vs2).
    { intros Ho. by apply Hvs, Forall_app in Ho as [_ ?]. }
    assert (Hline : ∃ s1, parse_line w cls (parse w cls fuel) self line = Ok s1 ∧
                          appended option self vs1 s1).
    { pose proof Hready as (Hm & Hty & _).
      unfold appended_by_line in H1.
      destruct (is_blank line) eqn:Hb.
      { injection H1 as <-. rewrite parse_line_blank by done.
        eexists. split; [done|].
        apply (appended_same_options _ self); [done|done|]. by apply appended_refl. }
      destruct (read_directive _ _ _ _) as [[lo args]| |] eqn:Hr; [|done..].
      assert (Hd : directive w cls self line lo args).
      { split; [done|]. by eapply read_directive_any_state. }
      destruct (String.eqb lo loption) eqn:Hlo.
      { apply String.eqb_eq in Hlo as ->.
        destruct args as [|v [|]]; [done| |done].
        destruct (String.eqb (PyStr.lower v) "none") eqn:Hv; [done|].
        injection H1 as <-. by apply one_appended. }
      destruct (String.eqb lo "include") eqn:Hinc; [|done].
      apply String.eqb_eq in Hinc as ->.
      destruct args as [|a args]; [done|].
      rewrite (parse_line_dispatch _ _ _ _ _ _ _ _ _ Hd (or_introl Hm)
                 (include_is_bound cls)).
      simpl. unfold _include.
      rewrite (for_each_concat (λ s path, parse w cls fuel path s) (include_glob w)).
      destruct (paths_appended fuel Hfile _ vs1 (next_line self) H1 Hvs1)
        as (s1 & -> & Ha1).
      { destruct Hready as (? & ? & ? & ?). by split_and!. }
      simpl. eexists. split; [done|].
      destruct Ha1 as (Hm1 & ?). apply (appended_same_options _ s1); [done|done|].
      by apply (appended_from_same_options _ (next_line self)). }
    destruct Hline as (s1 & Hs1 & Ha1).
    destruct (IH vs2 s1 eq_refl Hvs2) as (s2 & Hrest & Ha2).
    { by eapply ready_appended. }
    exists s2. simpl. rewrite Hs1. simpl. split; [done|]. by eapply appended_trans.
Qed.

(** A whole file. *)
Lemma files_appended (fuel : nat) :
  ∀ path file vs self,
    read_lines w path = Some file →
    appended_by w cls loption fuel file = Some vs →
    (option ∈ _percent_expand cls → Forall percent_free vs) →
    ready cls option self →
    ∃ self', parse w cls fuel path self = Ok self' ∧
             appended option self vs self'.
Proof.
  induction fuel as [|fuel IH]; intros path file vs self Hread Hc Hvs Hready;
    [done|].
  cbn [parse]. rewrite Hread.
  change (set_tokens _ (set_matching true (set_line_no 0 (set_path path self))))
    with (at_start path self).
  destruct (lines_appended fuel IH file vs (at_start path self) Hc Hvs)
    as (s1 & -> & Ha1).
  { destruct Hready as (? & ? & ? & ?). by split_and!. }
  simpl.
  assert (Hready1 : ready cls option s1).
  { apply (ready_appended (at_start path self) s1 vs); [|done|done].
    destruct Hready as (? & ? & ? & ?). by split_and!. }
  destruct Hready1 as (Hm1 & Hty1 & Hbuild1 & Hplain1).
  destruct (set_tokens_buildable w cls s1 Hbuild1) as (tok & -> & Ho & Hm).
  simpl. rewrite expand_options_plain.
  - eexists. split; [done|].
    apply (appended_same_options _ s1); [done|congruence|].
    by apply (appended_from_same_options _ (at_start path self)).
  - intros o v Hin. rewrite Ho. by apply Hplain1.
Qed.

End AcrossFiles.




(** ** C3: the argument none *)

(** C3, as amended. For an option bound to [_append_string], a directive
    whose only argument is [none] in any letter case, processed in a
    matching scope, stores the empty list when the option has no value and
    leaves the options dictionary as it is when the option has one. *)
Theorem none_initialises_list (w : World) (cls : config_class)
    (rec : string → SSHConfig → outcome SSHConfig)
    (option loption line v : string) (self : SSHConfig) :
  _handlers cls !! loption = Some (option, H_append_string) →
  _matching self = true →
  directive w cls self line loption [v] →
  PyStr.lower v = "none" →
  ∃ self',
    parse_line w cls rec self line = Ok self' ∧
    _options self' =
      match _options self !! option with
      | None => <[option := VList []]> (_options self)
      | Some _ => _options self
      end.
Proof.
  intros Hlo Hm Hd Hv.
  rewrite (parse_line_dispatch _ _ _ _ _ _ _ _ _ Hd (or_introl Hm) Hlo).
  simpl. unfold _append_string. simpl. rewrite Hv. simpl.
  eexists. split; [done|]. unfold store_if_unset. simpl.
  by destruct (_options self !! option).
Qed.

Lemma none_initialises_list_witness :
  ∃ self',
    parse_line identities_world alice_client (parse identities_world alice_client 0)
      (at_start "none" fresh_config) "IdentityFile NONE" = Ok self' ∧
    _options self' =
      match _options (at_start "none" fresh_config) !! "IdentityFile" with
      | None => <["IdentityFile" := VList []]> (_options (at_start "none" fresh_config))
      | Some _ => _options (at_start "none" fresh_config)
      end.
Proof.
  apply (none_initialises_list identities_world alice_client
           (parse identities_world alice_client 0) "IdentityFile" "identityfile"
           "IdentityFile NONE" "NONE").
  - vm_compute. reflexivity.
  - reflexivity.
  - split; vm_compute; reflexivity.
  - reflexivity.
Defined.

(** C3 as stated fails for the options bound to [_append_string_list]:
    [SendEnv none] appends the word [none], to a new list as well as to a
    list the option already holds. *)
Lemma none_is_a_word_for_SendEnv :
  (∃ self',
     parse_line identities_world alice_client (parse identities_world alice_client 0)
       (at_start "env" fresh_config) "SendEnv none" = Ok self' ∧
     _options self' !! "SendEnv" = Some (VList ["none"])) ∧
  (∃ config,
     SSHClientConfig_load identities_world 1 None ["env"] false
       "alice" None "example.com" None = Ok config ∧
     _options config !! "SendEnv" = Some (VList ["LANG"; "none"])).
Proof. split; eexists; split; vm_compute; reflexivity. Qed.

(** ** C4: blocks that do not match *)

Section Gating.

Context (w : World) (cls : config_class).

Context (rec : string → SSHConfig → outcome SSHConfig).

(** How a line is read does not depend on the state of the object. *)
Lemma directive_any_state (s s' : SSHConfig) (line loption : string)
    (args : list string) :
  directive w cls s line loption args → directive w cls s' line loption args.
Proof.
  unfold directive, read_directive. intros [Hb Hr]. split; [done|].
  destruct (shlex_split w (PyStr.strip line)) as [exc|words]; [done|].
  exact Hr.
Qed.

(** The names in [_conditionals] are bound to [_match] and [_match_host]. *)
Lemma conditional_handlers (loption : string) :
  str_in loption (_conditionals cls) = true →
  ∃ option h, _handlers cls !! loption = Some (option, h) ∧
              (h = H_match ∨ h = H_match_host).
Proof.
  unfold _conditionals, _handlers. destruct cls; simpl; intros H.
  - apply orb_true_iff in H as [H|H].
    + apply String.eqb_eq in H as ->. exists "Host", H_match_host.
      split; [by vm_compute|by right].
    + apply orb_true_iff in H as [H|H]; [|done].
      apply String.eqb_eq in H as ->. exists "Match", H_match.
      split; [by vm_compute|by left].
  - apply orb_true_iff in H as [H|H]; [|done].
    apply String.eqb_eq in H as ->. exists "Match", H_match.
    split; [by vm_compute|by left].
Qed.

(** [_match] and [_match_host] compute the flag anew: what they return
    does not depend on the flag they find. *)
Lemma conditional_ignores_flag (h : handler) (option : string)
    (args : list string) (b b' : bool) (self : SSHConfig) :
  h = H_match ∨ h = H_match_host → args ≠ [] →
  call_handler w cls rec h option args (set_matching b self)
  = call_handler w cls rec h option args (set_matching b' self).
Proof.
  intros [-> | ->] Hargs; simpl.
  - destruct args as [|m args1]; [done|]. cbn [_match].
    destruct (String.eqb (PyStr.lower m) "all"); [done|].
    replace (_match_val cls (set_matching b self) (PyStr.lower m))
      with (_match_val cls (set_matching b' self) (PyStr.lower m))
      by (by destruct cls).
    destruct (negb _ && _); [done|].
    destruct args1 as [|pattern args2]; [done|]. done.
  - unfold _match_host. by destruct cls.
Qed.


End Gating.


(** ** C5: the state after an Include *)

(** What [_include] does put back: the path, for any files it parsed. *)
Lemma include_restores_path (w : World)
    (rec : string → SSHConfig → outcome SSHConfig) (option : string)
    (args rest : list string) (self self' : SSHConfig) :
  _include w rec option args self = Ok (self', rest) →
  _path self' = _path self ∧ rest = [].
Proof.
  unfold _include. intros H. apply bind_Ok in H as (s & _ & H). by simplify_eq/=.
Qed.

(** C5: where the code leaves the claim. After an [Include] the path of
    the including file is back, but its line counter and its matching flag
    are those the included file ended with: the refused value on line 2 of
    [config] is reported on line 4, the number of lines of the included
    file plus one, and [Port 2222] in [gateway], which follows no [Host] or
    [Match] of its own file, is passed over. *)
Theorem include_loses_line_and_flag :
  SSHClientConfig_load include_world 2 None ["config"] false
    "alice" None "example.com" None
  = Raise (ConfigParseError "config line 4: Invalid Compression boolean value: maybe") ∧
  (config ← SSHClientConfig_load include_world 2 None ["gateway"] false
              "alice" None "example.com" None;
   Ok (_path config, _line_no config, _matching config, _options config !! "Port"))
  = Ok ("gateway", 3, false, None).
Proof. split; vm_compute; reflexivity. Qed.

(** ** C6: when the expansion runs *)


Section ExpandOnce.

Context (w : World) (cls : config_class).

Hypothesis no_file_included : ∀ pattern, include_glob w pattern = [].

Lemma include_parses_nothing (rec : string → SSHConfig → outcome SSHConfig)
    (option : string) (args : list string) (self : SSHConfig) :
  _include w rec option args self = Ok (self, []).
Proof.
  unfold _include.
  assert (for_each
            (λ self pattern,
               for_each (λ self path, rec path self) (include_glob w pattern) self)
            args self = Ok self) as ->.
  { induction args as [|a args IH]; [done|]. simpl.
    by rewrite no_file_included. }
  simpl. by destruct self.
Qed.

Lemma parse_line_any_rec (rec1 rec2 : string → SSHConfig → outcome SSHConfig)
    (self : SSHConfig) (line : string) :
  parse_line w cls rec1 self line = parse_line w cls rec2 self line.
Proof.
  unfold parse_line.
  destruct (_ || _); [done|].
  destruct (read_directive _ _ _ _) as [[loption args]| |]; [|done..]. simpl.
  destruct (negb _ && _); [done|].
  destruct (_handlers cls !! loption) as [[option h]|]; [|done].
  destruct args as [|a args]; [done|].
  destruct h; try done. simpl. by rewrite !include_parses_nothing.
Qed.

Lemma lines_any_rec (rec1 rec2 : string → SSHConfig → outcome SSHConfig)
    (lines : list string) (self : SSHConfig) :
  for_each (parse_line w cls rec1) lines self
  = for_each (parse_line w cls rec2) lines self.
Proof.
  revert self. induction lines as [|line lines IH]; intros self; [done|].
  simpl. rewrite (parse_line_any_rec rec1 rec2).
  destruct (parse_line w cls rec2 self line); simpl; auto.
Qed.

(** Without included files [parse] is the pass followed by one expansion. *)
Lemma parse_is_pass_then_expansion (fuel : nat) (path : string)
    (self : SSHConfig) :
  parse w cls fuel path self =
    pass ← spec_directive_pass w cls fuel path self;
    tok ← _set_tokens w cls pass;
    for_each expand_option (_percent_expand cls) tok.
Proof.
  destruct fuel as [|fuel]; [done|]. simpl.
  destruct (read_lines w path) as [file|]; [|done].
  by rewrite (lines_any_rec (parse w cls fuel) (spec_directive_pass w cls fuel)).
Qed.


End ExpandOnce.


(** ** C7: the tokens of a client *)

(** The tokens that [_set_tokens] builds for a client of [example.com] with
    port 22 and user [alice], over a token dictionary of the kind a pass
    leaves, and what the expansion does with them. *)
Lemma client_tokens_built (w : World) (local_user : string) (self : SSHConfig) :
  _options self !! "Hostname" = None →
  get self "Port" (VInt (DEFAULT_PORT w)) = VInt 22 →
  (if truthy (get self "User" VNone) then get self "User" VNone
   else VStr local_user) = VStr "alice" →
  _tokens self !! "%"%char = Some "%" →
  (∀ c, is_Some (_tokens self !! c) → c ∈ client_token_names) →
  ∃ self',
    _set_tokens w (SSHClientConfig local_user "example.com") self = Ok self' ∧
    _options self' = _options self ∧
    ∀ pre pre' post,
      expand_val (_tokens self') pre = Ok pre' →
      expand_val (_tokens self') (pre +:+ "%h" +:+ post)
        = (r ← expand_val (_tokens self') post; Ok (pre' +:+ "example.com" +:+ r)) ∧
      expand_val (_tokens self') (pre +:+ "%p" +:+ post)
        = (r ← expand_val (_tokens self') post; Ok (pre' +:+ "22" +:+ r)) ∧
      expand_val (_tokens self') (pre +:+ "%r" +:+ post)
        = (r ← expand_val (_tokens self') post; Ok (pre' +:+ "alice" +:+ r)) ∧
      expand_val (_tokens self') (pre +:+ "%n" +:+ post)
        = (r ← expand_val (_tokens self') post; Ok (pre' +:+ "example.com" +:+ r)) ∧
      expand_val (_tokens self') (pre +:+ "%%" +:+ post)
        = (r ← expand_val (_tokens self') post; Ok (pre' +:+ "%" +:+ r)) ∧
      expand_val (_tokens self') (pre +:+ "%z" +:+ post)
        = Raise (ConfigParseError "Invalid token substitution: z") ∧
      (∀ c, c ∉ client_token_names →
            expand_val (_tokens self') (pre +:+ String "%" (String c post))
            = Raise (missing_token c)) ∧
      expand_val (_tokens self') (pre +:+ "%")
        = Raise (ConfigParseError "Invalid token substitution").
Proof.
  intros Hhost Hport Huser Hpercent Hnames.
  assert (Hh : get self "Hostname" (VStr "example.com") = VStr "example.com")
    by (unfold get; by rewrite Hhost).
  unfold _set_tokens. cbv zeta. rewrite Hh, Hport, Huser. simpl.
  eexists. split; [reflexivity|]. split; [reflexivity|]. simpl.
  set (T := match getuid w with Some uid => _ | None => _ end).
  assert (Hlook : ∀ c sub,
    c ≠ "d"%char → c ≠ "i"%char →
    (<["u"%char := local_user]>
       (<["r"%char := "alice"]>
          (<["p"%char := "22"]>
             (<["n"%char := "example.com"]>
                (<["l"%char := gethostname w]>
                   (<["L"%char :=
                        match PyStr.find "." (gethostname w) with
                        | Some idx => PyStr.take idx (gethostname w)
                        | None => gethostname w
                        end]>
                      (<["h"%char := "example.com"]>
                         (<["C"%char :=
                              sha1_hexdigest w
                                (PyStr.join ""
                                   [gethostname w; "example.com"; "22"; "alice"])]>
                            (_tokens self))))))))) !! c = sub →
    T !! c = sub).
  { intros c sub Hd Hi <-. unfold T.
    destruct (getuid w); destruct (negb _);
      rewrite ?(lookup_insert_ne _ "i"%char c), ?(lookup_insert_ne _ "d"%char c);
      done. }
  assert (Hundef : ∀ c, c ∉ client_token_names → T !! c = None).
  { intros c Hc. unfold client_token_names in Hc.
    repeat (apply not_elem_of_cons in Hc as [? Hc]).
    assert (_tokens self !! c = None) as Hself.
    { destruct (_tokens self !! c) eqn:Hx; [|done].
      pose proof (Hnames c (mk_is_Some _ _ Hx)) as Hin.
      unfold client_token_names in Hin.
      repeat (apply elem_of_cons in Hin as [->|Hin]; [done|]).
      by apply elem_of_nil in Hin. }
    unfold T. destruct (getuid w); destruct (negb _);
      by rewrite !lookup_insert_ne. }
  intros pre pre' post Hpre.
  change (pre +:+ "%h" +:+ post) with (pre +:+ String "%" (String "h" post)).
  change (pre +:+ "%p" +:+ post) with (pre +:+ String "%" (String "p" post)).
  change (pre +:+ "%r" +:+ post) with (pre +:+ String "%" (String "r" post)).
  change (pre +:+ "%n" +:+ post) with (pre +:+ String "%" (String "n" post)).
  change (pre +:+ "%%" +:+ post) with (pre +:+ String "%" (String "%" post)).
  change (pre +:+ "%z" +:+ post) with (pre +:+ String "%" (String "z" post)).
  split_and!.
  - apply (expand_val_token _ _ _ _ _ _ Hpre). apply Hlook; [done..|].
    rewrite !lookup_insert_ne by done. by rewrite lookup_insert_eq.
  - apply (expand_val_token _ _ _ _ _ _ Hpre). apply Hlook; [done..|].
    rewrite !lookup_insert_ne by done. by rewrite lookup_insert_eq.
  - apply (expand_val_token _ _ _ _ _ _ Hpre). apply Hlook; [done..|].
    rewrite !lookup_insert_ne by done. by rewrite lookup_insert_eq.
  - apply (expand_val_token _ _ _ _ _ _ Hpre). apply Hlook; [done..|].
    rewrite !lookup_insert_ne by done. by rewrite lookup_insert_eq.
  - apply (expand_val_token _ _ _ _ _ _ Hpre). apply Hlook; [done..|].
    by rewrite !lookup_insert_ne by done.
  - rewrite (expand_val_missing _ _ _ _ _ Hpre); [done|].
    apply Hundef. unfold client_token_names.
    repeat (apply not_elem_of_cons; split; [done|]). apply not_elem_of_nil.
  - intros c Hc. apply (expand_val_missing _ _ _ _ _ Hpre). by apply Hundef.
  - by apply (expand_val_trailing _ _ _ Hpre).
Qed.



(** ** C8 and C9: values that are refused *)

Section Errors.

Context (w : World) (cls : config_class).

(** The path of the file stays through the lines of the file. *)
Lemma lines_path (rec : string → SSHConfig → outcome SSHConfig)
    (lines : list string) (self self' : SSHConfig) :
  for_each (parse_line w cls rec) lines self = Ok self' →
  _path self' = _path self.
Proof.
  apply (for_each_invariant (λ s, _path s = _path self)); [|done].
  intros s line s' Hs Hline. apply parse_line_path in Hline. congruence.
Qed.

(** Lines of which none reaches [_include] are counted one by one. *)
Lemma lines_counter (rec : string → SSHConfig → outcome SSHConfig)
    (lines : list string) :
  ∀ self self',
    Forall (λ line, ∀ s args, ¬ directive w cls s line "include" args) lines →
    for_each (parse_line w cls rec) lines self = Ok self' →
    _line_no self' = _line_no self + length lines.
Proof.
  induction lines as [|line lines IH]; intros self self' Hinc Hrun.
  - injection Hrun as <-. simpl. lia.
  - apply Forall_cons in Hinc as [Hline Hinc]. simpl in Hrun.
    apply bind_Ok in Hrun as (s1 & H1 & Hrun).
    apply parse_line_counter in H1; [|by apply Hline].
    rewrite (IH _ _ Hinc Hrun), H1. simpl. lia.
Qed.

(** An exception in a line of the file leaves [parse]. *)
Lemma parse_raises_at_line (fuel : nat) (path line : string)
    (pre post : list string) (self0 self1 : SSHConfig) (e : exn) :
  read_lines w path = Some (pre ++ line :: post) →
  for_each (parse_line w cls (parse w cls fuel)) pre (at_start path self0)
    = Ok self1 →
  parse_line w cls (parse w cls fuel) self1 line = Raise e →
  parse w cls (S fuel) path self0 = Raise e.
Proof.
  intros Hfile Hpre Hline. simpl. rewrite Hfile.
  change (set_tokens _ (set_matching true (set_line_no 0 (set_path path self0))))
    with (at_start path self0).
  rewrite for_each_app, Hpre. simpl. by rewrite Hline.
Qed.


(** C9. An option has a value and a later directive for it, processed in a
    matching scope, reaches a scalar setter. If the setter refuses the
    arguments, as [_set_bool], [_set_int] and [_set_address_family] do,
    [parse] raises the configuration error and returns no object; if it
    accepts them, it returns the object as it found it. *)
Theorem malformed_value_raises_when_set (fuel : nat)
    (path line loption option a : string) (h : handler)
    (rest pre post : list string) (self0 self1 : SSHConfig) :
  read_lines w path = Some (pre ++ line :: post) →
  for_each (parse_line w cls (parse w cls fuel)) pre (at_start path self0)
    = Ok self1 →
  _matching self1 = true →
  directive w cls self1 line loption (a :: rest) →
  _handlers cls !! loption = Some (option, h) →
  scalar_setter h = true →
  is_Some (_options self1 !! option) →
  match directive_value h (a :: rest) with
  | None => ∃ msg, parse w cls (S fuel) path self0 = Raise (ConfigParseError msg)
  | Some _ =>
      ∃ leftover,
        call_handler w cls (parse w cls fuel) h option (a :: rest) (next_line self1)
        = Ok (next_line self1, leftover)
  end.
Proof.
  intros Hfile Hpre Hm Hd Hh Hs Hset.
  destruct (directive_value h (a :: rest)) as [v|] eqn:Hv.
  - destruct (call_handler w cls (parse w cls fuel) h option (a :: rest)
                (next_line self1)) as [[s leftover]|e|] eqn:Hcall.
    + exists leftover. f_equal. f_equal.
      eapply first_wins_discards; [|exact Hset|exact Hcall].
      unfold first_wins. by rewrite Hs.
    + destruct h; try discriminate Hs; simpl in Hcall, Hv;
        [unfold _set_bool in Hcall | unfold _set_int in Hcall
        | unfold _set_string in Hcall | unfold _set_string_list in Hcall
        | unfold _set_address_family in Hcall
        | unfold _set_rekey_limits in Hcall];
        simpl in Hcall; repeat case_match; simplify_eq/=.
    + destruct h; try discriminate Hs; simpl in Hcall, Hv;
        [unfold _set_bool in Hcall | unfold _set_int in Hcall
        | unfold _set_string in Hcall | unfold _set_string_list in Hcall
        | unfold _set_address_family in Hcall
        | unfold _set_rekey_limits in Hcall];
        simpl in Hcall; repeat case_match; simplify_eq/=.
  - destruct (scalar_setter_raises w cls (parse w cls fuel) h option (a :: rest)
                (next_line self1) Hs) as [msg Hmsg]; [done..|].
    exists msg. eapply parse_raises_at_line; [done..|].
    rewrite (parse_line_dispatch w cls _ _ _ _ _ _ _ Hd (or_introl Hm) Hh).
    by rewrite Hmsg.
Qed.

End Errors.



Lemma malformed_value_raises_when_set_witness :
  ∃ msg, parse malformed_world alice_client 1 "port" fresh_config
         = Raise (ConfigParseError msg).
Proof.
  eapply (malformed_value_raises_when_set malformed_world alice_client 0 "port"
            "Port abc" "port" "Port" "abc" H_set_int [] ["Port 22"] []
            fresh_config).
  - reflexivity.
  - vm_compute. reflexivity.
  - reflexivity.
  - split; vm_compute; reflexivity.
  - vm_compute. reflexivity.
  - reflexivity.
  - vm_compute. eauto.
Defined.

(** ** C10: Hostname *)

(** C10, as amended. A client processes a [Hostname] directive while the
    option has no value and the token dictionary holds at most [%] and
    [h]. The handler binds [h] to the host the caller asked for and expands
    the value at once: [%h] becomes that host, [%%] a percent sign, and any
    other token raises the configuration error, whether or not the tokens
    built after the pass would define it. *)
Theorem hostname_expands_at_once (w : World)
    (rec : string → SSHConfig → outcome SSHConfig)
    (local_user orig_host option pre pre' post : string) (args : list string)
    (self : SSHConfig) :
  _options self !! option = None →
  _tokens self !! "%"%char = Some "%" →
  (∀ c, is_Some (_tokens self !! c) → c = "%"%char ∨ c = "h"%char) →
  expand_val (<["h"%char := orig_host]> (_tokens self)) pre = Ok pre' →
  (∀ c, c ≠ "%"%char → c ≠ "h"%char →
     ∃ msg,
       call_handler w (SSHClientConfig local_user orig_host) rec H_set_hostname
         option ((pre +:+ String "%" (String c post)) :: args) self
       = Raise (ConfigParseError msg)) ∧
  call_handler w (SSHClientConfig local_user orig_host) rec H_set_hostname
    option ((pre +:+ "%h" +:+ post) :: args) self
  = (r ← expand_val (<["h"%char := orig_host]> (_tokens self)) post;
     Ok (store option (VStr (pre' +:+ orig_host +:+ r))
           (set_tokens (<["h"%char := orig_host]> (_tokens self)) self),
         args)) ∧
  call_handler w (SSHClientConfig local_user orig_host) rec H_set_hostname
    option ((pre +:+ "%%" +:+ post) :: args) self
  = (r ← expand_val (<["h"%char := orig_host]> (_tokens self)) post;
     Ok (store option (VStr (pre' +:+ "%" +:+ r))
           (set_tokens (<["h"%char := orig_host]> (_tokens self)) self),
         args)).
Proof.
  intros Hunset Hpercent Honly Hpre.
  assert (Hrun : ∀ value,
    call_handler w (SSHClientConfig local_user orig_host) rec H_set_hostname
      option (value :: args) self
    = (expanded ← expand_val (<["h"%char := orig_host]> (_tokens self)) value;
       Ok (store option (VStr expanded)
             (set_tokens (<["h"%char := orig_host]> (_tokens self)) self),
           args))).
  { intros value. simpl. unfold _set_hostname. simpl. rewrite Hunset.
    unfold get. by rewrite Hunset. }
  change (pre +:+ "%h" +:+ post) with (pre +:+ String "%" (String "h" post)).
  change (pre +:+ "%%" +:+ post) with (pre +:+ String "%" (String "%" post)).
  rewrite !Hrun. split_and!.
  - intros c Hc Hh. rewrite Hrun.
    rewrite (expand_val_missing _ _ _ _ _ Hpre).
    + destruct (missing_token_is_parse_error c) as [msg ->]. by exists msg.
    + rewrite lookup_insert_ne by done.
      destruct (_tokens self !! c) eqn:Hx; [|done].
      by destruct (Honly c (mk_is_Some _ _ Hx)).
  - rewrite (expand_val_token _ _ _ _ orig_host _ Hpre)
      by (by rewrite lookup_insert_eq).
    by destruct (expand_val _ post).
  - rewrite (expand_val_token _ _ _ _ "%" _ Hpre)
      by (by rewrite lookup_insert_ne).
    by destruct (expand_val _ post).
Qed.

Lemma hostname_expands_at_once_witness :
  parse_line hostname_world alice_client (parse hostname_world alice_client 0)
    (at_start "port" fresh_config) "Hostname %p.example.com"
  = Raise (ConfigParseError "Invalid token substitution: p").
Proof.
  destruct (hostname_expands_at_once hostname_world
              (parse hostname_world alice_client 0)
              "alice" "example.com" "Hostname" "" "" ".example.com" []
              (next_line (at_start "port" fresh_config)))
    as (Hraise & _).
  - reflexivity.
  - reflexivity.
  - intros c [x Hx]. simpl in Hx. apply lookup_singleton_Some in Hx as [<- _].
    by left.
  - reflexivity.
  - destruct (Hraise "p"%char) as [msg Hmsg]; [done..|].
    rewrite (parse_line_dispatch hostname_world alice_client _ _
               "Hostname %p.example.com" "hostname" "Hostname" H_set_hostname
               ["%p.example.com"]).
    + vm_compute. reflexivity.
    + split; vm_compute; reflexivity.
    + by left.
    + vm_compute. reflexivity.
Defined.

(** C10 as stated fails when [Hostname] has a value: the token dictionary
    holds [%] and [h] after the first directive, and the second directive,
    with [%p] in its value, is discarded without being expanded. *)
Lemma second_hostname_not_expanded :
  (self1 ← parse_line hostname_world alice_client (parse hostname_world alice_client 0)
             (at_start "config" fresh_config) "Hostname gw.%h";
   self2 ← parse_line hostname_world alice_client (parse hostname_world alice_client 0)
             self1 "Hostname %p.example.com";
   Ok (map_to_list (_tokens self1), _options self2 !! "Hostname",
       bool_decide (_options self2 = _options self1)))
  = Ok ([("%"%char, "%"); ("h"%char, "example.com")],
        Some (VStr "gw.example.com"), true).
Proof. vm_compute. reflexivity. Qed.

(** * Further properties

    What the parser does with the spelling of a line, the number of
    arguments, the criteria of [Match], the tokens, [Include], the values
    the caller gives and the kinds of the values it stores. *)

(** ** Outcomes that are computed *)

(** An outcome that is computed to be a result with a property has the
    property. *)
Lemma outcome_check {A : Type} (m : outcome A) (p : A → bool) :
  match m with Ok a => p a | _ => false end = true →
  ∃ a, m = Ok a ∧ p a = true.
Proof. destruct m as [a| |]; [eauto|done..]. Qed.

(** ** The equals sign between an option and its value *)

Lemma endswith_app (c : ascii) (a b : string) :
  b ≠ "" → PyStr.endswith c (a +:+ b) = PyStr.endswith c b.
Proof.
  intros Hb. induction a as [|x a IH]; [done|].
  rewrite str_app_cons. cbn [PyStr.endswith]. rewrite IH.
  destruct (a +:+ b) eqn:Hab; [|done].
  destruct a; [|done]. by destruct b.
Qed.

Lemma endswith_contains (c : ascii) (s : string) :
  PyStr.contains c s = false → PyStr.endswith c s = false.
Proof.
  induction s as [|x s IH]; [done|]. cbn [PyStr.contains PyStr.endswith].
  intros [Hx Hs]%orb_false_iff. destruct s; [done|]. by apply IH.
Qed.

Lemma drop_last_snoc (s : string) (c : ascii) :
  PyStr.drop_last (s +:+ String c "") = s.
Proof.
  induction s as [|x s IH]; [done|]. rewrite str_app_cons.
  cbn [PyStr.drop_last]. rewrite IH. by destruct s.
Qed.

Lemma contains_app (c : ascii) (a b : string) :
  PyStr.contains c (a +:+ b) = PyStr.contains c a || PyStr.contains c b.
Proof.
  induction a as [|x a IH]; [done|]. rewrite str_app_cons. simpl.
  by rewrite IH, orb_assoc.
Qed.

Lemma split1_app (c : ascii) (a b : string) :
  PyStr.contains c a = false →
  PyStr.split1 c (a +:+ String c b) = (a, b).
Proof.
  induction a as [|x a IH]; intros Ha.
  - simpl. by rewrite Ascii.eqb_refl.
  - rewrite str_app_cons. simpl in *. apply orb_false_iff in Ha as [-> Ha].
    by rewrite IH.
Qed.

(** X1. An option name without an equals sign and a value that is not
    empty and does not end in one: the words of [Option=value],
    [Option= value], [Option = value] and [Option =value] are all read as
    the option with the value in front of the other arguments, as are the
    words of [Option value] when the value does not begin with an equals
    sign. *)
Theorem equals_sign_spellings (option value : string) (args : list string) :
  PyStr.contains "=" option = false →
  value ≠ "" →
  PyStr.endswith "=" value = false →
  split_option (option +:+ "=" +:+ value) args = (option, value :: args) ∧
  split_option (option +:+ "=") (value :: args) = (option, value :: args) ∧
  split_option option ("=" :: value :: args) = (option, value :: args) ∧
  split_option option (("=" +:+ value) :: args) = (option, value :: args) ∧
  (PyStr.startswith "=" value = false →
   split_option option (value :: args) = (option, value :: args)).
Proof.
  intros Ho Hv He. pose proof (endswith_contains _ _ Ho) as Ho'.
  unfold split_option. split_and!.
  - rewrite endswith_app by (by destruct value).
    change ("=" +:+ value) with (String "=" value).
    cbn [PyStr.endswith]. destruct value as [|c v]; [done|]. rewrite He.
    rewrite contains_app. cbn [PyStr.contains]. rewrite Ascii.eqb_refl, orb_true_r.
    by rewrite split1_app.
  - rewrite endswith_app by done. simpl. by rewrite drop_last_snoc.
  - by rewrite Ho', Ho.
  - rewrite Ho', Ho. destruct value; done.
  - intros Hs. rewrite Ho', Ho. destruct value as [|c v]; [done|].
    simpl in Hs. simpl. rewrite Hs. done.
Qed.

Lemma equals_sign_spellings_witness :
  split_option "Port=22" [] = ("Port", ["22"]) ∧
  split_option "Port=" ["22"] = ("Port", ["22"]) ∧
  split_option "Port" ["="; "22"] = ("Port", ["22"]) ∧
  split_option "Port" ["=22"] = ("Port", ["22"]) ∧
  split_option "Port" ["22"] = ("Port", ["22"]).
Proof.
  destruct (equals_sign_spellings "Port" "22" []) as (H1 & H2 & H3 & H4 & H5);
    [reflexivity|discriminate|reflexivity|].
  split_and!; [exact H1|exact H2|exact H3|exact H4|apply H5; reflexivity].
Defined.

(** ** The letter case of an option name *)

Lemma lower_char_equals (x : ascii) :
  Ascii.eqb (PyStr.lower_char x) "=" = Ascii.eqb x "=".
Proof. by destruct x as [[] [] [] [] [] [] [] []]. Qed.

Lemma contains_lower (s : string) :
  PyStr.contains "=" (PyStr.lower s) = PyStr.contains "=" s.
Proof.
  induction s as [|x s IH]; [done|]. simpl. by rewrite lower_char_equals, IH.
Qed.

Lemma split_option_plain (option : string) (args : list string) :
  PyStr.contains "=" option = false →
  split_option option args = (option, (split_option "" args).2).
Proof.
  intros Ho. unfold split_option.
  rewrite (endswith_contains _ _ Ho), Ho. simpl.
  destruct args as [|a args]; [done|]. by repeat case_match.
Qed.

(** X2. The name of an option is read without regard to letter case: two
    lines whose words differ only in the letter case of the option name
    are processed alike, for a name that holds no equals sign and is not
    one whose argument is the rest of the line. *)
Theorem option_names_ignore_case (w : World) (cls : config_class)
    (rec : string → SSHConfig → outcome SSHConfig) (self : SSHConfig)
    (line1 line2 option1 option2 : string) (args : list string) :
  is_blank line1 = false →
  is_blank line2 = false →
  shlex_split w (PyStr.strip line1) = inr (option1 :: args) →
  shlex_split w (PyStr.strip line2) = inr (option2 :: args) →
  PyStr.lower option1 = PyStr.lower option2 →
  PyStr.contains "=" option1 = false →
  str_in (PyStr.lower option1) (_no_split cls) = false →
  parse_line w cls rec self line1 = parse_line w cls rec self line2.
Proof.
  intros Hb1 Hb2 Hs1 Hs2 Hlower Ho1 Hns.
  assert (PyStr.contains "=" option2 = false) as Ho2.
  { by rewrite <- contains_lower, <- Hlower, contains_lower. }
  unfold is_blank in Hb1, Hb2. unfold parse_line, read_directive.
  rewrite Hb1, Hb2, Hs1, Hs2. simpl.
  rewrite (split_option_plain option1), (split_option_plain option2) by done.
  by rewrite <- Hlower, Hns.
Qed.

Lemma option_names_ignore_case_witness :
  parse_line two_ports_world alice_client (parse two_ports_world alice_client 0)
    (at_start "config" fresh_config) "PORT 22"
  = parse_line two_ports_world alice_client (parse two_ports_world alice_client 0)
      (at_start "config" fresh_config) "port 22" ∧
  parse_line two_ports_world alice_client (parse two_ports_world alice_client 0)
    (at_start "config" fresh_config) "port 22"
  = Ok (store "Port" (VInt 22) (next_line (at_start "config" fresh_config))).
Proof.
  split.
  - by apply (option_names_ignore_case two_ports_world alice_client _ _
                "PORT 22" "port 22" "PORT" "port" ["22"]).
  - reflexivity.
Defined.

(** ** The number of arguments *)

Section Arguments.

Context (w : World) (cls : config_class).

Context (rec : string → SSHConfig → outcome SSHConfig).

(** A handler that takes one argument does not look at the others. *)
Lemma one_argument_rest (h : handler) (option a : string) (more : list string)
    (self self' : SSHConfig) :
  one_argument h = true →
  call_handler w cls rec h option [a] self = Ok (self', []) →
  call_handler w cls rec h option (a :: more) self = Ok (self', more).
Proof.
  intros Hh Hrun. destruct h; try discriminate Hh; simpl in *.
  - unfold _set_bool in *. simpl in *.
    apply bind_Ok in Hrun as (v & -> & Hrun). simpl in *. by simplify_eq.
  - unfold _set_int in *. simpl in *.
    apply bind_Ok in Hrun as (v & -> & Hrun). simpl in *. by simplify_eq.
  - unfold _set_string in *. simpl in *. by simplify_eq.
  - unfold _append_string in *. simpl in *.
    repeat case_match; by simplify_eq.
  - unfold _set_address_family in *. simpl in *.
    apply bind_Ok in Hrun as (v & -> & Hrun). simpl in *. by simplify_eq.
  - unfold _set_hostname in *. destruct cls; [|done]. simpl in *.
    destruct (_options self !! option); [by simplify_eq|].
    apply bind_Ok in Hrun as (hs & -> & Hrun). simpl in *.
    apply bind_Ok in Hrun as (e & -> & Hrun). simpl in *. by simplify_eq.
  - unfold _set_request_tty in *. simpl in *.
    apply bind_Ok in Hrun as (v & -> & Hrun). simpl in *. by simplify_eq.
Qed.

(** X3. A directive of a known option that reaches its handler is checked
    for the number of its arguments. Without an argument [parse_line]
    raises the configuration error [Missing <Option> value], with the name
    as the table spells it. With more arguments than one, for a handler
    that takes one and accepts the first, it raises [Extra data at end]
    with the other arguments joined by spaces; [RekeyLimit] takes two and
    raises from the third on. The message begins with the path and the
    number of the line. *)
Theorem argument_count_checked (self : SSHConfig) (line loption option : string)
    (h : handler) (args : list string) :
  directive w cls self line loption args →
  _matching self = true ∨ str_in loption (_conditionals cls) = true →
  _handlers cls !! loption = Some (option, h) →
  (args = [] →
   parse_line w cls rec self line
   = Raise (ConfigParseError
              (_path self +:+ " line " +:+ pretty (S (_line_no self))
               +:+ ": Missing " +:+ option +:+ " value"))) ∧
  (∀ a b rest self',
     args = a :: b :: rest →
     one_argument h = true →
     call_handler w cls rec h option [a] (next_line self) = Ok (self', []) →
     parse_line w cls rec self line
     = Raise (ConfigParseError
                (_path self +:+ " line " +:+ pretty (S (_line_no self))
                 +:+ ": Extra data at end: " +:+ PyStr.join " " (b :: rest)))) ∧
  (∀ a b c rest,
     args = a :: b :: c :: rest →
     h = H_set_rekey_limits →
     parse_line w cls rec self line
     = Raise (ConfigParseError
                (_path self +:+ " line " +:+ pretty (S (_line_no self))
                 +:+ ": Extra data at end: " +:+ PyStr.join " " (c :: rest)))).
Proof.
  intros Hd Hm Hh.
  rewrite (parse_line_dispatch w cls rec _ _ _ _ _ _ Hd Hm Hh). split_and!.
  - by intros ->.
  - intros a b rest self' -> Hone Hrun.
    rewrite (one_argument_rest _ _ _ (b :: rest) _ _ Hone Hrun).
    assert (h ≠ H_include) as Hne by (by intros ->).
    apply (handler_frame w cls rec _ _ _ _ _ _ Hne) in Hrun as (Hp & Hl & _).
    cbn [mbind outcome_bind]. unfold _error. by rewrite Hp, Hl.
  - intros a b c rest -> ->. simpl. unfold _set_rekey_limits. simpl.
    unfold _error, store_if_unset.
    by destruct (_options (next_line self) !! option).
Qed.

End Arguments.

Lemma argument_count_checked_witness :
  parse_line malformed_world alice_client (parse malformed_world alice_client 0)
    (at_start "port" fresh_config) "Port"
  = Raise (ConfigParseError "port line 1: Missing Port value") ∧
  parse_line malformed_world alice_client (parse malformed_world alice_client 0)
    (at_start "port" fresh_config) "Port 22 23 24"
  = Raise (ConfigParseError "port line 1: Extra data at end: 23 24") ∧
  parse_line malformed_world alice_client (parse malformed_world alice_client 0)
    (at_start "port" fresh_config) "RekeyLimit 1G 1h now"
  = Raise (ConfigParseError "port line 1: Extra data at end: now").
Proof.
  split_and!.
  - destruct (argument_count_checked malformed_world alice_client
                (parse malformed_world alice_client 0)
                (at_start "port" fresh_config) "Port" "port" "Port" H_set_int [])
      as (H & _ & _);
      [by split|by left|by vm_compute|].
    by apply H.
  - destruct (argument_count_checked malformed_world alice_client
                (parse malformed_world alice_client 0)
                (at_start "port" fresh_config) "Port 22 23 24" "port" "Port"
                H_set_int ["22"; "23"; "24"])
      as (_ & H & _);
      [by split|by left|by vm_compute|].
    eapply (H "22" "23" ["24"]); [reflexivity|reflexivity|].
    vm_compute. reflexivity.
  - destruct (argument_count_checked malformed_world alice_client
                (parse malformed_world alice_client 0)
                (at_start "port" fresh_config) "RekeyLimit 1G 1h now" "rekeylimit"
                "RekeyLimit" H_set_rekey_limits ["1G"; "1h"; "now"])
      as (_ & _ & H);
      [by split|by left|by vm_compute|].
    by apply (H "1G" "1h" "now" []).
Defined.

(** ** Lines that no handler sees *)

Section Unseen.

Context (w : World) (cls : config_class).

Lemma tokens_buildable_same_options (s s' : SSHConfig) :
  _options s' = _options s → tokens_buildable cls s → tokens_buildable cls s'.
Proof. unfold tokens_buildable, get. destruct cls; [|done]. by intros ->. Qed.

Lemma unknown_lines_counted (rec : string → SSHConfig → outcome SSHConfig)
    (lines : list string) :
  Forall (λ line, is_blank line = true ∨
                  ∃ loption args, (∀ s, directive w cls s line loption args) ∧
                                  _handlers cls !! loption = None) lines →
  ∀ self,
    for_each (parse_line w cls rec) lines self
    = Ok (set_line_no (_line_no self + length lines) self).
Proof.
  induction 1 as [|line lines Hline _ IH]; intros self.
  - simpl. rewrite Nat.add_0_r. by destruct self.
  - simpl.
    assert (parse_line w cls rec self line = Ok (next_line self)) as ->.
    { destruct Hline as [Hb|(lo & args & Hd & Hh)].
      - by apply parse_line_blank.
      - by eapply parse_line_unknown. }
    simpl. rewrite IH. unfold next_line, set_line_no. simpl.
    f_equal. f_equal. lia.
Qed.

(** X4. A file of blank lines, comments and directives whose option the
    table of the class does not hold is parsed without error, whatever the
    arguments of those directives, and leaves the options as they were:
    [parse] returns, with every line counted. The options the file finds
    are such that the expansion at the end of the file changes none. *)
Theorem unknown_options_ignored (fuel : nat) (path : string)
    (file : list string) (self : SSHConfig) :
  read_lines w path = Some file →
  Forall (λ line, is_blank line = true ∨
                  ∃ loption args, (∀ s, directive w cls s line loption args) ∧
                                  _handlers cls !! loption = None) file →
  expansion_neutral cls self →
  ∃ self',
    parse w cls (S fuel) path self = Ok self' ∧
    _options self' = _options self ∧
    _line_no self' = length file ∧
    _matching self' = true.
Proof.
  intros Hfile Hlines [Hbuild Hplain]. simpl. rewrite Hfile.
  rewrite (unknown_lines_counted _ _ Hlines). simpl.
  set (s1 := set_line_no _ _).
  destruct (set_tokens_buildable w cls s1) as (tok & Htok & Ho & Hm).
  { by apply (tokens_buildable_same_options self). }
  rewrite Htok. simpl. rewrite expand_options_plain.
  - exists tok. split_and!; [done|done| |done].
    unfold _set_tokens in Htok. destruct cls.
    + apply bind_Ok in Htok as (? & _ & Htok).
      apply bind_Ok in Htok as (? & _ & Htok). by simplify_eq/=.
    + by simplify_eq/=.
  - intros o v Hin. rewrite Ho. by apply Hplain.
Qed.

(** X5. A line that the tokenizer refuses makes [parse] raise the
    configuration error with the message of the tokenizer, the path of
    the file and the number of the line, also when the line stands in a
    block that does not match, and whatever option it names. No [Include]
    directive precedes the line. *)
Theorem tokenizer_error_not_skipped (fuel : nat) (path line msg : string)
    (pre post : list string) (self0 self1 : SSHConfig) :
  read_lines w path = Some (pre ++ line :: post) →
  Forall (λ l, ∀ s args, ¬ directive w cls s l "include" args) pre →
  for_each (parse_line w cls (parse w cls fuel)) pre (at_start path self0)
    = Ok self1 →
  is_blank line = false →
  shlex_split w (PyStr.strip line) = inl msg →
  parse w cls (S fuel) path self0
  = Raise (ConfigParseError
             (path +:+ " line " +:+ pretty (S (length pre)) +:+ ": " +:+ msg)).
Proof.
  intros Hfile Hinc Hpre Hb Hsplit.
  pose proof (lines_path _ _ _ _ _ _ Hpre) as Hpath.
  pose proof (lines_counter _ _ _ _ _ _ Hinc Hpre) as Hcount.
  simpl in Hpath, Hcount.
  eapply parse_raises_at_line; [done..|].
  unfold parse_line. unfold is_blank in Hb. rewrite Hb.
  unfold read_directive. rewrite Hsplit. simpl. unfold _error. simpl.
  by rewrite Hpath, Hcount.
Qed.

End Unseen.

Lemma unknown_options_ignored_witness :
  ∃ self',
    parse match_world alice_client 1 "unknown" fresh_config = Ok self' ∧
    _options self' = _options fresh_config ∧
    _line_no self' = 4 ∧
    _matching self' = true.
Proof.
  apply (unknown_options_ignored match_world alice_client 0 "unknown"
           ["# local"; "ColorScheme dark"; ""; "VisualHostKey"] fresh_config).
  - reflexivity.
  - apply Forall_cons_2; [by left|].
    apply Forall_cons_2.
    { right. exists "colorscheme", ["dark"]. split; [by intros s; split|done]. }
    apply Forall_cons_2; [by left|].
    apply Forall_cons_2; [|by apply Forall_nil].
    right. exists "visualhostkey", []. split; [by intros s; split|done].
  - split.
    + split; eexists; reflexivity.
    + intros o v _ Hv. change ((∅ : gmap string value) !! o = Some v) in Hv.
      by rewrite lookup_empty in Hv.
Defined.

Lemma tokenizer_error_not_skipped_witness :
  parse quoting_world alice_client 1 "quoted" fresh_config
  = Raise (ConfigParseError "quoted line 2: No closing quotation").
Proof.
  apply (tokenizer_error_not_skipped quoting_world alice_client 0 "quoted"
           "ColorScheme 'dark" "No closing quotation" ["Host other.example"] []
           fresh_config
           (set_matching false (next_line (at_start "quoted" fresh_config)))).
  - reflexivity.
  - apply Forall_cons_2; [|by apply Forall_nil].
    intros s args [_ Hread]. by vm_compute in Hread.
  - vm_compute. reflexivity.
  - reflexivity.
  - reflexivity.
Defined.

(** ** The criteria of a Match line *)

Section MatchLine.

Context (w : World) (cls : config_class).

Lemma _match_val_flag (b : bool) (self : SSHConfig) (match_ : string) :
  _match_val cls (set_matching b self) match_ = _match_val cls self match_.
Proof. by destruct cls. Qed.

Lemma criterion_verdict_flag (b : bool) (self : SSHConfig) (c : criterion) :
  criterion_verdict w cls (set_matching b self) c = criterion_verdict w cls self c.
Proof. destruct c; [done|]. simpl. by rewrite _match_val_flag. Qed.

Lemma set_matching_twice (b b' : bool) (self : SSHConfig) :
  set_matching b (set_matching b' self) = set_matching b self.
Proof. done. Qed.

(** One criterion of the loop of [_match]. *)
Lemma _match_criterion (option : string) (c : criterion) (rest : list string)
    (self : SSHConfig) (b : bool) :
  criterion_formed c →
  criterion_verdict w cls self c = Some b →
  _match w cls option (criterion_words c ++ rest) self
  = if b then _match w cls option rest (set_matching true self)
    else Ok (set_matching false self, []).
Proof.
  intros Hf Hv. destruct c as [word|keyword pattern]; simpl in *.
  - rewrite Hf. simpl. by simplify_eq.
  - apply String.eqb_neq in Hf. rewrite Hf.
    destruct (String.eqb (PyStr.lower keyword) "exec") eqn:Hexec.
    + simpl. simplify_eq. by destruct (exec_ok w pattern).
    + destruct (_match_val cls self (PyStr.lower keyword)) eqn:Hval;
        try discriminate Hv. simpl. simplify_eq.
      by destruct (_ || _); simpl; case_match.
Qed.

Lemma _match_criteria (option : string) (cs : list criterion)
    (rest : list string) :
  ∀ self,
    Forall criterion_formed cs →
    Forall (λ c, criterion_verdict w cls self c = Some true) cs →
    _match w cls option (concat (map criterion_words cs) ++ rest) self
    = _match w cls option rest
        (match cs with [] => self | _ :: _ => set_matching true self end).
Proof.
  induction cs as [|c cs IH]; intros self Hf Hv; [done|].
  apply Forall_cons in Hf as [Hc Hf]. apply Forall_cons in Hv as [Hvc Hv].
  simpl. rewrite <- List.app_assoc.
  rewrite (_match_criterion option c _ self true) by done.
  rewrite IH; [by destruct cs|done|].
  eapply Forall_impl; [exact Hv|]. intros c'. by rewrite criterion_verdict_flag.
Qed.

(** X6. The criteria of a [Match] line are taken together: when each of
    them has a verdict, the line sets the matching flag to true if every
    criterion holds and to false otherwise, whatever the flag was, and
    consumes all its words. The word [all] holds; a keyword holds when its
    pattern matches the string that [_match_val] gives for it; [exec]
    holds when the command succeeds. *)
Theorem match_is_conjunction (option : string) (cs : list criterion)
    (self : SSHConfig) :
  cs ≠ [] →
  Forall criterion_formed cs →
  Forall (λ c, is_Some (criterion_verdict w cls self c)) cs →
  _match w cls option (concat (map criterion_words cs)) self
  = Ok (set_matching
          (forallb (λ c, bool_decide (criterion_verdict w cls self c = Some true)) cs)
          self, []).
Proof.
  intros Hne Hf Hv.
  assert (Hgen : ∀ self,
    Forall (λ c, is_Some (criterion_verdict w cls self c)) cs →
    _match w cls option (concat (map criterion_words cs)) self
    = Ok (match cs with
          | [] => self
          | _ :: _ =>
              set_matching
                (forallb (λ c, bool_decide (criterion_verdict w cls self c = Some true))
                   cs) self
          end, [])).
  { clear Hv Hne self. induction cs as [|c cs IH]; intros self Hv; [done|].
    apply Forall_cons in Hf as [Hc Hf]. apply Forall_cons in Hv as [[b Hb] Hv].
    cbn [map concat forallb].
    rewrite (_match_criterion option c _ self b) by done. rewrite Hb.
    destruct b.
    - rewrite IH; [|done|].
      + rewrite bool_decide_true by done. simpl.
        destruct cs as [|c' cs]; [done|]. rewrite set_matching_twice.
        reflexivity.
      + eapply Forall_impl; [exact Hv|]. intros c'.
        by rewrite criterion_verdict_flag.
    - by rewrite bool_decide_false. }
  rewrite Hgen by done. by destruct cs.
Qed.

(** X7. [_match] stops at the first criterion that fails: the flag is
    false, nothing is raised, and the words after that criterion are not
    looked at, be they criteria or not. *)
Theorem match_stops_at_failure (option keyword pattern : string)
    (cs : list criterion) (junk : list string) (self : SSHConfig) :
  Forall criterion_formed cs →
  Forall (λ c, criterion_verdict w cls self c = Some true) cs →
  PyStr.lower keyword ≠ "all" →
  criterion_verdict w cls self (Test keyword pattern) = Some false →
  _match w cls option
    (concat (map criterion_words cs) ++ keyword :: pattern :: junk) self
  = Ok (set_matching false self, []).
Proof.
  intros Hf Hv Hk Hfail. rewrite _match_criteria by done.
  rewrite (_match_criterion option (Test keyword pattern) junk _ false); [|done|].
  - by destruct cs.
  - destruct cs; [done|]. by rewrite criterion_verdict_flag.
Qed.

(** X8. After criteria that hold, a keyword for which [_match_val] gives
    [None] raises the configuration error [Invalid match condition], and
    a keyword that ends the line raises [Missing <keyword> match pattern],
    both with the path and the number of the line. *)
Theorem match_malformed (option keyword : string) (cs : list criterion)
    (junk : list string) (self : SSHConfig) :
  Forall criterion_formed cs →
  Forall (λ c, criterion_verdict w cls self c = Some true) cs →
  PyStr.lower keyword ≠ "all" →
  (PyStr.lower keyword ≠ "exec" →
   _match_val cls self (PyStr.lower keyword) = VNone →
   _match w cls option (concat (map criterion_words cs) ++ keyword :: junk) self
   = Raise (ConfigParseError
              (_path self +:+ " line " +:+ pretty (_line_no self)
               +:+ ": Invalid match condition"))) ∧
  (PyStr.lower keyword = "exec" ∨
   _match_val cls self (PyStr.lower keyword) ≠ VNone →
   _match w cls option (concat (map criterion_words cs) ++ [keyword]) self
   = Raise (ConfigParseError
              (_path self +:+ " line " +:+ pretty (_line_no self)
               +:+ ": Missing " +:+ PyStr.lower keyword +:+ " match pattern"))).
Proof.
  intros Hf Hv Hk. apply String.eqb_neq in Hk.
  split.
  - intros Hexec Hnone. apply String.eqb_neq in Hexec.
    rewrite _match_criteria by done. cbn [_match]. rewrite Hk, Hexec.
    destruct cs; [|rewrite _match_val_flag]; by rewrite Hnone.
  - intros Hval. rewrite _match_criteria by done. cbn [_match]. rewrite Hk.
    assert (negb (String.eqb (PyStr.lower keyword) "exec") &&
            is_none (_match_val cls self (PyStr.lower keyword)) = false) as Hok.
    { destruct Hval as [->|Hval]; [done|].
      destruct (_match_val cls self (PyStr.lower keyword)); try done.
      by rewrite andb_false_r. by rewrite andb_false_r. by rewrite andb_false_r.
      by rewrite andb_false_r. by rewrite andb_false_r. by rewrite andb_false_r. }
    destruct cs; [|rewrite _match_val_flag]; by rewrite Hok.
Qed.

End MatchLine.

Lemma match_is_conjunction_witness :
  _match match_world alice_client "Match"
    ["originalhost"; "example.com"; "ALL"; "user"; "alice"] fresh_config
  = Ok (set_matching true fresh_config, []) ∧
  _match match_world alice_client "Match"
    ["originalhost"; "example.com"; "user"; "bob"] fresh_config
  = Ok (set_matching false fresh_config, []).
Proof.
  split.
  - apply (match_is_conjunction match_world alice_client "Match"
             [Test "originalhost" "example.com"; All "ALL"; Test "user" "alice"]
             fresh_config); [done| |].
    + repeat (apply Forall_cons_2; [by vm_compute|]). by apply Forall_nil.
    + repeat (apply Forall_cons_2; [vm_compute; eauto|]). by apply Forall_nil.
  - apply (match_is_conjunction match_world alice_client "Match"
             [Test "originalhost" "example.com"; Test "user" "bob"]
             fresh_config); [done| |].
    + repeat (apply Forall_cons_2; [by vm_compute|]). by apply Forall_nil.
    + repeat (apply Forall_cons_2; [vm_compute; eauto|]). by apply Forall_nil.
Defined.

Lemma match_stops_at_failure_witness :
  _match match_world alice_client "Match" ["user"; "bob"; "bogus"] fresh_config
  = Ok (set_matching false fresh_config, []).
Proof.
  apply (match_stops_at_failure match_world alice_client "Match" "user" "bob"
           [] ["bogus"] fresh_config).
  - by apply Forall_nil.
  - by apply Forall_nil.
  - by vm_compute.
  - by vm_compute.
Defined.

Lemma match_malformed_witness :
  _match match_world alice_client "Match" ["user"; "alice"; "bogus"; "x"]
    (next_line (at_start "config" fresh_config))
  = Raise (ConfigParseError "config line 1: Invalid match condition") ∧
  _match match_world alice_client "Match" ["user"; "alice"; "host"]
    (next_line (at_start "config" fresh_config))
  = Raise (ConfigParseError "config line 1: Missing host match pattern").
Proof.
  split.
  - destruct (match_malformed match_world alice_client "Match" "bogus"
                [Test "user" "alice"] ["x"]
                (next_line (at_start "config" fresh_config))) as [H _].
    + repeat (apply Forall_cons_2; [by vm_compute|]). by apply Forall_nil.
    + repeat (apply Forall_cons_2; [by vm_compute|]). by apply Forall_nil.
    + by vm_compute.
    + apply H; by vm_compute.
  - destruct (match_malformed match_world alice_client "Match" "host"
                [Test "user" "alice"] []
                (next_line (at_start "config" fresh_config))) as [_ H].
    + repeat (apply Forall_cons_2; [by vm_compute|]). by apply Forall_nil.
    + repeat (apply Forall_cons_2; [by vm_compute|]). by apply Forall_nil.
    + by vm_compute.
    + apply H. right. by vm_compute.
Defined.

(** X9. After a [Hostname] directive has stored a name, [Match host]
    tests its pattern on that name, while [Host] and [Match originalhost]
    test theirs on the host that the caller asked for. *)
Theorem host_tests_after_hostname (w : World) (local_user host name : string)
    (pattern option : string) (self self1 : SSHConfig) (rest : list string) :
  _options self !! "Hostname" = None →
  _set_hostname (SSHClientConfig local_user host) "Hostname" [name] self
    = Ok (self1, rest) →
  ∃ stored,
    _options self1 !! "Hostname" = Some (VStr stored) ∧
    (percent_free name → stored = name) ∧
    _match w (SSHClientConfig local_user host) option ["host"; pattern] self1
    = Ok (set_matching (wildcard_matches w pattern stored) self1, []) ∧
    _match w (SSHClientConfig local_user host) option ["originalhost"; pattern]
      self1
    = Ok (set_matching (wildcard_matches w pattern host) self1, []) ∧
    _match_host w (SSHClientConfig local_user host) option [pattern] self1
    = Ok (set_matching (wildcard_matches w pattern host) self1, []).
Proof.
  intros Hunset Hrun. unfold _set_hostname in Hrun. simpl in Hrun.
  rewrite Hunset in Hrun.
  apply bind_Ok in Hrun as (hs & _ & Hrun).
  apply bind_Ok in Hrun as (stored & Hexp & Hrun). injection Hrun as <- <-.
  exists stored. split_and!.
  - simpl. by rewrite lookup_insert_eq.
  - intros Hplain. unfold _expand_val in Hexp.
    rewrite expand_val_plain in Hexp by done. by injection Hexp.
  - cbn [_match]. simpl. unfold get. simpl. rewrite lookup_insert_eq. simpl.
    by destruct (wildcard_matches w pattern stored).
  - cbn [_match]. simpl.
    by destruct (wildcard_matches w pattern host).
  - done.
Qed.

Lemma host_tests_after_hostname_witness :
  ∃ self1,
    _set_hostname alice_client "Hostname" ["gw.example.net"] fresh_config
    = Ok (self1, []) ∧
    _match match_world alice_client "Match" ["host"; "gw.example.net"] self1
    = Ok (set_matching true self1, []) ∧
    _match_host match_world alice_client "Host" ["gw.example.net"] self1
    = Ok (set_matching false self1, []).
Proof.
  destruct (_set_hostname alice_client "Hostname" ["gw.example.net"] fresh_config)
    as [[self1 rest]| |] eqn:Hrun; [|by vm_compute in Hrun..].
  destruct (host_tests_after_hostname match_world "alice" "example.com"
              "gw.example.net" "gw.example.net" "Match" fresh_config self1 rest)
    as (stored & _ & Hs & Hm & _ & _); [done|exact Hrun|].
  rewrite Hs in Hm by reflexivity.
  destruct (host_tests_after_hostname match_world "alice" "example.com"
              "gw.example.net" "gw.example.net" "Host" fresh_config self1 rest)
    as (stored' & _ & _ & _ & _ & Hh); [done|exact Hrun|].
  exists self1. split_and!.
  - vm_compute in Hrun. injection Hrun as <- <-. reflexivity.
  - exact Hm.
  - exact Hh.
Defined.

(** ** Options of a client *)

(** X10. [RemoteCommand] takes the rest of the line as it is written: the
    text after the first thirteen characters of the stripped line,
    stripped again, is the one argument, whatever the tokenizer made of the
    line. The words are not split, an equals sign between the name and the
    value stays in the value, and a line with the name alone stores the
    empty string; neither [Missing RemoteCommand value] nor
    [Extra data at end] is raised. *)
Theorem remote_command_takes_rest_of_line (w : World)
    (local_user host : string)
    (rec : string → SSHConfig → outcome SSHConfig) (self : SSHConfig)
    (line : string) (args : list string) :
  directive w (SSHClientConfig local_user host) self line "remotecommand" args →
  _matching self = true →
  _options self !! "RemoteCommand" = None →
  args = [PyStr.strip (PyStr.drop 13 (PyStr.lstrip (PyStr.strip line)))] ∧
  parse_line w (SSHClientConfig local_user host) rec self line
  = Ok (store "RemoteCommand"
          (if String.eqb
                (PyStr.lower
                   (PyStr.strip (PyStr.drop 13 (PyStr.lstrip (PyStr.strip line)))))
                "none"
           then VNone
           else VStr (PyStr.strip (PyStr.drop 13 (PyStr.lstrip (PyStr.strip line)))))
          (next_line self)).
Proof.
  intros Hd Hm Hunset.
  assert (args = [PyStr.strip (PyStr.drop 13 (PyStr.lstrip (PyStr.strip line)))])
    as Hargs.
  { destruct Hd as [_ Hread]. unfold read_directive in Hread.
    apply bind_Ok in Hread as (words & _ & Hread).
    apply bind_Ok in Hread as ([option words'] & _ & Hread).
    destruct (split_option option words') as [option' args'].
    injection Hread as Hlo <-. rewrite Hlo. done. }
  split; [done|]. subst args.
  rewrite (parse_line_dispatch w _ rec _ _ "remotecommand" "RemoteCommand"
             H_set_string _ Hd (or_introl Hm)) by done.
  cbn [call_handler]. unfold _set_string. simpl.
  by rewrite store_if_unset_unset.
Qed.

Lemma remote_command_takes_rest_of_line_witness :
  parse_line match_world alice_client (parse match_world alice_client 0)
    (at_start "command" fresh_config) "RemoteCommand = tmux   attach"
  = Ok (store "RemoteCommand" (VStr "= tmux   attach")
          (next_line (at_start "command" fresh_config))).
Proof.
  destruct (remote_command_takes_rest_of_line match_world "alice" "example.com"
              (parse match_world alice_client 0) (at_start "command" fresh_config)
              "RemoteCommand = tmux   attach"
              ["= tmux   attach"]) as [_ H]; [by split|done|done|].
  exact H.
Defined.

(** X11. [User none] stores [None] for the user. The token [%r] is then
    the local user, and a later [Match user] raises the configuration
    error [Invalid match condition], because [_match_val] gives [None]. *)
Theorem user_none (w : World) (local_user host a option : string)
    (self : SSHConfig) :
  PyStr.lower a = "none" →
  _options self !! "User" = None →
  (∃ s, get self "Hostname" (VStr host) = VStr s) →
  _set_string "User" [a] self = Ok (store "User" VNone self, []) ∧
  (∃ tok,
     _set_tokens w (SSHClientConfig local_user host) (store "User" VNone self)
     = Ok tok ∧
     _tokens tok !! "r"%char = Some local_user) ∧
  (∀ keyword junk,
     PyStr.lower keyword = "user" →
     _match w (SSHClientConfig local_user host) option (keyword :: junk)
       (store "User" VNone self)
     = Raise (ConfigParseError
                (_path self +:+ " line " +:+ pretty (_line_no self)
                 +:+ ": Invalid match condition"))).
Proof.
  intros Ha Hunset [hs Hhs]. split_and!.
  - unfold _set_string. simpl. rewrite Ha. simpl.
    by rewrite store_if_unset_unset.
  - unfold _set_tokens, get in *. simpl.
    rewrite (lookup_insert_ne _ "User" "Hostname") by done.
    rewrite lookup_insert_eq. simpl in Hhs. rewrite Hhs. simpl.
    eexists. split; [done|]. simpl.
    destruct (getuid w); destruct (negb _);
      rewrite ?lookup_insert_ne by done;
      by rewrite lookup_insert_eq.
  - intros keyword junk Hk. cbn [_match]. rewrite Hk. simpl.
    unfold get. simpl. by rewrite lookup_insert_eq.
Qed.

Lemma user_none_witness :
  _set_string "User" ["NONE"] fresh_config
  = Ok (store "User" VNone fresh_config, []) ∧
  (∃ tok,
     _set_tokens match_world alice_client (store "User" VNone fresh_config)
     = Ok tok ∧
     _tokens tok !! "r"%char = Some "alice") ∧
  (∀ keyword junk,
     PyStr.lower keyword = "user" →
     _match match_world alice_client "Match" (keyword :: junk)
       (store "User" VNone fresh_config)
     = Raise (ConfigParseError ". line 0: Invalid match condition")).
Proof.
  apply (user_none match_world "alice" "example.com" "NONE" "Match" fresh_config).
  - reflexivity.
  - reflexivity.
  - eexists. reflexivity.
Defined.

Lemma find_split (c : ascii) (s : string) :
  match PyStr.find c s with
  | Some idx =>
      PyStr.contains c (PyStr.take idx s) = false ∧
      s = PyStr.take idx s +:+ String c (PyStr.drop (S idx) s)
  | None => PyStr.contains c s = false
  end.
Proof.
  induction s as [|x s IH]; [done|]. simpl.
  destruct (Ascii.eqb x c) eqn:Hx.
  - apply Ascii.eqb_eq in Hx as ->. simpl. split; [done|]. by destruct s.
  - destruct (PyStr.find c s) as [idx|]; simpl.
    + destruct IH as [Hc Hs]. rewrite Hx. simpl. split; [done|].
      rewrite str_app_cons. f_equal. exact Hs.
    + exact IH.
Qed.

(** X12. Of the tokens of a client, [%l] is the name of the local host
    and [%L] is that name up to its first dot: [%L] has no dot, and [%l]
    is [%L] alone or [%L] followed by a dot and the rest of the name. *)
Theorem local_host_tokens (w : World) (local_user host : string)
    (self tok : SSHConfig) :
  _set_tokens w (SSHClientConfig local_user host) self = Ok tok →
  ∃ short,
    _tokens tok !! "l"%char = Some (gethostname w) ∧
    _tokens tok !! "L"%char = Some short ∧
    PyStr.contains "." short = false ∧
    (gethostname w = short ∨
     ∃ domain, gethostname w = short +:+ String "." domain).
Proof.
  unfold _set_tokens. intros Hrun.
  apply bind_Ok in Hrun as (hs & _ & Hrun).
  apply bind_Ok in Hrun as (us & _ & Hrun). injection Hrun as <-.
  pose proof (find_split "." (gethostname w)) as Hfind.
  cbn [_tokens set_tokens].
  exists (match PyStr.find "." (gethostname w) with
          | Some idx => PyStr.take idx (gethostname w)
          | None => gethostname w
          end).
  split_and!.
  - destruct (getuid w); destruct (negb _);
      rewrite ?lookup_insert_ne by done; by rewrite lookup_insert_eq.
  - destruct (getuid w); destruct (negb _);
      rewrite ?lookup_insert_ne by done; by rewrite lookup_insert_eq.
  - by destruct (PyStr.find "." (gethostname w)); [destruct Hfind|].
  - destruct (PyStr.find "." (gethostname w)) as [idx|]; [|by left].
    right. destruct Hfind as [_ Hs]. eauto.
Qed.

Lemma local_host_tokens_witness :
  ∃ tok short,
    _set_tokens (one_word_world []) alice_client fresh_config = Ok tok ∧
    _tokens tok !! "l"%char = Some "laptop.example.org" ∧
    _tokens tok !! "L"%char = Some short ∧
    PyStr.contains "." short = false ∧
    ("laptop.example.org" = short ∨
     ∃ domain, "laptop.example.org" = short +:+ String "." domain).
Proof.
  destruct (outcome_check
              (_set_tokens (one_word_world []) alice_client fresh_config)
              (λ _, true)) as (tok & Htok & _); [vm_compute; reflexivity|].
  destruct (local_host_tokens _ _ _ _ _ Htok) as (short & Hl & HL & Hc & Hs).
  exists tok, short. split_and!; [exact Htok|exact Hl|exact HL|exact Hc|exact Hs].
Defined.

(** ** Integers written in decimal *)

Lemma digit_char (m : N) :
  (m < 10)%N →
  Ascii.eqb (pretty_N_char m) "_" = false ∧
  Ascii.is_nat (pretty_N_char m) = Some (N.to_nat m).
Proof.
  intros Hm.
  assert (m = 0 ∨ m = 1 ∨ m = 2 ∨ m = 3 ∨ m = 4 ∨ m = 5 ∨ m = 6 ∨ m = 7
          ∨ m = 8 ∨ m = 9)%N as Hcases by lia.
  repeat (destruct Hcases as [->|Hcases]; [by vm_compute|]). subst m.
  by vm_compute.
Qed.

Lemma int_digits_digit (acc : Z) (b : bool) (m : N) (t : string) :
  (m < 10)%N →
  PyStr.int_digits acc b (String (pretty_N_char m) t)
  = PyStr.int_digits (10 * acc + Z.of_N m) true t.
Proof.
  intros Hm. destruct (digit_char m Hm) as [Hu Hd].
  cbn [PyStr.int_digits]. rewrite Hu, Hd. by rewrite N_nat_Z.
Qed.

Lemma all_digits_app (a b : string) :
  all_digits (a +:+ b) = all_digits a && all_digits b.
Proof.
  induction a as [|c a IH]; [done|]. rewrite str_app_cons. simpl.
  by rewrite IH, andb_assoc.
Qed.

(** The digits that [pretty] writes for a positive number are read back
    as that number. *)
Lemma pretty_N_go_digits (x : N) :
  (0 < x)%N →
  ∃ (d : string) (k : nat),
    (∀ s, pretty_N_go x s = d +:+ s) ∧ all_digits d = true ∧ d ≠ "" ∧
    ∀ t acc b,
      PyStr.int_digits acc b (d +:+ t)
      = PyStr.int_digits (acc * 10 ^ Z.of_nat k + Z.of_N x) true t.
Proof.
  induction (N.lt_wf_0 x) as [x _ IH]. intros Hx.
  assert (x `mod` 10 < 10)%N as Hmod by (by apply N.mod_lt).
  destruct (digit_char _ Hmod) as [Hu Hd].
  destruct (decide (x `div` 10 = 0)%N) as [Hz|Hnz].
  - exists (String (pretty_N_char (x `mod` 10)) ""), 1. split_and!.
    + intros s. by rewrite pretty_N_go_step, Hz, pretty_N_go_0.
    + simpl. rewrite Hd. by rewrite bool_decide_true by eauto.
    + done.
    + intros t acc b. rewrite str_app_cons, str_app_nil_l.
      rewrite int_digits_digit by done. f_equal.
      pose proof (N.div_mod x 10 ltac:(done)) as Hdm. rewrite Hz in Hdm.
      change (10 ^ Z.of_nat 1)%Z with 10%Z. rewrite Hdm at 2. clear. lia.
  - destruct (IH (x `div` 10)%N) as (d & k & Hgo & Hall & Hne & Hint).
    { by apply N.div_lt. }
    { by apply N.neq_0_lt_0. }
    exists (d +:+ String (pretty_N_char (x `mod` 10)) ""), (S k).
    split_and!.
    + intros s. rewrite pretty_N_go_step, Hgo by done.
      by rewrite str_app_assoc.
    + rewrite all_digits_app, Hall. simpl. rewrite Hd.
      by rewrite bool_decide_true by eauto.
    + by destruct d.
    + intros t acc b. rewrite str_app_assoc, str_app_cons, str_app_nil_l.
      rewrite Hint, int_digits_digit by done. f_equal.
      rewrite Nat2Z.inj_succ, Z.pow_succ_r by lia.
      pose proof (N.div_mod x 10 ltac:(done)) as Hdm.
      rewrite Hdm at 3. clear. lia.
Qed.

Lemma digit_not_space (c : ascii) :
  is_Some (Ascii.is_nat c) → PyStr.isspace c = false.
Proof.
  destruct c as [[] [] [] [] [] [] [] []]; try reflexivity; by intros [? [=]].
Qed.

Lemma rstrip_digits (d : string) : all_digits d = true → PyStr.rstrip d = d.
Proof.
  induction d as [|c d IH]; [done|]. simpl.
  intros [Hc Hd]%andb_true_iff. apply bool_decide_eq_true in Hc.
  rewrite IH by done. destruct d; [|done].
  by rewrite digit_not_space.
Qed.

Lemma strip_digits (d : string) : all_digits d = true → PyStr.strip d = d.
Proof.
  intros Hd. unfold PyStr.strip. destruct d as [|c d]; [done|].
  pose proof Hd as Hd'. simpl in Hd'.
  apply andb_true_iff in Hd' as [Hc _]. apply bool_decide_eq_true in Hc.
  cbn [PyStr.lstrip]. rewrite digit_not_space by done. by apply rstrip_digits.
Qed.

Lemma strip_minus_digits (d : string) :
  all_digits d = true → d ≠ "" →
  PyStr.strip (String "-" d) = String "-" d.
Proof.
  intros Hd Hne. unfold PyStr.strip.
  change (PyStr.lstrip (String "-" d)) with (String "-" d).
  cbn [PyStr.rstrip]. rewrite rstrip_digits by done. by destruct d.
Qed.

Lemma int_head_digit (c : ascii) (d : string) :
  is_Some (Ascii.is_nat c) →
  PyStr.strip (String c d) = String c d →
  PyStr.int (String c d) = PyStr.int_digits 0 false (String c d).
Proof.
  intros Hc Hs. unfold PyStr.int. rewrite Hs.
  destruct c as [[] [] [] [] [] [] [] []]; try reflexivity;
    by destruct Hc as [? [=]].
Qed.

(** [int(str(n))] is [n]. *)
Lemma int_pretty (n : Z) : PyStr.int (pretty n) = Some n.
Proof.
  destruct n as [|p|p].
  - by vm_compute.
  - unfold pretty, pretty_Z, pretty, pretty_positive, pretty, pretty_N.
    rewrite decide_False by done.
    destruct (pretty_N_go_digits (N.pos p)) as (d & k & Hgo & Hall & Hne & Hint);
      [done|].
    rewrite Hgo, str_app_nil_r.
    destruct d as [|c d]; [done|].
    rewrite int_head_digit.
    + rewrite <- (str_app_nil_r (String c d)), Hint. simpl. by f_equal.
    + simpl in Hall. apply andb_true_iff in Hall as [Hc _].
      by apply bool_decide_eq_true in Hc.
    + by apply strip_digits.
  - unfold pretty, pretty_Z, pretty, pretty_positive, pretty, pretty_N.
    rewrite decide_False by done.
    destruct (pretty_N_go_digits (N.pos p)) as (d & k & Hgo & Hall & Hne & Hint);
      [done|].
    rewrite Hgo, str_app_nil_r.
    change ("-" +:+ d) with (String "-" d).
    unfold PyStr.int. rewrite strip_minus_digits by done.
    rewrite <- (str_app_nil_r d), Hint. simpl. by f_equal.
Qed.



(** ** A percent sign that is meant *)

(** X14. A text in which every percent sign is written twice expands to
    the text with single percent signs, whatever the other tokens are:
    [%%] is the way to pass any text through the expansion unchanged. *)
Theorem doubled_percent_is_literal (tokens : gmap ascii string) (s : string) :
  tokens !! "%"%char = Some "%" →
  expand_val tokens (escape_percent s) = Ok s.
Proof.
  intros Hp. rewrite expand_val_chars.
  induction s as [|c s IH]; [done|]. cbn [escape_percent].
  destruct (Ascii.eqb c "%") eqn:Hc.
  - apply Ascii.eqb_eq in Hc as ->. cbn [expand_chars]. simpl.
    rewrite Hp, IH. done.
  - cbn [expand_chars]. rewrite Hc, IH. done.
Qed.

Lemma doubled_percent_is_literal_witness :
  expand_val {["%"%char := "%"; "h"%char := "example.com"]} "100%% of %%h"
  = Ok "100% of %h".
Proof.
  apply (doubled_percent_is_literal
           {["%"%char := "%"; "h"%char := "example.com"]} "100% of %h").
  reflexivity.
Defined.

(** ** Include *)



(** X16. Nothing detects a cycle of [Include]: a file whose first line
    includes the file itself has no outcome at any depth of the recursion,
    neither a result nor a configuration error. Python ends the recursion
    of [parse] through [_include] with a [RecursionError] or when no file
    can be opened any more. *)
Theorem self_include_never_returns (w : World) (cls : config_class)
    (path line pattern : string) (rest patterns others : list string) :
  read_lines w path = Some (line :: rest) →
  (∀ s, directive w cls s line "include" (pattern :: patterns)) →
  include_glob w pattern = path :: others →
  ∀ fuel self, parse w cls fuel path self = OutOfFuel.
Proof.
  intros Hfile Hd Hglob. induction fuel as [|fuel IH]; intros self; [done|].
  simpl. rewrite Hfile.
  change (set_tokens _ (set_matching true (set_line_no 0 (set_path path self))))
    with (at_start path self).
  cbn [for_each].
  rewrite (parse_line_dispatch w cls _ (at_start path self) _ _ _ _ _ (Hd _)
             (or_introl eq_refl) (include_is_bound cls)).
  cbn [call_handler]. unfold _include. cbn [for_each]. rewrite Hglob.
  cbn [for_each]. by rewrite IH.
Qed.

Lemma self_include_never_returns_witness :
  SSHClientConfig_load cyclic_world 1000 None ["/home/alice/.ssh/config"] false
    "alice" None "example.com" None = OutOfFuel.
Proof.
  unfold SSHClientConfig_load, load_paths. cbn [for_each].
  rewrite (self_include_never_returns cyclic_world alice_client
             "/home/alice/.ssh/config" "Include config" "config"
             ["Port 22"] [] []); [done|done| |done].
  intros s. by split.
Defined.

(** ** What the caller gives *)

(** An option outside the expansion list whose handler obeys first-wins
    keeps its value through [parse]. *)
Lemma parse_keeps_value (w : World) (cls : config_class) (k : string)
    (fuel : nat) (path : string) (self self' : SSHConfig) (v : value) :
  k ∉ _percent_expand cls →
  (∀ lo h, _handlers cls !! lo = Some (k, h) → first_wins h = true) →
  parse w cls fuel path self = Ok self' →
  _options self !! k = Some v → _options self' !! k = Some v.
Proof.
  intros Hpe Hfw Hrun. revert v. revert Hrun.
  apply (parse_related w cls (λ o o', ∀ v, o !! k = Some v → o' !! k = Some v)).
  - auto.
  - auto.
  - intros rec lo option h args rest s s' Hh Hne Hcall v Hv.
    destruct (decide (option = k)) as [->|Hk].
    + apply first_wins_discards in Hcall as ->; eauto.
    + apply handler_frame in Hcall as (_ & _ & Hcall & _); [|done].
      by rewrite Hcall.
  - intros option s s' Hin Hexp v Hv.
    apply expand_option_frame in Hexp as (Hexp & _).
    rewrite Hexp; [done|]. by intros ->.
Qed.

Lemma load_paths_keeps_value (w : World) (cls : config_class) (k : string)
    (fuel : nat) (config config' : SSHConfig) (config_paths : list string)
    (v : value) :
  k ∉ _percent_expand cls →
  (∀ lo h, _handlers cls !! lo = Some (k, h) → first_wins h = true) →
  load_paths w cls fuel config config_paths = Ok config' →
  _options config !! k = Some v → _options config' !! k = Some v.
Proof.
  intros Hpe Hfw Hrun Hv. unfold load_paths in Hrun.
  destruct config_paths as [|p ps]; [by simplify_eq|].
  apply bind_Ok in Hrun as (c & Hrun & [= <-]).
  change (_options c !! k = Some v). revert Hrun.
  apply (for_each_invariant (λ s, _options s !! k = Some v)); [|done].
  intros s x s' Hs Hx. by eapply parse_keeps_value.
Qed.

Lemma first_wins_in_tables (cls : config_class) (k : string) :
  Forall (λ e, e.1 = k → first_wins e.2 = true)
    (client_handler_table ++ server_handler_table) →
  ∀ lo h, _handlers cls !! lo = Some (k, h) → first_wins h = true.
Proof.
  intros Hall lo h [Hin _]%handlers_in_table.
  rewrite Forall_forall in Hall. by apply (Hall _ Hin).
Qed.

(** X17. The user and the port that the caller gives to
    [SSHClientConfig.load] are the [User] and the [Port] of the
    configuration it returns: no file, prior configuration or [Include]
    changes them. *)
Theorem caller_user_and_port_kept (w : World) (fuel : nat)
    (last_config : option SSHConfig) (config_paths : list string)
    (reload : bool) (local_user host : string) (user : option string)
    (port : option Z) (config : SSHConfig) :
  SSHClientConfig_load w fuel last_config config_paths reload local_user
    user host port = Ok config →
  (∀ u, user = Some u → _options config !! "User" = Some (VStr u)) ∧
  (∀ p, port = Some p → _options config !! "Port" = Some (VInt p)).
Proof.
  unfold SSHClientConfig_load. intros Hload. split.
  - intros u ->.
    eapply (load_paths_keeps_value _ _ "User"); [| |exact Hload|].
    + apply (bool_decide_unpack _). by vm_compute.
    + apply first_wins_in_tables. apply (bool_decide_unpack _). by vm_compute.
    + unfold SSHClientConfig_init. destruct port; simpl.
      * rewrite lookup_insert_ne by done. by rewrite lookup_insert_eq.
      * by rewrite lookup_insert_eq.
  - intros p ->.
    eapply (load_paths_keeps_value _ _ "Port"); [| |exact Hload|].
    + apply (bool_decide_unpack _). by vm_compute.
    + apply first_wins_in_tables. apply (bool_decide_unpack _). by vm_compute.
    + unfold SSHClientConfig_init. simpl. by rewrite lookup_insert_eq.
Qed.

Lemma caller_user_and_port_kept_witness :
  ∃ config,
    SSHClientConfig_load two_ports_world 1 None ["config"] false
      "alice" (Some "carol") "example.com" (Some 2222%Z) = Ok config ∧
    _options config !! "User" = Some (VStr "carol") ∧
    _options config !! "Port" = Some (VInt 2222).
Proof.
  destruct (outcome_check
              (SSHClientConfig_load two_ports_world 1 None ["config"] false
                 "alice" (Some "carol") "example.com" (Some 2222%Z)) (λ _, true))
    as (config & Hload & _); [vm_compute; reflexivity|].
  exists config.
  destruct (caller_user_and_port_kept _ _ _ _ _ _ _ _ _ _ Hload) as [Hu Hp].
  split_and!; [exact Hload|by apply Hu|by apply Hp].
Defined.

(** X18. The paths of [load] are in order of priority: an option outside
    the expansion list whose handler obeys first-wins, and that has a value
    when the first path is parsed, keeps that value through all the other
    paths and the files they include. *)
Theorem earlier_path_wins (w : World) (cls : config_class) (fuel : nat)
    (config config1 config' : SSHConfig) (path k : string)
    (paths : list string) (v : value) :
  k ∉ _percent_expand cls →
  (∀ lo h, _handlers cls !! lo = Some (k, h) → first_wins h = true) →
  parse w cls fuel path config = Ok config1 →
  _options config1 !! k = Some v →
  load_paths w cls fuel config (path :: paths) = Ok config' →
  _options config' !! k = Some v.
Proof.
  intros Hpe Hfw Hfirst Hv Hload. unfold load_paths in Hload.
  cbn [for_each] in Hload. rewrite Hfirst in Hload.
  apply bind_Ok in Hload as (c & Hrun & [= <-]).
  change (_options c !! k = Some v). revert Hrun.
  apply (for_each_invariant (λ s, _options s !! k = Some v)); [|done].
  intros s x s' Hs Hx. by eapply parse_keeps_value.
Qed.

Lemma earlier_path_wins_witness :
  ∃ config,
    SSHClientConfig_load match_world 1 None ["ports"; "config"] false
      "alice" None "example.com" None = Ok config ∧
    _options config !! "Port" = Some (VInt 22).
Proof.
  destruct (outcome_check
              (SSHClientConfig_load match_world 1 None ["ports"; "config"] false
                 "alice" None "example.com" None) (λ _, true))
    as (config & Hload & _); [vm_compute; reflexivity|].
  destruct (outcome_check
              (parse match_world alice_client 1 "ports" fresh_config)
              (λ s, bool_decide (_options s !! "Port" = Some (VInt 22))))
    as (config1 & Hfirst & Hport); [vm_compute; reflexivity|].
  apply bool_decide_eq_true in Hport.
  exists config. split; [exact Hload|].
  eapply (earlier_path_wins match_world alice_client 1 fresh_config config1
            config "ports" "Port" ["config"]);
    [| |exact Hfirst|exact Hport|exact Hload].
  - apply (bool_decide_unpack _). by vm_compute.
  - apply first_wins_in_tables. apply (bool_decide_unpack _). by vm_compute.
Defined.

(** ** The kinds of the values *)

Lemma directive_value_fits (h : handler) (args : list string) (v : value) :
  scalar_setter h = true → directive_value h args = Some v →
  value_fits h v = true.
Proof.
  intros Hh Hv. destruct h; try discriminate Hh; destruct args as [|a args];
    simpl in Hv; repeat case_match; simplify_eq/=; try done.
  destruct (PyStr.int a); by simplify_eq/=.
Qed.

Lemma well_typed_store (cls : config_class) (options : gmap string value)
    (loption option : string) (h : handler) (v : value) :
  _handlers cls !! loption = Some (option, h) →
  value_fits h v = true →
  well_typed cls options → well_typed cls (<[option := v]> options).
Proof.
  intros Hh Hv Hwt lo' option' h' v' Hh' Hv'.
  destruct (decide (option = option')) as [<-|Hne].
  - rewrite lookup_insert_eq in Hv'. simplify_eq.
    by rewrite <- (handler_of_option cls cls _ _ _ _ _ Hh Hh').
  - rewrite lookup_insert_ne in Hv' by done. by eapply Hwt.
Qed.

Lemma well_typed_store_if_unset (cls : config_class) (self : SSHConfig)
    (loption option : string) (h : handler) (v : value) :
  _handlers cls !! loption = Some (option, h) →
  value_fits h v = true →
  well_typed cls (_options self) →
  well_typed cls (_options (store_if_unset option v self)).
Proof.
  intros Hh Hv Hwt. unfold store_if_unset.
  destruct (_options self !! option); [done|]. by eapply well_typed_store.
Qed.

(** A handler stores a value of its kind. *)
Lemma handler_well_typed (w : World) (cls : config_class)
    (rec : string → SSHConfig → outcome SSHConfig)
    (loption option : string) (h : handler) (args rest : list string)
    (self self' : SSHConfig) :
  _handlers cls !! loption = Some (option, h) →
  h ≠ H_include →
  call_handler w cls rec h option args self = Ok (self', rest) →
  well_typed cls (_options self) → well_typed cls (_options self').
Proof.
  intros Hh Hne Hrun Hwt.
  assert (Hput : ∀ v s, value_fits h v = true →
                        well_typed cls (_options s) →
                        well_typed cls (_options (store option v s))).
  { intros v s Hv Hs. by eapply well_typed_store. }
  assert (Hunset : ∀ v, value_fits h v = true →
                        well_typed cls (_options (store_if_unset option v self))).
  { intros v Hv. by eapply well_typed_store_if_unset. }
  clear Hh. destruct (scalar_setter h) eqn:Hs.
  { destruct (scalar_setter_runs _ _ _ _ _ _ _ _ _ Hs Hrun) as (v & Hv & ->).
    apply Hunset. by eapply directive_value_fits. }
  destruct h; try discriminate Hs; try done; simpl in Hrun.
  - unfold _match_host in Hrun. destruct cls; [|done].
    by injection Hrun as <- <-.
  - apply _match_frame in Hrun as [_ [b ->]]. done.
  - unfold _append_string in Hrun. destruct args; simpl in Hrun; [done|].
    destruct (negb _).
    + destruct (_options self !! option) as [[]|]; try done;
        injection Hrun as <- <-; by apply Hput.
    + injection Hrun as <- <-. by apply Hunset.
  - unfold _append_string_list in Hrun.
    destruct (_options self !! option) as [[]|]; try done;
      injection Hrun as <- <-; by apply Hput.
  - unfold _set_hostname in Hrun. destruct cls; [|done].
    destruct args; simpl in Hrun; [done|].
    destruct (_options self !! option) eqn:Ho; [by injection Hrun as <- <-|].
    apply bind_Ok in Hrun as (hs & _ & Hrun).
    apply bind_Ok in Hrun as (e & _ & Hrun). injection Hrun as <- <-.
    by apply Hput.
  - unfold _set_request_tty in Hrun. destruct args; simpl in Hrun; [done|].
    apply bind_Ok in Hrun as (v & Hv & Hrun). injection Hrun as <- <-.
    apply Hunset. repeat case_match; by simplify_eq/=.
Qed.

(** The expansion keeps the kind of a value. *)
Lemma expand_option_well_typed (cls : config_class) (option : string)
    (self self' : SSHConfig) :
  expand_option self option = Ok self' →
  well_typed cls (_options self) → well_typed cls (_options self').
Proof.
  unfold expand_option. intros Hrun Hwt.
  destruct (_options self !! option) as [v|] eqn:Hv; [|by simplify_eq].
  apply bind_Ok in Hrun as (v' & Hv' & Hrun). simplify_eq/=.
  intros lo' option' h' v'' Hh' Hv''.
  destruct (decide (option = option')) as [<-|Hne].
  - rewrite lookup_insert_eq in Hv''. simplify_eq.
    specialize (Hwt _ _ _ _ Hh' Hv).
    destruct v; simplify_eq/=; try done.
    + apply bind_Ok in Hv' as (s' & _ & ?). by simplify_eq.
    + apply bind_Ok in Hv' as (l' & _ & ?). by simplify_eq.
  - rewrite lookup_insert_ne in Hv'' by done. by eapply Hwt.
Qed.

Lemma parse_line_well_typed (w : World) (cls : config_class)
    (rec : string → SSHConfig → outcome SSHConfig) (line : string)
    (self self' : SSHConfig) :
  (∀ p s s', rec p s = Ok s' → well_typed cls (_options s) →
             well_typed cls (_options s')) →
  parse_line w cls rec self line = Ok self' →
  well_typed cls (_options self) → well_typed cls (_options self').
Proof.
  intros Hrec.
  apply (parse_line_related w cls (λ o o', well_typed cls o → well_typed cls o'));
    [auto|auto| |done].
  intros rec' lo option h args rest s s' Hh Hne Hcall.
  by eapply handler_well_typed.
Qed.

Lemma parse_well_typed (w : World) (cls : config_class) (fuel : nat)
    (path : string) (self self' : SSHConfig) :
  parse w cls fuel path self = Ok self' →
  well_typed cls (_options self) → well_typed cls (_options self').
Proof.
  apply (parse_related w cls (λ o o', well_typed cls o → well_typed cls o')).
  - auto.
  - auto.
  - intros rec lo option h args rest s s' Hh Hne Hcall.
    by eapply handler_well_typed.
  - intros option s s' _ Hexp. by eapply expand_option_well_typed.
Qed.

Lemma load_paths_well_typed (w : World) (cls : config_class) (fuel : nat)
    (config config' : SSHConfig) (config_paths : list string) :
  load_paths w cls fuel config config_paths = Ok config' →
  well_typed cls (_options config) → well_typed cls (_options config').
Proof.
  unfold load_paths. intros Hrun Hwt.
  destruct config_paths as [|p ps]; [by simplify_eq|].
  apply bind_Ok in Hrun as (c & Hrun & [= <-]).
  change (well_typed cls (_options c)). revert Hrun.
  apply (for_each_invariant (λ s, well_typed cls (_options s))); [|done].
  intros s x s' Hs Hx. by eapply parse_well_typed.
Qed.

(** X19. Every option of a loaded configuration holds a value of the kind
    that its handler stores: a bool for the boolean options, an int for
    the integer ones, a string or [None] for the string ones, a list for
    the list ones, a string for [Hostname], and so on. This holds for a
    client and for a server, for any files, when the prior configuration,
    if there is one, is of that kind. *)
Theorem loaded_options_well_typed (w : World) (fuel : nat)
    (last_config : option SSHConfig) (config_paths : list string)
    (reload : bool) :
  (∀ local_user user host port config,
     (∀ c, last_config = Some c →
           well_typed (SSHClientConfig local_user host) (get_options c reload)) →
     SSHClientConfig_load w fuel last_config config_paths reload local_user
       user host port = Ok config →
     well_typed (SSHClientConfig local_user host) (_options config)) ∧
  (∀ local_addr local_port user host addr config,
     (∀ c, last_config = Some c →
           well_typed (SSHServerConfig local_addr local_port user host addr)
             (get_options c reload)) →
     SSHServerConfig_load w fuel last_config config_paths reload local_addr
       local_port user host addr = Ok config →
     well_typed
       (SSHServerConfig local_addr local_port user
          (if String.eqb host "" then addr else host) addr)
       (_options config)).
Proof.
  assert (Hinit : ∀ cls,
    (∀ c, last_config = Some c → well_typed cls (get_options c reload)) →
    well_typed cls (_options (SSHConfig_init last_config reload))).
  { intros cls Hlast. unfold SSHConfig_init. simpl.
    destruct last_config as [c|]; [by apply Hlast|].
    intros lo o h v _ Hv. by rewrite lookup_empty in Hv. }
  split.
  - intros local_user user host port config Hlast Hload.
    unfold SSHClientConfig_load in Hload.
    eapply load_paths_well_typed; [exact Hload|].
    unfold SSHClientConfig_init.
    assert (well_typed (SSHClientConfig local_user host)
              (_options match user with
                        | Some u => store "User" (VStr u)
                                      (SSHConfig_init last_config reload)
                        | None => SSHConfig_init last_config reload
                        end)) as Huser.
    { destruct user as [u|]; [|by apply Hinit].
      apply (well_typed_store _ _ "user" "User" H_set_string); [done|done|].
      by apply Hinit. }
    destruct port as [p|]; [|done].
    by apply (well_typed_store _ _ "port" "Port" H_set_int).
  - intros local_addr local_port user host addr config Hlast Hload.
    unfold SSHServerConfig_load in Hload.
    eapply load_paths_well_typed; [exact Hload|].
    apply Hinit. intros c Hc. exact (Hlast c Hc).
Qed.

Lemma loaded_options_well_typed_witness :
  ∃ config,
    SSHClientConfig_load two_ports_world 1 None ["config"] false
      "alice" (Some "carol") "example.com" None = Ok config ∧
    well_typed alice_client (_options config).
Proof.
  destruct (outcome_check
              (SSHClientConfig_load two_ports_world 1 None ["config"] false
                 "alice" (Some "carol") "example.com" None) (λ _, true))
    as (config & Hload & _); [vm_compute; reflexivity|].
  exists config. split; [exact Hload|].
  destruct (loaded_options_well_typed two_ports_world 1 None ["config"] false)
    as [H _].
  apply (H "alice" (Some "carol") "example.com" None); [done|exact Hload].
Defined.

(** ** Compression *)

(** X20. With options of their kinds, [get_compression_algs] gives the
    empty tuple exactly when [Compression] has no value, the list that
    begins with [zlib@openssh.com] when it is true and the list that
    begins with [none] when it is false: a stored [Compression] is always
    a bool, so that a value is never taken for unset. *)
Theorem compression_algs_of_loaded (cls : config_class) (self : SSHConfig) :
  well_typed cls (_options self) →
  match _options self !! "Compression" with
  | None => get_compression_algs self = None
  | Some v =>
      ∃ b, v = VBool b ∧
           get_compression_algs self
           = Some (if b then "zlib@openssh.com,zlib,none"
                   else "none,zlib@openssh.com,zlib")
  end.
Proof.
  intros Hwt. unfold get_compression_algs, get.
  destruct (_options self !! "Compression") as [v|] eqn:Hv; [|done].
  assert (value_fits H_set_bool v = true) as Hfit.
  { apply (Hwt "compression" "Compression"); [|done]. by destruct cls. }
  destruct v as [|b| | | | |]; try discriminate Hfit.
  exists b. split; [done|]. by destruct b.
Qed.

Lemma compression_algs_of_loaded_witness :
  ∃ config,
    SSHClientConfig_load two_ports_world 1 None ["config"] false
      "alice" None "example.com" None = Ok config ∧
    get_compression_algs config = Some "zlib@openssh.com,zlib,none".
Proof.
  destruct (outcome_check
              (SSHClientConfig_load two_ports_world 1 None ["config"] false
                 "alice" None "example.com" None)
              (λ s, bool_decide (_options s !! "Compression" = Some (VBool true))))
    as (config & Hload & Hc); [vm_compute; reflexivity|].
  apply bool_decide_eq_true in Hc.
  exists config. split; [exact Hload|].
  pose proof (compression_algs_of_loaded alice_client config) as H.
  rewrite Hc in H. destruct H as (b & Hb & H).
  - eapply load_paths_well_typed; [exact Hload|].
    intros lo o h v _ Hv. change ((∅ : gmap string value) !! o = Some v) in Hv.
    by rewrite lookup_empty in Hv.
  - injection Hb as <-. exact H.
Defined.

(** ** The exceptions that leave the parser *)

Lemma graceful_bind {A B : Type} (m : outcome A) (f : A → outcome B) :
  graceful m → (∀ a, m = Ok a → graceful (f a)) → graceful (m ≫= f).
Proof. destruct m as [a|e|]; simpl; auto. Qed.

Lemma for_each_graceful {A S : Type} (P : S → Prop) (body : S → A → outcome S)
    (l : list A) :
  (∀ s x, P s → graceful (body s x)) →
  (∀ s x s', P s → body s x = Ok s' → P s') →
  ∀ s, P s → graceful (for_each body l s).
Proof.
  intros Hg Hp. induction l as [|x l IH]; intros s Hs; [done|].
  simpl. apply graceful_bind; [by apply Hg|]. intros s' Hs'. apply IH. eauto.
Qed.

Lemma expand_chars_graceful (tokens : gmap ascii string) (n : nat) :
  ∀ s, String.length s ≤ n → graceful (expand_chars tokens s).
Proof.
  induction n as [|n IH]; intros s Hn.
  - destruct s; [done|simpl in Hn; lia].
  - destruct s as [|c s]; [done|]. simpl in Hn. cbn [expand_chars].
    destruct (Ascii.eqb c "%").
    + destruct s as [|t s]; [done|].
      destruct (tokens !! t).
      * apply graceful_bind; [apply IH; simpl in Hn; lia|done].
      * by destruct (missing_token_is_parse_error t) as [msg ->].
    + apply graceful_bind; [apply IH; lia|done].
Qed.

Lemma expand_val_graceful (tokens : gmap ascii string) (s : string) :
  graceful (expand_val tokens s).
Proof. rewrite expand_val_chars. by eapply expand_chars_graceful. Qed.

Lemma map_outcome_graceful {A B : Type} (f : A → outcome B) (l : list A) :
  (∀ x, graceful (f x)) → graceful (map_outcome f l).
Proof.
  intros Hf. induction l as [|x l IH]; [done|]. simpl.
  apply graceful_bind; [done|]. intros y _.
  apply graceful_bind; [done|]. done.
Qed.

(** What [_match_val] gives when the options are of their kinds. *)
Lemma _match_val_kind (cls : config_class) (self : SSHConfig) (match_ : string) :
  well_typed cls (_options self) →
  _match_val cls self match_ = VNone ∨ ∃ s, _match_val cls self match_ = VStr s.
Proof.
  intros Hwt. destruct cls; simpl; unfold get; repeat case_match; eauto.
  - destruct (_options self !! "Hostname") as [v|] eqn:Hv; simpl; [|eauto].
    assert (value_fits H_set_hostname v = true) as Hfit.
    { by apply (Hwt "hostname" "Hostname"). }
    destruct v; try discriminate Hfit. eauto.
  - destruct (_options self !! "User") as [v|] eqn:Hv; simpl; [|eauto].
    assert (value_fits H_set_string v = true) as Hfit.
    { by apply (Hwt "user" "User"). }
    destruct v; try discriminate Hfit; eauto.
Qed.

Lemma _match_graceful (w : World) (cls : config_class) (option : string)
    (n : nat) :
  ∀ args self,
    length args ≤ n →
    well_typed cls (_options self) →
    graceful (_match w cls option args self).
Proof.
  induction n as [|n IH]; intros args self Hn Hwt.
  - destruct args; [done|simpl in Hn; lia].
  - destruct args as [|m args1]; [done|]. simpl in Hn. cbn [_match].
    destruct (String.eqb (PyStr.lower m) "all"); [apply IH; [lia|done]|].
    destruct (negb _ && _) eqn:Hnone; [done|].
    destruct args1 as [|pattern args2]; [done|]. simpl in Hn.
    apply graceful_bind.
    + destruct (String.eqb (PyStr.lower m) "exec") eqn:Hexec; [done|].
      simpl in Hnone.
      destruct (_match_val_kind cls self (PyStr.lower m) Hwt) as [Hv|[s Hv]];
        rewrite Hv in *; [done|].
      by destruct (str_in _ _).
    + intros matching _. destruct matching; [|done]. apply IH; [lia|done].
Qed.

Lemma server_handlers (loption option : string) (h : handler)
    (local_addr : string) (local_port : Z) (user host addr : string) :
  _handlers (SSHServerConfig local_addr local_port user host addr) !! loption
    = Some (option, h) →
  h ≠ H_match_host ∧ h ≠ H_set_hostname.
Proof.
  intros [Hin _]%handlers_dict_lookup.
  assert (Hall : Forall (λ e, e.2 ≠ H_match_host ∧ e.2 ≠ H_set_hostname)
                   server_handler_table).
  { apply (bool_decide_unpack _). by vm_compute. }
  rewrite Forall_forall in Hall. apply (Hall _ Hin).
Qed.

(** A handler other than [_include], called with an argument on options of
    their kinds, raises nothing but the configuration error. *)
Lemma handler_graceful (w : World) (cls : config_class)
    (rec : string → SSHConfig → outcome SSHConfig)
    (loption option a : string) (h : handler) (args : list string)
    (self : SSHConfig) :
  _handlers cls !! loption = Some (option, h) →
  h ≠ H_include →
  well_typed cls (_options self) →
  graceful (call_handler w cls rec h option (a :: args) self).
Proof.
  intros Hh Hne Hwt. destruct h; try done; cbn [call_handler].
  - destruct cls; [done|]. by apply server_handlers in Hh as [? _].
  - by apply (_match_graceful w cls option (length (a :: args))).
  - unfold _set_bool. simpl. by repeat case_match.
  - unfold _set_int. simpl. by repeat case_match.
  - destruct (_options self !! option) as [v|] eqn:Hv.
    + pose proof (Hwt _ _ _ _ Hh Hv) as Hfit.
      unfold _append_string. simpl. rewrite Hv.
      destruct v; try discriminate Hfit. by destruct (negb _).
    + unfold _append_string. simpl. rewrite Hv. by destruct (negb _).
  - destruct (_options self !! option) as [v|] eqn:Hv.
    + pose proof (Hwt _ _ _ _ Hh Hv) as Hfit.
      unfold _append_string_list. rewrite Hv.
      by destruct v; try discriminate Hfit.
    + unfold _append_string_list. by rewrite Hv.
  - unfold _set_address_family. simpl. by repeat case_match.
  - unfold _set_rekey_limits. simpl. by repeat case_match.
  - destruct cls; [|by apply server_handlers in Hh as [_ ?]].
    unfold _set_hostname. simpl.
    destruct (_options self !! option) eqn:Hv; [done|].
    unfold get. rewrite Hv. simpl.
    apply graceful_bind; [apply expand_val_graceful|done].
  - unfold _set_request_tty. simpl. by repeat case_match.
Qed.

Section Graceful.

Context (w : World) (cls : config_class).

Hypothesis words : splits_words w.

Lemma read_directive_graceful (self : SSHConfig) (line : string) :
  line ≠ "" → graceful (read_directive w cls self line).
Proof.
  intros Hline. unfold read_directive.
  destruct (shlex_split w line) as [exc|[|word args]] eqn:Hsplit; simpl.
  - done.
  - by destruct (words line Hline).
  - by destruct (split_option word args).
Qed.

Lemma parse_line_graceful (rec : string → SSHConfig → outcome SSHConfig)
    (self : SSHConfig) (line : string) :
  (∀ p s, well_typed cls (_options s) → graceful (rec p s)) →
  (∀ p s s', rec p s = Ok s' → well_typed cls (_options s) →
             well_typed cls (_options s')) →
  well_typed cls (_options self) →
  graceful (parse_line w cls rec self line).
Proof.
  intros Hrec Hkeep Hwt. unfold parse_line.
  destruct (String.eqb (PyStr.strip line) "") eqn:Hempty; [done|].
  apply String.eqb_neq in Hempty. simpl.
  destruct (PyStr.startswith "#" (PyStr.strip line)); [done|].
  apply graceful_bind; [by apply read_directive_graceful|].
  intros [loption args] _.
  destruct (negb _ && _); [done|].
  destruct (_handlers cls !! loption) as [[option h]|] eqn:Hh; [|done].
  destruct args as [|a args]; [done|].
  apply graceful_bind.
  - destruct (decide (h = H_include)) as [->|Hne].
    + simpl. unfold _include. apply graceful_bind; [|done].
      apply (for_each_graceful (λ s, well_typed cls (_options s))); [| |done].
      * intros s pattern Hs.
        by apply (for_each_graceful (λ s, well_typed cls (_options s))); eauto.
      * intros s pattern s' Hs.
        apply (for_each_invariant (λ s, well_typed cls (_options s))); eauto.
    + by eapply handler_graceful.
  - intros [s rest] _. by destruct rest.
Qed.

Lemma _set_tokens_graceful (self : SSHConfig) :
  well_typed cls (_options self) → graceful (_set_tokens w cls self).
Proof.
  intros Hwt. unfold _set_tokens. destruct cls; [|done].
  apply graceful_bind.
  { unfold get. destruct (_options self !! "Hostname") as [v|] eqn:Hv; [|done].
    assert (value_fits H_set_hostname v = true) as Hfit.
    { by apply (Hwt "hostname" "Hostname"). }
    by destruct v. }
  intros host _. apply graceful_bind; [|done].
  unfold get. destruct (_options self !! "User") as [v|] eqn:Hv; [|done].
  assert (value_fits H_set_string v = true) as Hfit.
  { by apply (Hwt "user" "User"). }
  destruct v; try discriminate Hfit; [done|]. simpl. by destruct (negb _).
Qed.

Lemma expand_option_graceful (self : SSHConfig) (option : string) :
  graceful (expand_option self option).
Proof.
  unfold expand_option. destruct (_options self !! option) as [v|]; [|done].
  apply graceful_bind; [|done].
  destruct v; try done.
  - apply graceful_bind; [apply expand_val_graceful|done].
  - apply graceful_bind; [|done].
    apply map_outcome_graceful. intros x. apply expand_val_graceful.
Qed.


End Graceful.


(** ** The tokens of a server *)

Lemma expand_chars_outcome (tokens : gmap ascii string) (n : nat) :
  ∀ s, String.length s ≤ n →
       (∃ r, expand_chars tokens s = Ok r) ∨
       (∃ msg, expand_chars tokens s = Raise (ConfigParseError msg)).
Proof.
  induction n as [|n IH]; intros s Hn.
  - destruct s; [|simpl in Hn; lia]. left. by eexists.
  - destruct s as [|c s]; [left; by eexists|]. simpl in Hn. cbn [expand_chars].
    destruct (Ascii.eqb c "%").
    + destruct s as [|t s]; [right; by eexists|].
      destruct (tokens !! t).
      * destruct (IH s) as [[r ->]|[msg ->]]; [simpl in Hn; lia|..]; simpl; eauto.
      * right. destruct (missing_token_is_parse_error t) as [msg ->]. eauto.
    + destruct (IH s) as [[r ->]|[msg ->]]; [lia|..]; simpl; eauto.
Qed.

Lemma map_outcome_raises (tokens : gmap ascii string) (l : list string)
    (item : string) (e : string) :
  item ∈ l →
  expand_val tokens item = Raise (ConfigParseError e) →
  ∃ msg, map_outcome (expand_val tokens) l = Raise (ConfigParseError msg).
Proof.
  intros Hin Hitem. induction l as [|x l IH]; [by apply elem_of_nil in Hin|].
  simpl. apply elem_of_cons in Hin as [<-|Hin].
  - rewrite Hitem. simpl. eauto.
  - pose proof (expand_chars_outcome tokens (String.length x) x (le_n _)) as Hx.
    rewrite <- expand_val_chars in Hx.
    destruct Hx as [[r ->]|[msg ->]]; simpl; [|eauto].
    destruct (IH Hin) as [msg ->]. simpl. eauto.
Qed.

Section ServerTokens.

Context (w : World) (local_addr : string) (local_port : Z).

Context (user host addr : string).

Lemma server_handler_tokens (rec : string → SSHConfig → outcome SSHConfig)
    (loption option : string) (h : handler) (args rest : list string)
    (self self' : SSHConfig) :
  _handlers (SSHServerConfig local_addr local_port user host addr) !! loption
    = Some (option, h) →
  h ≠ H_include →
  call_handler w (SSHServerConfig local_addr local_port user host addr) rec h
    option args self = Ok (self', rest) →
  _tokens self' = _tokens self.
Proof.
  intros Hh Hne Hrun. apply server_handlers in Hh as [Hmh Hsh].
  destruct (scalar_setter h) eqn:Hs.
  { destruct (scalar_setter_runs _ _ _ _ _ _ _ _ _ Hs Hrun) as (v & _ & ->).
    unfold store_if_unset. by destruct (_options self !! option). }
  destruct h; try discriminate Hs; try done; simpl in Hrun.
  - apply _match_frame in Hrun as [_ [b ->]]. done.
  - unfold _append_string in Hrun. destruct args; simpl in Hrun; [done|].
    unfold store_if_unset in Hrun. repeat case_match; by simplify_eq/=.
  - unfold _append_string_list in Hrun. repeat case_match; by simplify_eq/=.
  - unfold _set_request_tty in Hrun. destruct args; simpl in Hrun; [done|].
    apply bind_Ok in Hrun as (v & _ & Hrun). injection Hrun as <- <-.
    unfold store_if_unset. by destruct (_options self !! option).
Qed.

Lemma server_parse_line_tokens (rec : string → SSHConfig → outcome SSHConfig)
    (line : string) (self self' : SSHConfig) :
  (∀ p s s', rec p s = Ok s' → _tokens s' = server_tokens user) →
  parse_line w (SSHServerConfig local_addr local_port user host addr) rec self
    line = Ok self' →
  _tokens self' = _tokens self ∨ _tokens self' = server_tokens user.
Proof.
  intros Hrec Hrun. unfold parse_line in Hrun.
  destruct (_ || _); [left; by simplify_eq/=|].
  apply bind_Ok in Hrun as ([loption args] & _ & Hrun).
  destruct (negb _ && _); [left; by simplify_eq/=|].
  destruct (_handlers (SSHServerConfig local_addr local_port user host addr)
              !! loption) as [[option h]|] eqn:Hh;
    [|left; by simplify_eq/=].
  destruct args as [|a args]; [done|].
  apply bind_Ok in Hrun as ([s1 rest] & Hcall & Hrun).
  destruct rest; [|done]. injection Hrun as <-.
  destruct (decide (h = H_include)) as [->|Hne].
  - simpl in Hcall. unfold _include in Hcall.
    apply bind_Ok in Hcall as (s & Hfor & Hs). injection Hs as <-. simpl.
    revert Hfor.
    apply (for_each_invariant
             (λ s, _tokens s = _tokens (set_line_no (S (_line_no self)) self) ∨
                   _tokens s = server_tokens user)); [|by left].
    intros s2 pattern s3 Hs2.
    apply (for_each_invariant
             (λ s, _tokens s = _tokens (set_line_no (S (_line_no self)) self) ∨
                   _tokens s = server_tokens user)); [|done].
    intros s4 path s5 _ Hp. right. by eapply Hrec.
  - left. by apply (server_handler_tokens _ _ _ _ _ _ _ _ Hh) in Hcall.
Qed.

Lemma server_parse_tokens (fuel : nat) :
  ∀ path self self',
    parse w (SSHServerConfig local_addr local_port user host addr) fuel path self
      = Ok self' →
    _tokens self' = server_tokens user.
Proof.
  induction fuel as [|fuel IH]; intros path self self' Hrun; [done|].
  simpl in Hrun. destruct (read_lines w path) as [file|]; [|done].
  apply bind_Ok in Hrun as (s1 & Hlines & Hrun).
  apply bind_Ok in Hrun as (s2 & Hexp & [= <-]).
  assert (_tokens s1 = {["%"%char := "%"]} ∨ _tokens s1 = server_tokens user)
    as Hs1.
  { revert Hlines.
    apply (for_each_invariant
             (λ s, _tokens s = {["%"%char := "%"]} ∨
                   _tokens s = server_tokens user)); [|by left].
    intros s line s' Hs Hline.
    destruct (server_parse_line_tokens _ _ _ _ IH Hline) as [H|H];
      [by rewrite H|by right]. }
  apply expand_option_tokens in Hexp. rewrite Hexp. simpl.
  destruct Hs1 as [->| ->]; [done|]. unfold server_tokens.
  by rewrite insert_insert_eq.
Qed.

(** X22. A server has the tokens [%%] and [%u] and no other: every
    [parse] that returns leaves exactly these two in the token dictionary,
    and a file whose directive pass leaves in [AuthorizedKeysFile] a value
    with any other token, [%h] or [%d] for one, makes [parse] raise the
    configuration error. *)
Theorem server_tokens_only (fuel : nat) (path : string) (self : SSHConfig) :
  (∀ self',
     parse w (SSHServerConfig local_addr local_port user host addr) fuel path self
       = Ok self' →
     _tokens self' = server_tokens user) ∧
  (∀ file pass l pre post c,
     read_lines w path = Some file →
     for_each
       (parse_line w (SSHServerConfig local_addr local_port user host addr)
          (parse w (SSHServerConfig local_addr local_port user host addr) fuel))
       file (at_start path self)
       = Ok pass →
     _options pass !! "AuthorizedKeysFile" = Some (VList l) →
     pre +:+ String "%" (String c post) ∈ l →
     percent_free pre →
     c ≠ "%"%char → c ≠ "u"%char →
     ∃ msg,
       parse w (SSHServerConfig local_addr local_port user host addr) (S fuel) path
         self
       = Raise (ConfigParseError msg)).
Proof.
  split; [apply server_parse_tokens|].
  intros file pass l pre post c Hfile Hpass Hl Hin Hpre Hc1 Hc2.
  assert (_tokens pass = {["%"%char := "%"]} ∨ _tokens pass = server_tokens user)
    as Htok.
  { revert Hpass.
    apply (for_each_invariant
             (λ s, _tokens s = {["%"%char := "%"]} ∨
                   _tokens s = server_tokens user)); [|by left].
    intros s line s' Hs Hline.
    destruct (server_parse_line_tokens _ _ _ _ (server_parse_tokens fuel) Hline)
      as [H|H]; [by rewrite H|by right]. }
  simpl. rewrite Hfile.
  change (set_tokens _ (set_matching true (set_line_no 0 (set_path path self))))
    with (at_start path self).
  rewrite Hpass. simpl. unfold expand_option. simpl. rewrite Hl.
  unfold _expand_val. simpl.
  assert (<["u"%char := user]> (_tokens pass) = server_tokens user) as ->.
  { destruct Htok as [->| ->]; [done|]. unfold server_tokens.
    by rewrite insert_insert_eq. }
  destruct (map_outcome_raises (server_tokens user) l
              (pre +:+ String "%" (String c post))
              match missing_token c with ConfigParseError m => m | _ => "" end Hin)
    as [msg Hmsg].
  - rewrite (expand_val_missing _ pre pre post c).
    + by destruct (missing_token_is_parse_error c) as [m ->].
    + by apply expand_val_plain.
    + unfold server_tokens. rewrite lookup_insert_ne by done.
      by rewrite lookup_singleton_ne.
  - change (λ value : string, expand_val (server_tokens user) value)
      with (expand_val (server_tokens user)).
    rewrite Hmsg. simpl. eauto.
Qed.

End ServerTokens.

Lemma server_tokens_only_witness :
  (∃ self',
     parse match_world bob_server 1 "keys" (SSHServerConfig_init None false)
     = Ok self' ∧
     _tokens self' = server_tokens "bob") ∧
  ∃ msg,
    parse match_world bob_server 1 "badkeys" (SSHServerConfig_init None false)
    = Raise (ConfigParseError msg).
Proof.
  split.
  - destruct (outcome_check
                (parse match_world bob_server 1 "keys"
                   (SSHServerConfig_init None false)) (λ _, true))
      as (self' & Hrun & _); [vm_compute; reflexivity|].
    exists self'. split; [exact Hrun|].
    by apply (server_tokens_only match_world "10.0.0.1" 22 "bob"
                "client.example" "10.0.0.2" 1 "keys"
                (SSHServerConfig_init None false)).
  - destruct (outcome_check
                (for_each
                   (parse_line match_world bob_server
                      (parse match_world bob_server 0))
                   ["AuthorizedKeysFile /home/%h/.ssh/keys"]
                   (at_start "badkeys" (SSHServerConfig_init None false)))
                (λ s, bool_decide (_options s !! "AuthorizedKeysFile"
                                   = Some (VList ["/home/%h/.ssh/keys"]))))
      as (pass & Hpass & Hl); [vm_compute; reflexivity|].
    apply bool_decide_eq_true in Hl.
    destruct (server_tokens_only match_world "10.0.0.1" 22 "bob"
                "client.example" "10.0.0.2" 0 "badkeys"
                (SSHServerConfig_init None false)) as [_ H].
    apply (H ["AuthorizedKeysFile /home/%h/.ssh/keys"] pass
             ["/home/%h/.ssh/keys"] "/home/" "/.ssh/keys" "h"%char);
      [reflexivity|exact Hpass|exact Hl|by left|reflexivity|done|done].
Defined.

(** ** Tokens that a client cannot build *)

Section MissingTokens.

Context (w : World) (cls : config_class) (c : ascii).

Hypothesis missing :
  (c = "d"%char ∧ expanduser_home w = "~") ∨ (c = "i"%char ∧ getuid w = None).

Lemma _set_tokens_absent (self self' : SSHConfig) :
  _set_tokens w cls self = Ok self' →
  _tokens self !! c = None → _tokens self' !! c = None.
Proof.
  unfold _set_tokens. intros Hrun Hc. destruct cls.
  - apply bind_Ok in Hrun as (hs & _ & Hrun).
    apply bind_Ok in Hrun as (us & _ & Hrun). injection Hrun as <-. simpl.
    destruct missing as [[-> Hhome]|[-> Huid]].
    + rewrite Hhome. simpl. destruct (getuid w);
        rewrite ?lookup_insert_ne by done; exact Hc.
    + rewrite Huid. destruct (negb _);
        rewrite ?lookup_insert_ne by done; exact Hc.
  - injection Hrun as <-. simpl.
    destruct missing as [[-> _]|[-> _]]; by rewrite lookup_insert_ne.
Qed.

Lemma parse_line_absent (rec : string → SSHConfig → outcome SSHConfig)
    (line : string) (self self' : SSHConfig) :
  (∀ p s s', rec p s = Ok s' → _tokens s' !! c = None) →
  _tokens self !! c = None →
  parse_line w cls rec self line = Ok self' →
  _tokens self' !! c = None.
Proof.
  intros Hrec Hc Hrun. unfold parse_line in Hrun.
  destruct (_ || _); [by simplify_eq/=|].
  apply bind_Ok in Hrun as ([loption args] & _ & Hrun).
  destruct (negb _ && _); [by simplify_eq/=|].
  destruct (_handlers cls !! loption) as [[option h]|] eqn:Hh; [|by simplify_eq/=].
  destruct args as [|a args]; [done|].
  apply bind_Ok in Hrun as ([s1 rest] & Hcall & Hrun).
  destruct rest; [|done]. injection Hrun as <-.
  destruct (decide (h = H_include)) as [->|Hne].
  - simpl in Hcall. unfold _include in Hcall.
    apply bind_Ok in Hcall as (s & Hfor & Hs). injection Hs as <-. simpl.
    revert Hfor. apply (for_each_invariant (λ s, _tokens s !! c = None)); [|done].
    intros s2 pattern s3 Hs2.
    apply (for_each_invariant (λ s, _tokens s !! c = None)); [|done].
    intros s4 path s5 _. apply Hrec.
  - apply handler_tokens in Hcall; [|done].
    destruct Hcall as [->|[hs ->]]; simpl; [done|].
    destruct missing as [[-> _]|[-> _]]; by rewrite lookup_insert_ne.
Qed.

Lemma parse_absent (fuel : nat) :
  ∀ path self self',
    parse w cls fuel path self = Ok self' → _tokens self' !! c = None.
Proof.
  induction fuel as [|fuel IH]; intros path self self' Hrun; [done|].
  simpl in Hrun. destruct (read_lines w path) as [file|]; [|done].
  apply bind_Ok in Hrun as (s1 & Hlines & Hrun).
  apply bind_Ok in Hrun as (s2 & Htok & Hexp).
  assert (_tokens s1 !! c = None) as Hs1.
  { revert Hlines. apply (for_each_invariant (λ s, _tokens s !! c = None)).
    - intros s line s' Hs. by apply parse_line_absent.
    - simpl. destruct missing as [[-> _]|[-> _]]; by rewrite lookup_singleton_ne. }
  apply _set_tokens_absent in Htok; [|done].
  revert Hexp. apply (for_each_invariant (λ s, _tokens s !! c = None)); [|done].
  intros s o s' Hs Ho. by rewrite (expand_option_tokens _ _ _ Ho).
Qed.

Lemma lines_absent (fuel : nat) (path : string) (lines : list string)
    (self pass tok : SSHConfig) :
  for_each (parse_line w cls (parse w cls fuel)) lines (at_start path self)
    = Ok pass →
  _set_tokens w cls pass = Ok tok →
  _tokens tok !! c = None.
Proof.
  intros Hpass Htok. apply _set_tokens_absent in Htok; [done|].
  revert Hpass. apply (for_each_invariant (λ s, _tokens s !! c = None)).
  - intros s line s' Hs. apply parse_line_absent; [|done]. apply parse_absent.
  - simpl. destruct missing as [[-> _]|[-> _]]; by rewrite lookup_singleton_ne.
Qed.

End MissingTokens.


